(** * Prospect matcher: a verified model of [src/lib/prospectMatcher.js]

    The development embeds the record-matching engine of the repository
    (the functions [createMatchKey], [getFieldValue], [validateColumns],
    [createPlayerMaps] and [findMatches]) and settles the properties that
    its specification states about them.  It then embeds what surrounds
    the engine: [formatMatchResults], the functions of
    [src/lib/csvUtils.js] that work on records ([objectsToCSV],
    [validateHeaders], [getColumnByIndex] and the rows of [readIBWCSV]),
    the action of the [prospect-matcher] command with its
    [resolveColumn], [parseIBWText] of [src/lib/ibwConverter.js] with
    the regular expression it matches lines against, and the conversion
    script [convertToCSV] that the converter replaced.

    The functions are embedded twice.  First on values: records,
    mappings and results are data, and the objects that the program
    updates in place (the two [Map]s, [stats], [matchingPlayers]) are
    states passed along the loops.  Then, in module [Heap], over a store
    of objects, where the same functions read, allocate and write; that
    embedding carries the statement that the inputs are not mutated, and
    module [HeapRefinement] proves that it computes the functions on
    values.

    Conventions of the embedding.

    - A JavaScript string is a sequence of UTF-16 code units.  The model
      takes the strings whose code units are all below 256 (the Latin-1
      range, which contains ASCII): one [ascii] per code unit.  On that
      range [String.prototype.trim] and [String.prototype.toLowerCase]
      are the functions [trim] and [toLowerCase] below.
    - Numbers are integers: counters, positions, and the integer-valued
      cells of a record.  An integer stands for the number of that
      value, which is exact for the safe integers (below [2^53] in
      absolute value, [Js.safeInteger]): there [parseInt] returns the
      integer a numeral denotes and [String] writes the decimal
      numeral.  A statement about the numeral of a number that need not
      be small takes the number in that range.
    - A record is an array or a plain object whose cells are scalars; a
      property is an own property.  A plain object also answers the
      names of [Object.prototype] ([Js.objectPrototype]); a statement
      about a name that need not be an own key takes the name outside
      that list.
    - A function argument that the caller may leave out is an [option]:
      [None] is the omitted argument ([undefined]).
    - A [throw new Error(msg)] is the result [Throw msg].
    - The file system and the console are outside the model: a function
      that reads a file takes what the reader returned as an argument,
      and what a function prints is left out.
    - The number [parseFloat] returns is kept abstract: the converter
      is embedded for any type of numbers and any [parseFloat]. *)

From Stdlib Require Import Ascii String ZArith List Bool Lia.
From Stdlib Require Import DecimalString.
From Stdlib Require DecimalPos.
From stdpp Require Import base option list gmap strings.

Local Open Scope string_scope.
Local Open Scope list_scope.

(** ** JavaScript strings *)

Module JsString.

Definition code (c : ascii) : N := N_of_ascii c.

(** [WhiteSpace] and [LineTerminator] code points below 256: TAB, LF,
    VT, FF, CR, SP and NBSP. *)
Definition isWhiteSpace (c : ascii) : bool :=
  let n := code c in
  ((9 <=? n) && (n <=? 13) || (n =? 32) || (n =? 160))%N.

(** Simple lower-case mapping of a Latin-1 code unit: [A-Z] and
    U+00C0..U+00DE without the multiplication sign U+00D7. *)
Definition lowerChar (c : ascii) : ascii :=
  let n := code c in
  if ((65 <=? n) && (n <=? 90)
      || (192 <=? n) && (n <=? 222) && negb (n =? 215))%N
  then ascii_of_N (n + 32) else c.

Fixpoint toLowerCase (s : string) : string :=
  match s with
  | EmptyString => EmptyString
  | String c r => String (lowerChar c) (toLowerCase r)
  end.

Fixpoint trimStart (s : string) : string :=
  match s with
  | EmptyString => EmptyString
  | String c r => if isWhiteSpace c then trimStart r else s
  end.

Fixpoint trimEnd (s : string) : string :=
  match s with
  | EmptyString => EmptyString
  | String c r =>
      match trimEnd r with
      | EmptyString => if isWhiteSpace c then EmptyString else String c EmptyString
      | r' => String c r'
      end
  end.

Definition trim (s : string) : string := trimEnd (trimStart s).

(** A string [trim] leaves alone: no white space at either end. *)
Definition trimmed (s : string) : Prop := trimStart s = s /\ trimEnd s = s.

(** Truthiness of a string value: every string but the empty one. *)
Definition truthy (s : string) : bool :=
  match s with EmptyString => false | _ => true end.

(** [Array.prototype.join] on strings. *)
Fixpoint join (sep : string) (l : list string) : string :=
  match l with
  | [] => ""
  | [x] => x
  | x :: r => x +:+ sep +:+ join sep r
  end.

(** Decimal rendering of an integer-valued number: what [String(n)] and
    a template literal write for a safe integer [n]. *)
Definition ofZ (z : Z) : string := NilZero.string_of_int (Z.to_int z).

End JsString.

Import JsString.

(** ** Key Normalizer: [createMatchKey] *)

(** [function createMatchKey(playerName, teamName = "")]: the default
    value replaces an omitted argument only; the separator is decided on
    the team argument as received, before it is trimmed. *)
Definition createMatchKey (playerName : string) (teamName : option string) : string :=
  let teamName := default "" teamName in
  let normalizedName := toLowerCase (trim playerName) in
  let normalizedTeam := toLowerCase (trim teamName) in
  if truthy teamName
  then normalizedName +:+ "_" +:+ normalizedTeam
  else normalizedName.


(** ** Data model *)

(** A scalar held by a record.  Numbers are the integer-valued ones, so
    that [String(v)] is the decimal numeral. *)
Inductive JsValue :=
| VUndefined
| VNull
| VString (s : string)
| VNumber (z : Z).

(** A record is either positional (a JavaScript array, the row of a
    headerless CSV) or keyed (a plain object; the properties are listed
    in [Object.keys] order and looked up as own properties). *)
Inductive Record :=
| RArray (cells : list JsValue)
| RObject (props : list (string * JsValue)).

(** The value a column mapping gives to a role: a single identifier, an
    ordered list of candidate identifiers, [null], or [undefined]. *)
Inductive FieldSpec :=
| FUndefined
| FNull
| FName (name : string)
| FNames (names : list string).

(** One dataset's role mapping, a plain object from role name to
    [FieldSpec] in [Object.keys] order. *)
Abbreviation RoleMap := (list (string * FieldSpec)).

(** The [columnMapping] argument: an object whose [fantrax] and [ibw]
    properties may each be missing. *)
Record ColumnMapping := {
  cm_fantrax : option RoleMap;
  cm_ibw : option RoleMap;
}.

(** A dataset argument as [findMatches] receives it: an array of records
    or something that is not an array ([null], [undefined], ...). *)
Inductive Dataset :=
| NotAnArray
| Rows (records : list Record).

Inductive Result (A : Type) :=
| Ok (a : A)
| Throw (message : string).
Arguments Ok {A} a.
Arguments Throw {A} message.

#[global] Instance JsValue_eq_dec : EqDecision JsValue.
Proof. solve_decision. Defined.
#[global] Instance Record_eq_dec : EqDecision Record.
Proof. solve_decision. Defined.
#[global] Instance FieldSpec_eq_dec : EqDecision FieldSpec.
Proof. solve_decision. Defined.

(** ** Primitive operations on values, records and objects *)

Module Js.

(** [String(v)] on a value that is neither [undefined] nor [null]. *)
Definition toString (v : JsValue) : string :=
  match v with
  | VUndefined => "undefined"
  | VNull => "null"
  | VString s => s
  | VNumber z => ofZ z
  end.

(** [v !== undefined && v !== null] *)
Definition present (v : JsValue) : bool :=
  match v with
  | VUndefined | VNull => false
  | _ => true
  end.

(** [String(spec)], the coercion [parseInt] and a property access
    apply to a field identifier. *)
Definition specToString (f : FieldSpec) : string :=
  match f with
  | FUndefined => "undefined"
  | FNull => "null"
  | FName s => s
  | FNames l => join "," l
  end.

(** The rendering of an element by [Array.prototype.join]: [null] and
    [undefined] give the empty string. *)
Definition joinItem (f : FieldSpec) : string :=
  match f with
  | FUndefined | FNull => ""
  | FName s => s
  | FNames l => join "," l
  end.

Definition isDigit (c : ascii) : bool :=
  ((48 <=? code c) && (code c <=? 57))%N.

Definition digitValue (c : ascii) : Z := Z.of_N (code c) - 48.

(** The value of the longest prefix of decimal digits; [None] when
    there is no digit. *)
Fixpoint digits (s : string) (acc : option Z) : option Z :=
  match s with
  | String c r =>
      if isDigit c
      then digits r (Some (10 * default 0%Z acc + digitValue c)%Z)
      else acc
  | EmptyString => acc
  end.

(** [parseInt(s, 10)]; [None] is [NaN].  The value is the integer the
    digits denote, which is the number [parseInt] returns when it is a
    safe integer. *)
Definition parseInt (s : string) : option Z :=
  match trimStart s with
  | String "-" r => Z.opp <$> digits r None
  | String "+" r => digits r None
  | s' => digits s' None
  end.

(** The result of [Math.max]. *)
Inductive Num :=
| NaN
| NegInfinity
| Int (z : Z).

(** [Math.max(...l)]: [-Infinity] on no argument, [NaN] as soon as one
    argument is [NaN]. *)
Fixpoint mathMax (l : list (option Z)) : Num :=
  match l with
  | [] => NegInfinity
  | None :: _ => NaN
  | Some z :: r =>
      match mathMax r with
      | NaN => NaN
      | NegInfinity => Int z
      | Int m => Int (Z.max z m)
      end
  end.

(** [arr[index]] for the number [index] that [parseInt] returned. *)
Definition arrayGet (cells : list JsValue) (index : option Z) : JsValue :=
  match index with
  | Some z => if (z <? 0)%Z then VUndefined else default VUndefined (cells !! Z.to_nat z)
  | None => VUndefined
  end.

(** [obj[name]] on a keyed record, among its own properties. *)
Fixpoint objectGet (props : list (string * JsValue)) (name : string) : JsValue :=
  match props with
  | [] => VUndefined
  | (k, v) :: r => if decide (k = name) then v else objectGet r name
  end.

(** [Object.keys(obj)] *)
Definition keys {V} (props : list (string * V)) : list string := props.*1.

(** [Object.values(obj)] *)
Definition values {V} (props : list (string * V)) : list V := props.*2.

(** [obj.role] on a role mapping. *)
Fixpoint role (m : RoleMap) (name : string) : FieldSpec :=
  match m with
  | [] => FUndefined
  | (k, f) :: r => if decide (k = name) then f else role r name
  end.

(** Defining one property: an existing key keeps its place and takes
    the new value, a new key goes last.  (That is the order of
    [Object.keys] for keys that are not array indices.) *)
Fixpoint define {V} (props : list (string * V)) (k : string) (v : V) : list (string * V) :=
  match props with
  | [] => [(k, v)]
  | (k', v') :: r =>
      if decide (k' = k) then (k, v) :: r else (k', v') :: define r k v
  end.

(** [{ ...base, ...over }]; spreading [undefined] adds nothing. *)
Definition spread {V} (base : list (string * V)) (over : option (list (string * V)))
  : list (string * V) :=
  fold_left (fun acc kv => define acc kv.1 kv.2) (default [] over) base.

(** The property names of [Object.prototype], which a plain object
    answers through its prototype when it has no own property of the
    name. *)
Definition objectPrototype : list string :=
  ["constructor"; "hasOwnProperty"; "isPrototypeOf"; "propertyIsEnumerable";
   "toLocaleString"; "toString"; "valueOf"; "__proto__"; "__defineGetter__";
   "__defineSetter__"; "__lookupGetter__"; "__lookupSetter__"].

(** A name that a plain object answers with an own property or not at
    all. *)
Definition ownName (name : string) : Prop := name ∉ objectPrototype.

(** The integers that a number holds exactly and that [String] writes
    as their decimal numeral. *)
Definition safeInteger (z : Z) : Prop := (- 2 ^ 53 < z < 2 ^ 53)%Z.

(** A key that begins with a decimal digit.  The array indices, which
    an object lists before its other keys, are among them. *)
Definition indexLike (k : string) : bool :=
  match k with
  | String c _ => isDigit c
  | EmptyString => false
  end.

End Js.

(** ** Field Accessor: [getFieldValue] *)

(** The single-identifier rule, for the identifier coerced to a string
    ([parseInt(fieldName, 10)] on a positional record, the property key
    on a keyed one). *)
Definition lookupField (obj : Record) (name : string) : JsValue :=
  match obj with
  | RArray cells => Js.arrayGet cells (Js.parseInt name)
  | RObject props => Js.objectGet props name
  end.

(** The [for (const name of fieldName)] loop. *)
Fixpoint firstPresent (obj : Record) (names : list string) : string :=
  match names with
  | [] => ""
  | name :: rest =>
      let v := lookupField obj name in
      if Js.present v then trim (Js.toString v) else firstPresent obj rest
  end.

Definition getFieldValue (obj : Record) (fieldName : FieldSpec) : string :=
  match fieldName with
  | FNames names => firstPresent obj names
  | _ =>
      let v := lookupField obj (Js.specToString fieldName) in
      if Js.present v then trim (Js.toString v) else ""
  end.

(** ** Schema check: [validateColumns] *)

Definition validateColumns (sampleRecord : Record) (requiredColumns : list FieldSpec)
    (dataType : string) : Result unit :=
  match sampleRecord with
  | RArray cells =>
      let maxIndex := Js.mathMax (map (fun col => Js.parseInt (Js.specToString col)) requiredColumns) in
      match maxIndex with
      | Js.Int z =>
          if (Z.of_nat (length cells) <=? z)%Z
          then Throw ("Missing required columns in " +:+ dataType +:+ " data: column index "
                      +:+ ofZ z +:+ " not found. Available columns: 0-"
                      +:+ ofZ (Z.of_nat (length cells) - 1))
          else Ok ()
      | _ => Ok ()
      end
  | RObject props =>
      let availableColumns := Js.keys props in
      let missingColumns :=
        filter (fun col => ¬ Exists (fun available => FName available = col) availableColumns)
               requiredColumns in
      if decide (0 < length missingColumns)
      then Throw ("Missing required columns in " +:+ dataType +:+ " data: "
                  +:+ join ", " (map Js.joinItem missingColumns)
                  +:+ ". Available columns: " +:+ join ", " availableColumns)
      else Ok ()
  end.

(** ** Record Indexer: [createPlayerMaps] *)

(** The two [Map] objects of the index.  Only [has], [get] and [set] are
    used on them, so a finite map on the key strings carries them. *)
Record PlayerMaps := {
  exact : gmap string Record;
  nameOnly : gmap string Record;
}.

(** [s || ""] on a string. *)
Definition orEmpty (s : string) : string := if truthy s then s else "".

(** The body of the [forEach] of [createPlayerMaps]. *)
Definition indexRecord (mapping : RoleMap) (maps : PlayerMaps) (record : Record) : PlayerMaps :=
  let playerName := getFieldValue record (Js.role mapping "player") in
  let teamName := orEmpty (getFieldValue record (Js.role mapping "team")) in
  if negb (truthy playerName) then maps
  else
    let fullKey := createMatchKey playerName (Some teamName) in
    let exactMap := <[fullKey := record]> (exact maps) in
    let nameOnlyKey := createMatchKey playerName None in
    let nameOnlyMap :=
      if negb (bool_decide (is_Some (nameOnly maps !! nameOnlyKey)))
      then <[nameOnlyKey := record]> (nameOnly maps)
      else nameOnly maps in
    {| exact := exactMap; nameOnly := nameOnlyMap |}.

Definition createPlayerMaps (fantraxPlayers : list Record) (mapping : RoleMap) : PlayerMaps :=
  fold_left (indexRecord mapping) fantraxPlayers {| exact := ∅; nameOnly := ∅ |}.

(** ** Match Engine: [findMatches] *)

Inductive MatchType :=
| MExact
| MNameOnly.

Definition matchTypeString (t : MatchType) : string :=
  match t with
  | MExact => "exact"
  | MNameOnly => "name-only"
  end.

Record Match := {
  ibwPlayer : Record;
  fantraxData : Record;
  matchType : MatchType;
  ibwIndex : nat;
}.

Record Stats := {
  exactMatches : nat;
  nameOnlyMatches : nat;
  totalMatches : nat;
  totalIBWPlayers : nat;
}.

Record Mapping := {
  fantrax : RoleMap;
  ibw : RoleMap;
}.

Record MatchResult := {
  matches : list Match;
  stats : Stats;
  columnMapping : Mapping;
}.

Definition defaultMapping : Mapping := {|
  fantrax := [("player", FName "Player"); ("team", FName "Team");
              ("number", FName "Number"); ("position", FName "Position");
              ("age", FName "Age")];
  ibw := [("player", FName "Player"); ("team", FName "Team");
          ("rank", FName "Number"); ("number", FName "Number")];
|}.

(** [const mapping = { fantrax: {...}, ibw: {...} }] *)
Definition mergeMapping (columnMapping : ColumnMapping) : Mapping := {|
  fantrax := Js.spread (fantrax defaultMapping) (cm_fantrax columnMapping);
  ibw := Js.spread (ibw defaultMapping) (cm_ibw columnMapping);
|}.

(** [Object.values(m).filter(col => col !== null)] *)
Definition requiredColumns (m : RoleMap) : list FieldSpec :=
  filter (fun col => col ≠ FNull) (Js.values m).

(** [arr.forEach((x, index) => ...)] on the state the callback updates. *)
Fixpoint forEachFrom {A St} (f : St -> A -> nat -> St) (l : list A) (index : nat) (s : St) : St :=
  match l with
  | [] => s
  | x :: r => forEachFrom f r (S index) (f s x index)
  end.

Definition forEach {A St} (f : St -> A -> nat -> St) (l : list A) (s : St) : St :=
  forEachFrom f l 0 s.

(** The objects the matching loop updates: [stats] and [matchingPlayers]. *)
Record LoopState := {
  ls_stats : Stats;
  ls_matchingPlayers : list Match;
}.

Definition incrExact (s : Stats) : Stats :=
  {| exactMatches := S (exactMatches s); nameOnlyMatches := nameOnlyMatches s;
     totalMatches := totalMatches s; totalIBWPlayers := totalIBWPlayers s |}.

Definition incrNameOnly (s : Stats) : Stats :=
  {| exactMatches := exactMatches s; nameOnlyMatches := S (nameOnlyMatches s);
     totalMatches := totalMatches s; totalIBWPlayers := totalIBWPlayers s |}.

Definition incrTotal (s : Stats) : Stats :=
  {| exactMatches := exactMatches s; nameOnlyMatches := nameOnlyMatches s;
     totalMatches := S (totalMatches s); totalIBWPlayers := totalIBWPlayers s |}.

(** The body of the [forEach] of [findMatches]. *)
Definition matchRecord (fantraxPlayersMap : PlayerMaps) (mapping : Mapping)
    (st : LoopState) (ibwPlayer : Record) (index : nat) : LoopState :=
  let playerName := getFieldValue ibwPlayer (Js.role (ibw mapping) "player") in
  if negb (truthy playerName) then st
  else
    let teamName := orEmpty (getFieldValue ibwPlayer (Js.role (ibw mapping) "team")) in
    let fullKey := createMatchKey playerName (Some teamName) in
    let nameOnlyKey := createMatchKey playerName None in
    let '(fantraxData, matchType, stats) :=
      match exact fantraxPlayersMap !! fullKey with
      | Some r => (Some r, Some MExact, incrExact (ls_stats st))
      | None =>
          match nameOnly fantraxPlayersMap !! nameOnlyKey with
          | Some r => (Some r, Some MNameOnly, incrNameOnly (ls_stats st))
          | None => (None, None, ls_stats st)
          end
      end in
    match fantraxData, matchType with
    | Some r, Some t =>
        {| ls_stats := incrTotal stats;
           ls_matchingPlayers :=
             ls_matchingPlayers st ++
               [{| ibwPlayer := ibwPlayer; fantraxData := r; matchType := t; ibwIndex := index |}] |}
    | _, _ => {| ls_stats := stats; ls_matchingPlayers := ls_matchingPlayers st |}
    end.

(** [Array.isArray(d) && d.length !== 0] *)
Definition nonEmptyArray (d : Dataset) : option (Record * list Record) :=
  match d with
  | Rows (first :: rest) => Some (first, rest)
  | _ => None
  end.

Definition findMatches (fantraxPlayers ibwPlayers : Dataset) (columnMapping : ColumnMapping)
    : Result MatchResult :=
  let mapping := mergeMapping columnMapping in
  match nonEmptyArray fantraxPlayers with
  | None => Throw "Fantrax players must be a non-empty array"
  | Some (fantrax0, fantraxRest) =>
  match nonEmptyArray ibwPlayers with
  | None => Throw "IBW players must be a non-empty array"
  | Some (ibw0, ibwRest) =>
  match validateColumns fantrax0 (requiredColumns (fantrax mapping)) "Fantrax" with
  | Throw e => Throw e
  | Ok _ =>
  match validateColumns ibw0 (requiredColumns (ibw mapping)) "IBW" with
  | Throw e => Throw e
  | Ok _ =>
      let fantraxPlayersMap := createPlayerMaps (fantrax0 :: fantraxRest) (fantrax mapping) in
      let stats := {| exactMatches := 0; nameOnlyMatches := 0; totalMatches := 0;
                      totalIBWPlayers := length (ibw0 :: ibwRest) |} in
      let final :=
        forEach (matchRecord fantraxPlayersMap mapping) (ibw0 :: ibwRest)
                {| ls_stats := stats; ls_matchingPlayers := [] |} in
      Ok {| matches := ls_matchingPlayers final;
            stats := ls_stats final;
            columnMapping := mapping |}
  end end end end.


(** ** Views of the two passes

    The loops above follow the source statement by statement.  The
    definitions of this section describe what a pass does to one record;
    the properties relate them to the loops. *)

Section Views.

(** The player name, the team and the two keys that [createPlayerMaps]
    and [findMatches] compute for a record under a role mapping. *)
Definition recordName (m : RoleMap) (r : Record) : string :=
  getFieldValue r (Js.role m "player").

Definition recordTeam (m : RoleMap) (r : Record) : string :=
  orEmpty (getFieldValue r (Js.role m "team")).

Definition named (m : RoleMap) (r : Record) : bool := truthy (recordName m r).

Definition fullKey (m : RoleMap) (r : Record) : string :=
  createMatchKey (recordName m r) (Some (recordTeam m r)).

Definition nameOnlyKey (m : RoleMap) (r : Record) : string :=
  createMatchKey (recordName m r) None.

(** The two lookups of the matching loop on one dataset-B record. *)
Definition lookupMatch (maps : PlayerMaps) (m : RoleMap) (r : Record)
  : option (Record * MatchType) :=
  if named m r then
    match exact maps !! fullKey m r with
    | Some a => Some (a, MExact)
    | None =>
        match nameOnly maps !! nameOnlyKey m r with
        | Some a => Some (a, MNameOnly)
        | None => None
        end
    end
  else None.

Definition matchOf (maps : PlayerMaps) (m : RoleMap) (ir : nat * Record) : option Match :=
  match lookupMatch maps m ir.2 with
  | Some (a, t) =>
      Some {| ibwPlayer := ir.2; fantraxData := a; matchType := t; ibwIndex := ir.1 |}
  | None => None
  end.

(** The records of an array with their positions, from [index] on. *)
Fixpoint enumerateFrom {A} (index : nat) (l : list A) : list (nat * A) :=
  match l with
  | [] => []
  | x :: r => (index, x) :: enumerateFrom (S index) r
  end.

Definition enumerate {A} (l : list A) : list (nat * A) := enumerateFrom 0 l.

Definition isExact (x : Match) : bool :=
  match matchType x with MExact => true | MNameOnly => false end.

Definition isNameOnly (x : Match) : bool :=
  match matchType x with MExact => false | MNameOnly => true end.

Definition countExact (l : list Match) : nat := length (List.filter isExact l).

Definition countNameOnly (l : list Match) : nat := length (List.filter isNameOnly l).

End Views.

(** The records an index key can be bound to: those with a name whose
    name-only key, or full key, is [k]. *)
Definition bindsNameOnly (m : RoleMap) (k : string) (r : Record) : bool :=
  named m r && bool_decide (nameOnlyKey m r = k).

Definition bindsExact (m : RoleMap) (k : string) (r : Record) : bool :=
  named m r && bool_decide (fullKey m r = k).

(** First and last element of a list that satisfies a test. *)
Definition findFirst {A} (f : A -> bool) (l : list A) : option A := List.find f l.

Definition findLast {A} (f : A -> bool) (l : list A) : option A := List.find f (rev l).

(** The matches of a whole pass over dataset B, and the statistics that
    counting them gives. *)
Definition matchesOf (maps : PlayerMaps) (m : RoleMap) (l : list (nat * Record)) : list Match :=
  omap (matchOf maps m) l.

Definition tally (s : Stats) (l : list Match) : Stats :=
  {| exactMatches := exactMatches s + countExact l;
     nameOnlyMatches := nameOnlyMatches s + countNameOnly l;
     totalMatches := totalMatches s + length l;
     totalIBWPlayers := totalIBWPlayers s |}.

(** What [findMatches] returns once both datasets passed validation. *)
Definition matchResultOf (fantraxPlayers ibwPlayers : list Record) (mapping : Mapping)
  : MatchResult :=
  let found :=
    matchesOf (createPlayerMaps fantraxPlayers (fantrax mapping)) (ibw mapping)
              (enumerate ibwPlayers) in
  {| matches := found;
     stats := {| exactMatches := countExact found;
                 nameOnlyMatches := countNameOnly found;
                 totalMatches := length found;
                 totalIBWPlayers := length ibwPlayers |};
     columnMapping := mapping |}.

(** The two validation steps of [findMatches], as the error they raise. *)
Definition validationError (fantraxPlayers ibwPlayers : Dataset) (mapping : Mapping)
  : option string :=
  match nonEmptyArray fantraxPlayers with
  | None => Some "Fantrax players must be a non-empty array"
  | Some (fantrax0, _) =>
      match nonEmptyArray ibwPlayers with
      | None => Some "IBW players must be a non-empty array"
      | Some (ibw0, _) =>
          match validateColumns fantrax0 (requiredColumns (fantrax mapping)) "Fantrax" with
          | Throw e => Some e
          | Ok _ =>
              match validateColumns ibw0 (requiredColumns (ibw mapping)) "IBW" with
              | Throw e => Some e
              | Ok _ => None
              end
          end
      end
  end.

Definition rowsOf (d : Dataset) : list Record :=
  match d with
  | Rows l => l
  | NotAnArray => []
  end.

(** ** Resolution of identifiers on a record

    An identifier resolves on a record when it names one of its columns:
    an own key of a keyed record, a position below the length of a
    positional one.  A candidate list resolves when one candidate does;
    [null] and [undefined] name no column. *)
Definition nameResolves (r : Record) (name : string) : bool :=
  match r with
  | RObject props => bool_decide (name ∈ Js.keys props)
  | RArray cells =>
      match Js.parseInt name with
      | Some z => (0 <=? z)%Z && (z <? Z.of_nat (length cells))%Z
      | None => false
      end
  end.

Definition resolves (r : Record) (f : FieldSpec) : bool :=
  match f with
  | FName name => nameResolves r name
  | FNames names => existsb (nameResolves r) names
  | _ => false
  end.

Definition unresolved (r : Record) (cols : list FieldSpec) : list FieldSpec :=
  filter (fun f => resolves r f = false) cols.

(** The identifiers that a record answers with an own property or not
    at all: on a keyed record, the names outside [Object.prototype]; on
    a positional record, where a name is used through [parseInt], every
    identifier. *)
Definition ownNames (r : Record) (f : FieldSpec) : Prop :=
  match r, f with
  | RObject _, FName name => Js.ownName name
  | RObject _, FNames names => Forall Js.ownName names
  | _, _ => True
  end.

(** Role values that are single identifiers, and on a positional record
    single non-negative decimal indices. *)
Definition plainIdentifier (r : Record) (f : FieldSpec) : Prop :=
  match f, r with
  | FName _, RObject _ => True
  | FName name, RArray _ => exists z, Js.parseInt name = Some z /\ (0 <= z)%Z
  | _, _ => False
  end.

Definition plainIdentifiers (r : Record) (cols : list FieldSpec) : Prop :=
  Forall (plainIdentifier r) cols.

(** The largest index that a list of index identifiers names. *)
Definition largestIndex (cols : list FieldSpec) : Z :=
  foldr (fun f acc => Z.max (default 0%Z (Js.parseInt (Js.specToString f))) acc) 0%Z cols.

(** The text of a schema error on the sample record [r]: the unresolved
    identifiers and the keys of a keyed record, the largest configured
    index and the range of positions of a positional one. *)
Definition schemaMessage (dataType : string) (r : Record) (cols : list FieldSpec) : string :=
  match r with
  | RObject props =>
      "Missing required columns in " +:+ dataType +:+ " data: "
        +:+ join ", " (map Js.joinItem (unresolved r cols))
        +:+ ". Available columns: " +:+ join ", " (Js.keys props)
  | RArray cells =>
      "Missing required columns in " +:+ dataType +:+ " data: column index "
        +:+ ofZ (largestIndex cols) +:+ " not found. Available columns: 0-"
        +:+ ofZ (Z.of_nat (length cells) - 1)
  end.

(** The calls whose schema error is written as [schemaMessage] has it.
    On a keyed first record the message lists the identifiers in the
    order of the roles, which is the order of [Js.spread] when no role
    name of the caller's mapping begins with a digit; on a positional
    one it prints the largest index, as its decimal numeral when it is a
    safe integer. *)
Definition messageRange (over : option RoleMap) (r : Record) (cols : list FieldSpec) : Prop :=
  match r with
  | RObject _ => Forall (fun k => Js.indexLike k = false) (Js.keys (default [] over))
  | RArray _ => Js.safeInteger (largestIndex cols)
  end.


(** ** Key collisions

    The full key joins the normalized name and the normalized team with
    ["_"].  A dataset-B record and a dataset-A record collide when their
    full keys are equal although the name keys or the normalized teams
    they were built from differ (a name or a team that contains the
    separator can do that). *)
Definition normalizedTeam (m : RoleMap) (r : Record) : string :=
  toLowerCase (trim (recordTeam m r)).

Definition collide (mA : RoleMap) (a : Record) (mB : RoleMap) (b : Record) : bool :=
  named mA a && named mB b
  && bool_decide (fullKey mB b = fullKey mA a)
  && negb (bool_decide (nameOnlyKey mB b = nameOnlyKey mA a)
           && bool_decide (normalizedTeam mB b = normalizedTeam mA a)).

Definition collisionFree (mA : RoleMap) (A : list Record) (mB : RoleMap) (B : list Record)
  : bool :=
  forallb (fun b => forallb (fun a => negb (collide mA a mB b)) A) B.

(** No record of dataset A that has a name has the normalized team of
    [team]. *)
Definition teamAbsent (mA : RoleMap) (A : list Record) (team : string) : bool :=
  forallb (fun a => negb (named mA a
                          && bool_decide (normalizedTeam mA a = toLowerCase (trim team)))) A.

(** [b'] is [b] with another team: same resolved player name, resolved
    team [team]. *)
Definition teamReplaced (mB : RoleMap) (team : string) (b b' : Record) : Prop :=
  recordName mB b' = recordName mB b /\ recordTeam mB b' = team.

(** * The same functions over a store of objects

    The definitions above pass records and mappings by value.  In the
    program they are objects, passed by reference, and four objects are
    updated in place: the two [Map]s of the index ([set]), the [stats]
    object ([++]) and the [matchingPlayers] array ([push]).  This module
    embeds the five functions once more with the objects in a store, so
    that the writes, the allocations and the sharing of the program are
    explicit.  The store is a list of objects and a location is a
    position in it; [alloc] appends.

    Arrays that a function builds, reads and drops ([Object.values],
    [Object.keys], [filter], [map]) are kept as lists, outside the store.
    [Stuck] is the outcome of a run that leaves the data model: a
    property read on [null], a record that is not an object, a location
    that the store does not hold. *)

(** The functions on values, under names that stay available where the
    module of the store is imported. *)
Module Values.

Abbreviation lookupField := lookupField.
Abbreviation firstPresent := firstPresent.
Abbreviation getFieldValue := getFieldValue.
Abbreviation validateColumns := validateColumns.
Abbreviation requiredColumns := requiredColumns.
Abbreviation indexRecord := indexRecord.
Abbreviation createPlayerMaps := createPlayerMaps.
Abbreviation matchRecord := matchRecord.
Abbreviation forEachFrom := forEachFrom.
Abbreviation forEach := forEach.
Abbreviation nonEmptyArray := nonEmptyArray.
Abbreviation findMatches := findMatches.

End Values.

Module Heap.

Abbreviation loc := nat.

Inductive val :=
| Undefined
| Null
| Str (s : string)
| Num (z : Z)
| Ref (l : loc).

Inductive object :=
| Arr (elems : list val)
| Obj (props : list (string * val))
| MapObj (entries : gmap string val).

Abbreviation heap := (list object).

#[global] Instance val_eq_dec : EqDecision val.
Proof. solve_decision. Defined.

Inductive outcome (A : Type) :=
| Return (a : A)
| Raise (message : string)
| Stuck.
Arguments Return {A} a.
Arguments Raise {A} message.
Arguments Stuck {A}.

(** Computations on the store. *)
Definition M (A : Type) : Type := heap -> outcome A * heap.

Definition ret {A} (a : A) : M A := fun σ => (Return a, σ).

Definition bind {A B} (m : M A) (f : A -> M B) : M B :=
  fun σ =>
    match m σ with
    | (Return a, σ') => f a σ'
    | (Raise e, σ') => (Raise e, σ')
    | (Stuck, σ') => (Stuck, σ')
    end.

Definition throw {A} (message : string) : M A := fun σ => (Raise message, σ).

Definition stuck {A} : M A := fun σ => (Stuck, σ).

Definition alloc (o : object) : M loc := fun σ => (Return (length σ), σ ++ [o]).

Definition load (l : loc) : M object :=
  fun σ =>
    match σ !! l with
    | Some o => (Return o, σ)
    | None => (Stuck, σ)
    end.

Definition store (l : loc) (o : object) : M unit := fun σ => (Return (), <[l := o]> σ).

Notation "'let*' x ':=' m 'in' k" := (bind m (fun x => k))
  (at level 10, x name, m at level 100, k at level 200).
Notation "m ';;' k" := (bind m (fun _ => k))
  (at level 100, k at level 200, right associativity).

Fixpoint mapM {A B} (f : A -> M B) (l : list A) : M (list B) :=
  match l with
  | [] => ret []
  | x :: r =>
      let* y := f x in
      let* ys := mapM f r in
      ret (y :: ys)
  end.

(** [l.forEach((x, index) => ...)], from position [index] on. *)
Fixpoint forEachFrom {A} (f : A -> nat -> M unit) (l : list A) (index : nat) : M unit :=
  match l with
  | [] => ret ()
  | x :: r => f x index;; forEachFrom f r (S index)
  end.

Definition forEach {A} (f : A -> nat -> M unit) (l : list A) : M unit := forEachFrom f l 0.

(** *** Reading values and objects *)

(** [Array.isArray(v)] *)
Definition isArray (v : val) : M bool :=
  match v with
  | Ref l =>
      let* o := load l in
      ret (match o with Arr _ => true | _ => false end)
  | _ => ret false
  end.

(** The elements of an array. *)
Definition elements (v : val) : M (list val) :=
  match v with
  | Ref l =>
      let* o := load l in
      match o with
      | Arr elems => ret elems
      | _ => stuck
      end
  | _ => stuck
  end.

(** The own properties of a plain object, in [Object.keys] order. *)
Definition properties (v : val) : M (list (string * val)) :=
  match v with
  | Ref l =>
      let* o := load l in
      match o with
      | Obj props => ret props
      | _ => stuck
      end
  | _ => stuck
  end.

Fixpoint lookupProp (props : list (string * val)) (name : string) : val :=
  match props with
  | [] => Undefined
  | (k, v) :: r => if decide (k = name) then v else lookupProp r name
  end.

(** [v[name]] and [v.name] on a plain object. *)
Definition getProp (v : val) (name : string) : M val :=
  let* props := properties v in
  ret (lookupProp props name).

(** The properties that [...v] copies; [undefined] and [null] have none. *)
Definition spreadSource (v : val) : M (list (string * val)) :=
  match v with
  | Undefined | Null => ret []
  | _ => properties v
  end.

(** [v !== undefined && v !== null] *)
Definition present (v : val) : bool :=
  match v with
  | Undefined | Null => false
  | _ => true
  end.

(** Truthiness. *)
Definition truthyVal (v : val) : bool :=
  match v with
  | Undefined | Null => false
  | Str s => truthy s
  | Num z => negb (z =? 0)%Z
  | Ref _ => true
  end.

(** [String(v)] on a scalar. *)
Definition scalarString (v : val) : M string :=
  match v with
  | Undefined => ret "undefined"
  | Null => ret "null"
  | Str s => ret s
  | Num z => ret (ofZ z)
  | Ref _ => stuck
  end.

(** The rendering of an array element by [join]. *)
Definition joinItem (v : val) : M string :=
  match v with
  | Undefined | Null => ret ""
  | _ => scalarString v
  end.

(** [String(v)] on a scalar or on an array of scalars, as [parseInt] and
    a property access coerce an identifier. *)
Definition identifierString (v : val) : M string :=
  match v with
  | Ref _ =>
      let* elems := elements v in
      let* items := mapM joinItem elems in
      ret (join "," items)
  | _ => scalarString v
  end.

(** The rendering of an identifier by [join]. *)
Definition joinIdentifier (v : val) : M string :=
  match v with
  | Undefined | Null => ret ""
  | _ => identifierString v
  end.

Definition arrayGet (cells : list val) (index : option Z) : val :=
  match index with
  | Some z => if (z <? 0)%Z then Undefined else default Undefined (cells !! Z.to_nat z)
  | None => Undefined
  end.

(** *** Writing to objects *)

(** [m.has(k)], [m.get(k)] and [m.set(k, v)] on a [Map]. *)
Definition mapHas (m : val) (k : string) : M bool :=
  match m with
  | Ref l =>
      let* o := load l in
      match o with
      | MapObj entries => ret (bool_decide (is_Some (entries !! k)))
      | _ => stuck
      end
  | _ => stuck
  end.

Definition mapGet (m : val) (k : string) : M val :=
  match m with
  | Ref l =>
      let* o := load l in
      match o with
      | MapObj entries => ret (default Undefined (entries !! k))
      | _ => stuck
      end
  | _ => stuck
  end.

Definition mapSet (m : val) (k : string) (v : val) : M unit :=
  match m with
  | Ref l =>
      let* o := load l in
      match o with
      | MapObj entries => store l (MapObj (<[k := v]> entries))
      | _ => stuck
      end
  | _ => stuck
  end.

(** [o.name++] on a counter property. *)
Definition increment (o : val) (name : string) : M unit :=
  match o with
  | Ref l =>
      let* props := properties o in
      match lookupProp props name with
      | Num z => store l (Obj (Js.define props name (Num (z + 1))))
      | _ => stuck
      end
  | _ => stuck
  end.

(** [a.push(v)] *)
Definition push (a : val) (v : val) : M unit :=
  match a with
  | Ref l =>
      let* elems := elements a in
      store l (Arr (elems ++ [v]))
  | _ => stuck
  end.

(** *** The functions of the module *)

Definition lookupField (obj name : val) : M val :=
  let* positional := isArray obj in
  if positional then
    let* key := identifierString name in
    let* cells := elements obj in
    ret (arrayGet cells (Js.parseInt key))
  else
    let* key := identifierString name in
    getProp obj key.

Definition fieldString (v : val) : M (option string) :=
  if present v then
    let* s := scalarString v in
    ret (Some (trim s))
  else ret None.

Fixpoint firstPresent (obj : val) (names : list val) : M string :=
  match names with
  | [] => ret ""
  | name :: rest =>
      let* v := lookupField obj name in
      let* found := fieldString v in
      match found with
      | Some s => ret s
      | None => firstPresent obj rest
      end
  end.

Definition getFieldValue (obj fieldName : val) : M string :=
  let* candidates := isArray fieldName in
  if candidates then
    let* names := elements fieldName in
    firstPresent obj names
  else
    let* v := lookupField obj fieldName in
    let* found := fieldString v in
    ret (default "" found).

Definition validateColumns (sampleRecord : val) (requiredColumns : list val)
    (dataType : string) : M unit :=
  let* positional := isArray sampleRecord in
  if positional then
    let* indices :=
      mapM (fun col => let* s := identifierString col in ret (Js.parseInt s))
           requiredColumns in
    let* cells := elements sampleRecord in
    match Js.mathMax indices with
    | Js.Int z =>
        if (Z.of_nat (length cells) <=? z)%Z
        then throw ("Missing required columns in " +:+ dataType +:+ " data: column index "
                    +:+ ofZ z +:+ " not found. Available columns: 0-"
                    +:+ ofZ (Z.of_nat (length cells) - 1))
        else ret ()
    | _ => ret ()
    end
  else
    let* props := properties sampleRecord in
    let availableColumns := Js.keys props in
    let missingColumns :=
      filter (fun col => ¬ Exists (fun available => Str available = col) availableColumns)
             requiredColumns in
    if decide (0 < length missingColumns)
    then
      let* items := mapM joinIdentifier missingColumns in
      throw ("Missing required columns in " +:+ dataType +:+ " data: "
             +:+ join ", " items
             +:+ ". Available columns: " +:+ join ", " availableColumns)
    else ret ().


(** The body of the [forEach] of [createPlayerMaps]. *)
Definition indexRecord (exactMap nameOnlyMap mapping : val) (record : val) (index : nat)
  : M unit :=
  let* player := getProp mapping "player" in
  let* playerName := getFieldValue record player in
  let* team := getProp mapping "team" in
  let* teamValue := getFieldValue record team in
  let teamName := orEmpty teamValue in
  if negb (truthy playerName) then ret ()
  else
    let fullKey := createMatchKey playerName (Some teamName) in
    mapSet exactMap fullKey record;;
    let nameOnlyKey := createMatchKey playerName None in
    let* known := mapHas nameOnlyMap nameOnlyKey in
    if negb known then mapSet nameOnlyMap nameOnlyKey record else ret ().

Definition createPlayerMaps (fantraxPlayers mapping : val) : M val :=
  let* exactMap := alloc (MapObj ∅) in
  let* nameOnlyMap := alloc (MapObj ∅) in
  let* records := elements fantraxPlayers in
  forEach (indexRecord (Ref exactMap) (Ref nameOnlyMap) mapping) records;;
  let* maps := alloc (Obj [("exact", Ref exactMap); ("nameOnly", Ref nameOnlyMap)]) in
  ret (Ref maps).

(** [Array.isArray(d) && d.length !== 0] *)
Definition nonEmptyArray (d : val) : M bool :=
  let* array := isArray d in
  if array then
    let* elems := elements d in
    ret (negb (bool_decide (length elems = 0)))
  else ret false.

(** [Object.values(m).filter(col => col !== null)] *)
Definition requiredColumns (m : val) : M (list val) :=
  let* props := properties m in
  ret (filter (fun col => col ≠ Null) (Js.values props)).

(** The body of the [forEach] of [findMatches]. *)
Definition matchRecord (fantraxPlayersMap mapping stats matchingPlayers : val)
    (ibwPlayer : val) (index : nat) : M unit :=
  let* mappingIbw := getProp mapping "ibw" in
  let* player := getProp mappingIbw "player" in
  let* playerName := getFieldValue ibwPlayer player in
  if negb (truthy playerName) then ret ()
  else
    let* team := getProp mappingIbw "team" in
    let* teamValue := getFieldValue ibwPlayer team in
    let teamName := orEmpty teamValue in
    let fullKey := createMatchKey playerName (Some teamName) in
    let nameOnlyKey := createMatchKey playerName None in
    let* exactMap := getProp fantraxPlayersMap "exact" in
    let* nameOnlyMap := getProp fantraxPlayersMap "nameOnly" in
    let* hasExact := mapHas exactMap fullKey in
    let* found :=
      if hasExact then
        let* fantraxData := mapGet exactMap fullKey in
        increment stats "exactMatches";;
        ret (fantraxData, Str "exact")
      else
        let* hasNameOnly := mapHas nameOnlyMap nameOnlyKey in
        if hasNameOnly then
          let* fantraxData := mapGet nameOnlyMap nameOnlyKey in
          increment stats "nameOnlyMatches";;
          ret (fantraxData, Str "name-only")
        else ret (Null, Null) in
    if truthyVal found.1 then
      let* entry := alloc (Obj [("ibwPlayer", ibwPlayer); ("fantraxData", found.1);
                                ("matchType", found.2);
                                ("ibwIndex", Num (Z.of_nat index))]) in
      push matchingPlayers (Ref entry);;
      increment stats "totalMatches"
    else ret ().

Definition findMatches (fantraxPlayers ibwPlayers : val) (columnMapping : option val)
    : M val :=
  let* columnMapping :=
    match columnMapping with
    | None | Some Undefined => let* l := alloc (Obj []) in ret (Ref l)
    | Some v => ret v
    end in
  let* defaultFantrax :=
    alloc (Obj [("player", Str "Player"); ("team", Str "Team"); ("number", Str "Number");
                ("position", Str "Position"); ("age", Str "Age")]) in
  let* defaultIbw :=
    alloc (Obj [("player", Str "Player"); ("team", Str "Team"); ("rank", Str "Number");
                ("number", Str "Number")]) in
  let* defaultMapping :=
    alloc (Obj [("fantrax", Ref defaultFantrax); ("ibw", Ref defaultIbw)]) in
  let* baseFantrax := properties (Ref defaultFantrax) in
  let* givenFantrax := getProp columnMapping "fantrax" in
  let* overFantrax := spreadSource givenFantrax in
  let* mappingFantrax := alloc (Obj (Js.spread baseFantrax (Some overFantrax))) in
  let* baseIbw := properties (Ref defaultIbw) in
  let* givenIbw := getProp columnMapping "ibw" in
  let* overIbw := spreadSource givenIbw in
  let* mappingIbw := alloc (Obj (Js.spread baseIbw (Some overIbw))) in
  let* mapping := alloc (Obj [("fantrax", Ref mappingFantrax); ("ibw", Ref mappingIbw)]) in
  let* validFantrax := nonEmptyArray fantraxPlayers in
  if negb validFantrax then throw "Fantrax players must be a non-empty array"
  else
  let* validIbw := nonEmptyArray ibwPlayers in
  if negb validIbw then throw "IBW players must be a non-empty array"
  else
  let* fantraxRecords := elements fantraxPlayers in
  let* fantraxColumns := requiredColumns (Ref mappingFantrax) in
  validateColumns (default Undefined (head fantraxRecords)) fantraxColumns "Fantrax";;
  let* ibwRecords := elements ibwPlayers in
  let* ibwColumns := requiredColumns (Ref mappingIbw) in
  validateColumns (default Undefined (head ibwRecords)) ibwColumns "IBW";;
  let* fantraxPlayersMap := createPlayerMaps fantraxPlayers (Ref mappingFantrax) in
  let* stats :=
    alloc (Obj [("exactMatches", Num 0); ("nameOnlyMatches", Num 0); ("totalMatches", Num 0);
                ("totalIBWPlayers", Num (Z.of_nat (length ibwRecords)))]) in
  let* matchingPlayers := alloc (Arr []) in
  forEach (matchRecord fantraxPlayersMap (Ref mapping) (Ref stats) (Ref matchingPlayers))
          ibwRecords;;
  let* result :=
    alloc (Obj [("matches", Ref matchingPlayers); ("stats", Ref stats);
                ("columnMapping", Ref mapping)]) in
  ret (Ref result).

(** *** What a run may change *)

(** Weakest precondition of a computation: [Q] for a returned value and
    the store it leaves, [E] for the store that an error leaves. *)
Definition wp {A} (m : M A) (Q : A -> heap -> Prop) (E : heap -> Prop) (σ : heap) : Prop :=
  match m σ with
  | (Return a, σ') => Q a σ'
  | (_, σ') => E σ'
  end.

(** A computation that never changes the store. *)
Definition readonly {A} (m : M A) : Prop := forall σ, (m σ).2 = σ.

(** A write to the object at [l] leaves the store as it is, or replaces
    that object. *)
Definition writesTo (l : loc) (m : M unit) : Prop :=
  forall σ, (m σ).2 = σ \/ exists o, m σ = (Return (), <[l := o]> σ).

(** [σ'] is [σ0] with objects added, and with the objects below [n]
    left as they are. *)
Definition frame (n : nat) (σ0 σ' : heap) : Prop :=
  n <= length σ0 /\ length σ0 <= length σ' /\ forall l, l < n -> σ' !! l = σ0 !! l.

(** Every object of [σ] is in [σ'], at its location and unchanged. *)
Definition unchanged (σ σ' : heap) : Prop :=
  forall l o, σ !! l = Some o -> σ' !! l = Some o.

(** A reference to an object allocated at [n] or later. *)
Definition freshRef (n : nat) (v : val) : Prop := exists l, v = Ref l /\ n <= l.

(** The value [findMatches] returns in the store [σ']: a new object
    whose [matches], [stats] and [columnMapping] are new objects, the
    matches being new objects and the mapping holding two new objects. *)
Definition freshResult (n : nat) (v : val) (σ' : heap) : Prop :=
  exists result matchingPlayers stats mapping mappingFantrax mappingIbw entries,
    v = Ref result
    /\ σ' !! result = Some (Obj [("matches", Ref matchingPlayers); ("stats", Ref stats);
                                 ("columnMapping", Ref mapping)])
    /\ σ' !! mapping = Some (Obj [("fantrax", Ref mappingFantrax); ("ibw", Ref mappingIbw)])
    /\ σ' !! matchingPlayers = Some (Arr entries)
    /\ Forall (freshRef n) entries
    /\ n <= result /\ n <= matchingPlayers /\ n <= stats /\ n <= mapping
    /\ n <= mappingFantrax /\ n <= mappingIbw.

(** The value [createPlayerMaps] returns in the store [σ']: a new object
    that holds two new [Map]s. *)
Definition freshMaps (n : nat) (v : val) (σ' : heap) : Prop :=
  exists maps exactMap nameOnlyMap,
    v = Ref maps
    /\ σ' !! maps = Some (Obj [("exact", Ref exactMap); ("nameOnly", Ref nameOnlyMap)])
    /\ n <= maps /\ n <= exactMap /\ n <= nameOnlyMap.

(** The invariant of the matching loop.  [σb] is the store in which the
    [stats] object and the [matchingPlayers] array were allocated, in
    this order: its objects are unchanged, and the array holds
    references to objects allocated at [n] or later. *)
Definition matchesInv (n : nat) (σb : heap) (σ' : heap) : Prop :=
  frame (length σb) σb σ'
  /\ exists entries,
      σ' !! S (length σb) = Some (Arr entries) /\ Forall (freshRef n) entries.

(** *** Datasets in the store *)

Definition encodeValue (v : JsValue) : val :=
  match v with
  | VUndefined => Undefined
  | VNull => Null
  | VString s => Str s
  | VNumber z => Num z
  end.

Definition encodeRecord (r : Record) : object :=
  match r with
  | RArray cells => Arr (map encodeValue cells)
  | RObject props => Obj (map (fun kv => (kv.1, encodeValue kv.2)) props)
  end.

(** A value of the store stands for a record, a role value, a role
    mapping, the [columnMapping] argument or a dataset of the functions
    on values. *)
Definition recordAt (σ : heap) (v : val) (r : Record) : Prop :=
  exists l, v = Ref l /\ σ !! l = Some (encodeRecord r).

Definition specAt (σ : heap) (v : val) (f : FieldSpec) : Prop :=
  match f with
  | FUndefined => v = Undefined
  | FNull => v = Null
  | FName name => v = Str name
  | FNames names => exists l, v = Ref l /\ σ !! l = Some (Arr (Str <$> names))
  end.

Definition propsAt (σ : heap) (props : list (string * val)) (m : RoleMap) : Prop :=
  Forall2 (fun p q => p.1 = q.1 /\ specAt σ p.2 q.2) props m.

Definition roleMapAt (σ : heap) (v : val) (m : RoleMap) : Prop :=
  exists l props, v = Ref l /\ σ !! l = Some (Obj props) /\ propsAt σ props m.

Definition optionalRoleMapAt (σ : heap) (v : val) (m : option RoleMap) : Prop :=
  match m with
  | None => v = Undefined
  | Some m => roleMapAt σ v m
  end.

Definition configAt (σ : heap) (v : option val) (config : ColumnMapping) : Prop :=
  match v with
  | None | Some Undefined => cm_fantrax config = None /\ cm_ibw config = None
  | Some v =>
      exists l props,
        v = Ref l /\ σ !! l = Some (Obj props)
        /\ optionalRoleMapAt σ (lookupProp props "fantrax") (cm_fantrax config)
        /\ optionalRoleMapAt σ (lookupProp props "ibw") (cm_ibw config)
  end.

Definition datasetAt (σ : heap) (v : val) (d : Dataset) : Prop :=
  match d with
  | NotAnArray =>
      match v with
      | Ref l => exists o, σ !! l = Some o /\ forall elems, o <> Arr elems
      | _ => True
      end
  | Rows records =>
      exists l refs,
        v = Ref l /\ σ !! l = Some (Arr refs) /\ Forall2 (recordAt σ) refs records
  end.

(** A [Map] of the store stands for an index on values. *)
Definition mapAt (σ : heap) (entries : gmap string val) (index : gmap string Record) : Prop :=
  forall k, option_Forall2 (recordAt σ) (entries !! k) (index !! k).

(** The state of the indexing loop of [createPlayerMaps], entered in the
    store [σ0]: the two maps stand for the index built so far. *)
Definition indexing (σ0 : heap) (exactMap nameOnlyMap : loc) (maps : PlayerMaps)
    (σ : heap) : Prop :=
  frame (length σ0) σ0 σ
  /\ exists entriesExact entriesNameOnly,
      σ !! exactMap = Some (MapObj entriesExact)
      /\ σ !! nameOnlyMap = Some (MapObj entriesNameOnly)
      /\ mapAt σ0 entriesExact (exact maps)
      /\ mapAt σ0 entriesNameOnly (nameOnly maps).

(** The [stats] object that holds the statistics [s]. *)
Definition statsObject (s : Stats) : object :=
  Obj [("exactMatches", Num (Z.of_nat (exactMatches s)));
       ("nameOnlyMatches", Num (Z.of_nat (nameOnlyMatches s)));
       ("totalMatches", Num (Z.of_nat (totalMatches s)));
       ("totalIBWPlayers", Num (Z.of_nat (totalIBWPlayers s)))].

(** The state of the matching loop of [findMatches].  [σb] is the store
    in which the [stats] object and then the [matchingPlayers] array
    were allocated: they stand for the statistics and the matches found
    so far, and the entries of the array were allocated after them. *)
Definition entryAt (σb σ : heap) (v : val) (x : Match) : Prop :=
  exists l ibwRef fantraxRef,
    v = Ref l /\ S (length σb) < l
    /\ σ !! l = Some (Obj [("ibwPlayer", ibwRef); ("fantraxData", fantraxRef);
                            ("matchType", Str (matchTypeString (matchType x)));
                            ("ibwIndex", Num (Z.of_nat (ibwIndex x)))])
    /\ recordAt σb ibwRef (ibwPlayer x)
    /\ recordAt σb fantraxRef (fantraxData x).

Definition matching (σb : heap) (st : LoopState) (σ : heap) : Prop :=
  frame (length σb) σb σ
  /\ σ !! length σb = Some (statsObject (ls_stats st))
  /\ exists entries,
      σ !! S (length σb) = Some (Arr entries)
      /\ Forall2 (entryAt σb σ) entries (ls_matchingPlayers st).

(** The value a call returned stands for a result of the function on
    values. *)
Definition matchAt (σ : heap) (v : val) (x : Match) : Prop :=
  exists l ibwRef fantraxRef,
    v = Ref l
    /\ σ !! l = Some (Obj [("ibwPlayer", ibwRef); ("fantraxData", fantraxRef);
                            ("matchType", Str (matchTypeString (matchType x)));
                            ("ibwIndex", Num (Z.of_nat (ibwIndex x)))])
    /\ recordAt σ ibwRef (ibwPlayer x)
    /\ recordAt σ fantraxRef (fantraxData x).

Definition resultAt (σ : heap) (v : val) (result : MatchResult) : Prop :=
  exists l matchingPlayers statsLoc mapping entries mappingFantrax mappingIbw,
    v = Ref l
    /\ σ !! l = Some (Obj [("matches", Ref matchingPlayers); ("stats", Ref statsLoc);
                            ("columnMapping", Ref mapping)])
    /\ σ !! matchingPlayers = Some (Arr entries)
    /\ Forall2 (matchAt σ) entries (matches result)
    /\ σ !! statsLoc = Some (statsObject (stats result))
    /\ σ !! mapping = Some (Obj [("fantrax", mappingFantrax); ("ibw", mappingIbw)])
    /\ roleMapAt σ mappingFantrax (fantrax (columnMapping result))
    /\ roleMapAt σ mappingIbw (ibw (columnMapping result)).

(** A run over the store computes a result of [findMatches] on values:
    the same error, or a value that stands for the same result. *)
Definition refines (r : Result MatchResult) (run : outcome val * heap) : Prop :=
  match r with
  | Throw e => run.1 = Raise e
  | Ok result => exists v, run.1 = Return v /\ resultAt run.2 v result
  end.

(** The outcome that stands for the result of a check on values. *)
Definition outcomeOf (r : Result unit) : outcome unit :=
  match r with
  | Ok _ => Return ()
  | Throw e => Raise e
  end.

(** Allocates the records of a dataset, then the array that holds them. *)
Definition allocDataset (records : list Record) : M val :=
  let* refs := mapM (fun r => let* l := alloc (encodeRecord r) in ret (Ref l)) records in
  let* array := alloc (Arr refs) in
  ret (Ref array).

End Heap.

(** ** Datasets used as examples *)

(** The dataset of the repository's test "should handle players without
    team names". *)
Definition playersWithoutTeam : list Record :=
  [RObject [("Player", VString "Test Player"); ("Team", VString "")];
   RObject [("Player", VString "Another Player"); ("Team", VNull)]].

(** The empty configuration [{}], the default of the third argument. *)
Definition noMapping : ColumnMapping := {| cm_fantrax := None; cm_ibw := None |}.

(** A keyed record with the five columns of the default mapping. *)
Definition player (number name team position age : string) : Record :=
  RObject [("Number", VString number); ("Player", VString name); ("Team", VString team);
           ("Position", VString position); ("Age", VString age)].

(** The end-to-end scenario of the specification. *)
Definition sampleFantrax : list Record :=
  [player "1" "Ronald Acuna Jr." "ATL" "OF" "26"; player "2" "Mike Trout" "LAA" "OF" "32"].

Definition sampleIBW : list Record :=
  [player "1" "Ronald Acuna Jr." "ATL" "OF" "26.2"; player "2" "Mike Trout" "LAA" "OF" "32.5"].

(** The same dataset B after its team values were changed. *)
Definition sampleIBWDifferent : list Record :=
  [player "1" "Ronald Acuna Jr." "DIFFERENT" "OF" "26.2";
   player "2" "Mike Trout" "DIFFERENT" "OF" "32.5"].

(** A positional row, as the reader of a headerless CSV produces it. *)
Definition sampleRow : Record := RArray [VString "1"; VString "Juan Soto"; VString "NYY"].

(** A keyed record without the [Position] and [Age] columns. *)
Definition shortPlayer : Record :=
  RObject [("Number", VString "1"); ("Player", VString "Juan Soto"); ("Team", VString "NYY")].




(** Names and teams that contain the separator: the full key of
    ["Kim"] with team ["Lee_SD"] is the full key of ["Kim_Lee"] with team
    ["SD"]. *)
Definition separatorFantrax : list Record := [player "7" "Kim_Lee" "SD" "OF" "24"].

Definition separatorIBW : list Record := [player "1" "Kim" "Lee_SD" "OF" "24"].

Definition separatorIBWChanged : list Record := [player "1" "Kim" "ZZZ" "OF" "24"].

(** The statistics of a call that returned. *)
Definition statsOf (r : Result MatchResult) : option Stats :=
  match r with
  | Ok result => Some (stats result)
  | Throw _ => None
  end.

(** A dataset with a repeated name, twice with the same team. *)
Definition duplicateFantrax : list Record :=
  [player "1" "Juan Soto" "NYY" "OF" "25"; player "7" "Juan Soto" "WAS" "OF" "25";
   player "8" "Juan Soto" "NYY" "OF" "26"].

(** The mapping of the command line for headerless IBW rows: the roles
    are column indices. *)
Definition indexMapping : ColumnMapping :=
  {| cm_fantrax := None;
     cm_ibw := Some [("player", FName "1"); ("team", FName "2"); ("rank", FName "0");
                     ("number", FName "0")] |}.

(** * The output side: [formatMatchResults], [src/lib/csvUtils.js] and
      the [prospect-matcher] command

    The functions of this part take the matches of [findMatches] to the
    text of the output file.  The file system and the console are not
    part of the model: a function that reads a file takes the parsed
    records as its argument, and what a command prints is left out. *)

(** ** More of the JavaScript library *)

Module JsText.

(** The code units U+0022 (quotation mark) and U+000A (line feed). *)
Definition quoteChar : ascii := "034"%char.

Definition lineFeedChar : ascii := "010"%char.

Definition quote : string := String quoteChar EmptyString.

Definition lineFeed : string := String lineFeedChar EmptyString.

(** [s.includes(sub)] *)
Fixpoint includes (s sub : string) : bool :=
  if String.prefix sub s then true
  else match s with
       | EmptyString => false
       | String _ r => includes r sub
       end.

(** The [replace] call of [objectsToCSV], which writes every quotation
    mark of [s] twice. *)
Fixpoint replaceQuotes (s : string) : string :=
  match s with
  | EmptyString => EmptyString
  | String c r =>
      if Ascii.eqb c quoteChar
      then String quoteChar (String quoteChar (replaceQuotes r))
      else String c (replaceQuotes r)
  end.

(** The pieces of [s] between separators; [piece] is the text read since
    the last separator. *)
Fixpoint splitFrom (sep : ascii) (s : string) (piece : string) : list string :=
  match s with
  | EmptyString => [piece]
  | String c r =>
      if Ascii.eqb c sep then piece :: splitFrom sep r EmptyString
      else splitFrom sep r (piece +:+ String c EmptyString)
  end.

(** [s.split(sep)] for a separator of one code unit: one piece more
    than there are separators, so one empty piece on the empty string. *)
Definition split (sep : ascii) (s : string) : list string := splitFrom sep s EmptyString.

(** Truthiness of a scalar. *)
Definition truthyValue (v : JsValue) : bool :=
  match v with
  | VUndefined | VNull => false
  | VString s => truthy s
  | VNumber z => negb (z =? 0)%Z
  end.

(** [v || alt] *)
Definition orElse (v alt : JsValue) : JsValue := if truthyValue v then v else alt.

(** [name in obj], for the own properties of a plain object. *)
Definition hasProperty (name : string) (props : list (string * JsValue)) : bool :=
  bool_decide (name ∈ Js.keys props).

(** Truthiness of a role value: an array is truthy, also the empty
    one. *)
Definition truthySpec (f : FieldSpec) : bool :=
  match f with
  | FUndefined | FNull => false
  | FName s => truthy s
  | FNames _ => true
  end.

(** [/^\d+$/.test(s)]: one decimal digit or more, and nothing else. *)
Definition allDigits (s : string) : bool :=
  truthy s && forallb Js.isDigit (list_ascii_of_string s).

(** [arr.forEach((x, index) => ...)] for a callback that may throw: the
    first exception ends the loop. *)
Fixpoint forEachThrowFrom {A} (f : A -> nat -> Result unit) (l : list A) (index : nat)
  : Result unit :=
  match l with
  | [] => Ok ()
  | x :: r =>
      match f x index with
      | Throw e => Throw e
      | Ok _ => forEachThrowFrom f r (S index)
      end
  end.

Definition forEachThrow {A} (f : A -> nat -> Result unit) (l : list A) : Result unit :=
  forEachThrowFrom f l 0.

End JsText.

(** A plain object with scalar properties, in [Object.keys] order. *)
Abbreviation Props := (list (string * JsValue)).

(** ** [formatMatchResults] *)

(** A candidate list written in the source as an array literal with a
    configured identifier first, [[configured, ...names].filter(col =>
    col !== null)]: [getFieldValue] uses each element as a property key
    or as the argument of [parseInt], that is, as a string. *)
Definition candidates (configured : FieldSpec) (names : list string) : FieldSpec :=
  FNames (map Js.specToString (filter (fun col => col ≠ FNull) (configured :: map FName names))).

(** [spec || "Age"] *)
Definition specOr (f : FieldSpec) (alt : string) : FieldSpec :=
  if JsText.truthySpec f then f else FName alt.

(** The object [formatMatchResults] builds for one match. *)
Definition formatMatch (columnMapping : Mapping) (m : Match) : Props :=
  let ibwPlayer := ibwPlayer m in
  let fantraxData := fantraxData m in
  [("IBW Rank", VString (getFieldValue ibwPlayer (Js.role (ibw columnMapping) "rank")));
   ("IBW Player", VString (getFieldValue ibwPlayer (Js.role (ibw columnMapping) "player")));
   ("IBW Team", VString (getFieldValue ibwPlayer (Js.role (ibw columnMapping) "team")));
   ("Fantrax Number",
    VString (getFieldValue fantraxData
               (candidates (Js.role (fantrax columnMapping) "number") ["Number"; "#"; "ID"])));
   ("Fantrax Player",
    VString (getFieldValue fantraxData (Js.role (fantrax columnMapping) "player")));
   ("Fantrax Team", VString (getFieldValue fantraxData (Js.role (fantrax columnMapping) "team")));
   ("Fantrax Position",
    VString (getFieldValue fantraxData
               (candidates (Js.role (fantrax columnMapping) "position") ["Position"; "Pos"])));
   ("Fantrax Age",
    VString (getFieldValue fantraxData (specOr (Js.role (fantrax columnMapping) "age") "Age")));
   ("Match Type", VString (matchTypeString (matchType m)))].

Definition formatMatchResults (found : list Match) (columnMapping : Mapping) : list Props :=
  map (formatMatch columnMapping) found.

(** ** [src/lib/csvUtils.js] *)

(** The text of one cell, for the value [obj[header] || ""]. *)
Definition cell (value : JsValue) : string :=
  match value with
  | VString s =>
      if JsText.includes s "," || JsText.includes s JsText.quote
         || JsText.includes s JsText.lineFeed
      then JsText.quote +:+ JsText.replaceQuotes s +:+ JsText.quote
      else JsText.quote +:+ s +:+ JsText.quote
  | _ => JsText.quote +:+ Js.toString value +:+ JsText.quote
  end.

(** The callback of the validation loop of [objectsToCSV]. *)
Definition requireHeaders (csvHeaders : list string) (obj : Props) (index : nat) : Result unit :=
  JsText.forEachThrow
    (fun header _ =>
       if negb (JsText.hasProperty header obj)
       then Throw ("Missing header " +:+ JsText.quote +:+ header +:+ JsText.quote
                   +:+ " in object at index " +:+ ofZ (Z.of_nat index))
       else Ok ())
    csvHeaders.

Definition dataRow (csvHeaders : list string) (obj : Props) : string :=
  join "," (map (fun header => cell (JsText.orElse (Js.objectGet obj header) (VString "")))
                csvHeaders).

(** [objectsToCSV(objects, headers = null)].  [objects] is [None] when
    the argument is not an array; [headers] is [None] when it is left
    out or [null]. *)
Definition objectsToCSV (objects : option (list Props)) (headers : option (list string))
  : Result string :=
  match objects with
  | Some (first :: rest) =>
      let csvHeaders :=
        match headers with
        | Some given => given
        | None => Js.keys first
        end in
      match JsText.forEachThrow (requireHeaders csvHeaders) (first :: rest) with
      | Throw e => Throw e
      | Ok _ =>
          let headerRow := join "," csvHeaders in
          let dataRows := map (dataRow csvHeaders) (first :: rest) in
          Ok (join JsText.lineFeed (headerRow :: dataRows))
      end
  | _ => Throw "Invalid input: objects must be a non-empty array"
  end.

(** [validateHeaders(csvData, requiredHeaders)].  [csvData] is [None]
    when the argument is [null] or [undefined]. *)
Definition validateHeaders (csvData : option (list Props)) (requiredHeaders : list string)
  : Result unit :=
  match csvData with
  | Some (first :: _) =>
      let availableHeaders := Js.keys first in
      let missingHeaders :=
        filter (fun header => header ∉ availableHeaders) requiredHeaders in
      if decide (0 < length missingHeaders)
      then Throw ("Missing required headers: " +:+ join ", " missingHeaders
                  +:+ ". Available headers: " +:+ join ", " availableHeaders)
      else Ok ()
  | _ => Throw "CSV data is empty"
  end.

(** [getColumnByIndex(csvData, columnIndex)], for an integer index. *)
Definition getColumnByIndex (csvData : option (list Props)) (columnIndex : Z) : Result string :=
  match csvData with
  | Some (first :: _) =>
      let headers := Js.keys first in
      if (columnIndex <? 0)%Z || (Z.of_nat (length headers) <=? columnIndex)%Z
      then Throw ("Column index " +:+ ofZ columnIndex
                  +:+ " is out of bounds. Available columns: 0-"
                  +:+ ofZ (Z.of_nat (length headers) - 1))
      else Ok (default "" (headers !! Z.to_nat columnIndex))
  | _ => Throw "CSV data is empty"
  end.

(** [row[i]] *)
Definition cellAt (row : list JsValue) (i : nat) : JsValue := default VUndefined (row !! i).

(** The object [readIBWCSV] makes of a row. *)
Definition ibwObject (row : list JsValue) : Props :=
  [("0", cellAt row 0); ("1", cellAt row 1); ("2", cellAt row 2); ("3", cellAt row 3);
   ("4", cellAt row 4); ("5", cellAt row 5); ("6", cellAt row 6); ("7", cellAt row 7);
   ("8", cellAt row 8); ("9", cellAt row 9)].

(** [!row[2] || !row[2].toString().includes('FYPD')] *)
Definition keepsRow (row : list JsValue) : bool :=
  negb (JsText.truthyValue (cellAt row 2))
  || negb (JsText.includes (Js.toString (cellAt row 2)) "FYPD").

(** [readIBWCSV(filePath)], on the rows [records] that the parser made
    of the content of the file. *)
Definition readIBWCSV (filePath : string) (records : list (list JsValue))
  : Result (list Props) :=
  if (length records =? 0)%nat
  then Throw ("CSV file is empty or contains no valid data: " +:+ filePath)
  else Ok (map ibwObject (List.filter keepsRow records)).

(** ** The [prospect-matcher] command *)

(** [resolveColumn(data, columnRef, description)], on the non-empty
    array [first :: rest] that [readCSV] returns. *)
Definition resolveColumn (first : Props) (rest : list Props) (columnRef description : string)
  : Result string :=
  let availableColumns := Js.keys first in
  if bool_decide (columnRef ∈ availableColumns) then Ok columnRef
  else if JsText.allDigits columnRef then
    (* [parseInt] of a string of digits is an integer *)
    let index := default 0%Z (Js.parseInt columnRef) in
    getColumnByIndex (Some (first :: rest)) index
  else Throw (description +:+ " column " +:+ JsText.quote +:+ columnRef +:+ JsText.quote
              +:+ " not found. Available columns: " +:+ join ", " availableColumns).

(** The options of the command that its action reads from [options]. *)
Record Options := {
  fantraxPlayerCol : string;
  fantraxTeamCol : string;
  ibwPlayerCol : string;
  ibwTeamCol : string;
  ibwRankCol : string;
}.

(** The values the options take when they are not given. *)
Definition defaultOptions : Options := {|
  fantraxPlayerCol := "1";
  fantraxTeamCol := "2";
  ibwPlayerCol := "5";
  ibwTeamCol := "6";
  ibwRankCol := "0";
|}.

(** [value && value.toString().toLowerCase().includes('fypd')] *)
Definition mentionsFYPD (value : JsValue) : bool :=
  JsText.truthyValue value && JsText.includes (toLowerCase (Js.toString value)) "fypd".

(** [ibwPlayers.filter(row => !row.some(...))] *)
Definition filterFYPD (ibwPlayers : list (list JsValue)) : list (list JsValue) :=
  List.filter (fun row => negb (existsb mentionsFYPD row)) ibwPlayers.

(** [fantraxColumns.includes(name) ? name : null] *)
Definition columnOrNull (fantraxColumns : list string) (name : string) : FieldSpec :=
  if bool_decide (name ∈ fantraxColumns) then FName name else FNull.

(** The [columnMapping] object of the action; the two [resolveColumn]
    calls come first, in this order. *)
Definition commandMapping (options : Options) (first : Props) (rest : list Props)
  : Result Mapping :=
  let fantraxColumns := Js.keys first in
  match resolveColumn first rest (fantraxPlayerCol options) "Fantrax player" with
  | Throw e => Throw e
  | Ok playerColumn =>
  match resolveColumn first rest (fantraxTeamCol options) "Fantrax team" with
  | Throw e => Throw e
  | Ok teamColumn =>
      Ok {| fantrax := [("player", FName playerColumn);
                        ("team", FName teamColumn);
                        ("number", columnOrNull fantraxColumns "Number");
                        ("position", columnOrNull fantraxColumns "Position");
                        ("age", columnOrNull fantraxColumns "Age")];
            ibw := [("player", FName (ibwPlayerCol options));
                    ("team", FName (ibwTeamCol options));
                    ("rank", FName (ibwRankCol options));
                    ("number", FName (ibwRankCol options))] |}
  end end.

(** The [columnMapping] object as an argument of [findMatches]. *)
Definition configOf (mapping : Mapping) : ColumnMapping :=
  {| cm_fantrax := Some (fantrax mapping); cm_ibw := Some (ibw mapping) |}.

(** How the action ends: the text handed to [writeCSV], the exit after
    "No matches found!", or the exit after an exception, with the
    message it prints. *)
Inductive Outcome :=
| Written (csvContent : string)
| NoMatches
| Failed (message : string).

(** The action of the command on the records that the two [readCSV]
    calls returned (both arrays are non-empty when [readCSV] returns). *)
Definition matchCommand (options : Options) (fantraxFirst : Props) (fantraxRest : list Props)
    (ibwPlayers : list (list JsValue)) : Outcome :=
  let fantraxPlayers := map RObject (fantraxFirst :: fantraxRest) in
  let filteredIBWPlayers := filterFYPD ibwPlayers in
  match commandMapping options fantraxFirst fantraxRest with
  | Throw e => Failed e
  | Ok mapping =>
      match findMatches (Rows fantraxPlayers) (Rows (map RArray filteredIBWPlayers))
                        (configOf mapping) with
      | Throw e => Failed e
      | Ok matchResult =>
          if (totalMatches (stats matchResult) =? 0)%nat then NoMatches
          else
            let formattedResults := formatMatchResults (matches matchResult) mapping in
            match objectsToCSV (Some formattedResults) None with
            | Throw e => Failed e
            | Ok csvContent => Written csvContent
            end
      end
  end.

(** ** Views of the output side *)

(** The keys of a formatted match, which are the header row of the
    output file. *)
Definition outputHeaders : list string :=
  ["IBW Rank"; "IBW Player"; "IBW Team"; "Fantrax Number"; "Fantrax Player";
   "Fantrax Team"; "Fantrax Position"; "Fantrax Age"; "Match Type"].

(** The text [objectsToCSV] writes for the property [header] of [obj],
    before it is quoted. *)
Definition cellText (obj : Props) (header : string) : string :=
  Js.toString (JsText.orElse (Js.objectGet obj header) (VString "")).

(** The headers [objectsToCSV] uses: [headers || Object.keys(objects[0])]. *)
Definition csvHeadersOf (first : Props) (headers : option (list string)) : list string :=
  default (Js.keys first) headers.

(** Every object has every header. *)
Definition allHeadersPresent (csvHeaders : list string) (objects : list Props) : Prop :=
  Forall (fun obj => Forall (fun header => header ∈ Js.keys obj) csvHeaders) objects.

Definition noLineFeed (s : string) : Prop := JsText.includes s JsText.lineFeed = false.

(** The error of [objectsToCSV] on the object at [index] that lacks
    [header]. *)
Definition missingHeader (header : string) (index : nat) : string :=
  "Missing header " +:+ JsText.quote +:+ header +:+ JsText.quote
    +:+ " in object at index " +:+ ofZ (Z.of_nat index).

(** A match of the end-to-end scenario, and a Fantrax record that keeps
    the player number under [#]. *)
Definition sampleMatch : Match :=
  {| ibwPlayer := player "1" "Ronald Acuna Jr." "ATL" "OF" "26.2";
     fantraxData := player "1" "Ronald Acuna Jr." "ATL" "OF" "26";
     matchType := MExact;
     ibwIndex := 0 |}.

(** ** A reader of quoted rows

    The rows [objectsToCSV] writes are read back by the automaton of a
    CSV reader: a field starts at a quotation mark and ends at the next
    one that is not written twice; a comma separates two fields. *)
Inductive ReaderState :=
| BeforeField
| InField
| AfterQuote.

Fixpoint readFields (s : string) (st : ReaderState) (field : string) (fields : list string)
  : option (list string) :=
  match s with
  | EmptyString =>
      match st with
      | AfterQuote => Some (fields ++ [field])
      | _ => None
      end
  | String c r =>
      match st with
      | BeforeField =>
          if Ascii.eqb c JsText.quoteChar then readFields r InField "" fields else None
      | InField =>
          if Ascii.eqb c JsText.quoteChar then readFields r AfterQuote field fields
          else readFields r InField (field +:+ String c "") fields
      | AfterQuote =>
          if Ascii.eqb c JsText.quoteChar
          then readFields r InField (field +:+ JsText.quote) fields
          else if Ascii.eqb c "," then readFields r BeforeField "" (fields ++ [field])
          else None
      end
  end.

(** A row of at least one field. *)
Definition readRow (s : string) : option (list string) := readFields s BeforeField "" [].

(** The quoted form of a text. *)
Definition quoted (s : string) : string :=
  JsText.quote +:+ JsText.replaceQuotes s +:+ JsText.quote.

(** The objects of the repository's test of a missing header. *)
Definition inconsistentData : list Props :=
  [[("name", VString "Player 1"); ("team", VString "ATL")];
   [("name", VString "Player 2")]].

(** The objects of the repository's test of the conversion. *)
Definition sampleData : list Props :=
  [[("name", VString "John Doe"); ("team", VString "ATL"); ("age", VNumber 25)];
   [("name", VString "Jane Smith"); ("team", VString "LAA"); ("age", VNumber 30)]].

(** Records as the two [readCSV] calls of the command return them: the
    Fantrax file with its header row, the IBW file without one.  The
    second IBW row is a first-year-player-draft entry. *)
Definition fantraxFile : list Props :=
  [[("Number", VString "1"); ("Player", VString "Ronald Acuna Jr."); ("Team", VString "ATL");
    ("Position", VString "OF"); ("Age", VString "26")];
   [("Number", VString "2"); ("Player", VString "Mike Trout"); ("Team", VString "LAA");
    ("Position", VString "OF"); ("Age", VString "32")]].

Definition ibwRow (rank second third name team : string) : list JsValue :=
  [VString rank; VString second; VString third; VString ""; VString ""; VString name;
   VString team].

Definition ibwFile : list (list JsValue) :=
  [ibwRow "1" "1" "" "Mike Trout" "LAA";
   ibwRow "2" "" "FYPD-1" "Ronald Acuna Jr." "ATL";
   ibwRow "3" "2" "" "Juan Soto" "NYY"].

(** The datasets the command passes to [findMatches]. *)
Definition commandFantrax (first : Props) (rest : list Props) : Dataset :=
  Rows (map RObject (first :: rest)).

Definition commandIBW (ibwPlayers : list (list JsValue)) : Dataset :=
  Rows (map RArray (filterFYPD ibwPlayers)).

(** ** Views of a match *)

(** A dataset-A record and a dataset-B record have the same name key,
    or the same full key, under the two sides of a mapping. *)
Definition sameName (mapping : Mapping) (a b : Record) : Prop :=
  nameOnlyKey (fantrax mapping) a = nameOnlyKey (ibw mapping) b.

Definition sameNameAndTeam (mapping : Mapping) (a b : Record) : Prop :=
  fullKey (fantrax mapping) a = fullKey (ibw mapping) b.

(** * The IBW converter: [src/lib/ibwConverter.js] *)

(** ** Regular expressions

    The pattern of [parseIBWText] is a sequence of character classes
    under the greedy quantifiers [*], [+] and [?].  A matcher lists the
    ways to match at the start of its input, as the matched text and
    the rest of the input, the way the backtracking matcher of the
    language tries them: a greedy quantifier takes as many characters
    as it can first, and gives them back one by one.  The match of a
    sequence is the first element of the list that the matchers give
    when each continues where the one before stopped. *)

Module RegExp.

Definition Matcher := string -> list (string * string).

(** One character of a class. *)
Definition one (p : ascii -> bool) : Matcher :=
  fun s =>
    match s with
    | String c r => if p c then [(String c "", r)] else []
    | EmptyString => []
    end.

(** [p*] *)
Fixpoint many (p : ascii -> bool) (s : string) : list (string * string) :=
  match s with
  | String c r =>
      if p c
      then map (fun mr => (String c mr.1, mr.2)) (many p r) ++ [("", s)]
      else [("", s)]
  | EmptyString => [("", "")]
  end.

(** [p+] *)
Definition some (p : ascii -> bool) : Matcher :=
  fun s =>
    match s with
    | String c r => if p c then map (fun mr => (String c mr.1, mr.2)) (many p r) else []
    | EmptyString => []
    end.

(** [p?] *)
Definition optional (p : ascii -> bool) : Matcher :=
  fun s => one p s ++ [("", s)].

(** Two matchers in sequence, as one matcher. *)
Definition andThen (m1 m2 : Matcher) : Matcher :=
  fun s =>
    '(a, r) ← m1 s;
    '(b, r') ← m2 r;
    mret (a +:+ b, r').

(** The classes of the pattern: [\d], [\s], one given character and
    every character but a given one. *)
Definition digit : ascii -> bool := Js.isDigit.

Definition space : ascii -> bool := isWhiteSpace.

Definition exactly (c : ascii) : ascii -> bool := Ascii.eqb c.

Definition except (c : ascii) : ascii -> bool := fun x => negb (Ascii.eqb c x).

End RegExp.

Module IbwConverter.

Import RegExp.

(** The pattern of the source, with a space between its parts:
    [^ (\d+) \) \s* ([^-]+) - \s* ([^,]+) , \s* ([^,]+) , \s* (\d+ \.? \d* )].
    The function gives the five groups for every way to match at the
    start of [line], in the order of the matcher. *)
Definition basicInfoPattern (line : string)
  : list (string * string * string * string * string) :=
  '(number, r) ← some digit line;
  '(_, r) ← one (exactly ")") r;
  '(_, r) ← many space r;
  '(name, r) ← some (except "-") r;
  '(_, r) ← one (exactly "-") r;
  '(_, r) ← many space r;
  '(team, r) ← some (except ",") r;
  '(_, r) ← one (exactly ",") r;
  '(_, r) ← many space r;
  '(position, r) ← some (except ",") r;
  '(_, r) ← one (exactly ",") r;
  '(_, r) ← many space r;
  '(age, _) ← andThen (some digit) (andThen (optional (exactly ".")) (many digit)) r;
  mret (number, name, team, position, age).

(** [line.match(...)]: the groups of the first match, or [None] for
    [null]. *)
Definition basicInfoMatch (line : string) : option (string * string * string * string * string) :=
  head (basicInfoPattern line).

Section Host.

(** The numbers of the host and its [parseFloat].  The converter hands
    the text of the age to [parseFloat] and stores what it returns. *)
Context {Number : Type} (parseFloat : string -> Number).

(** A player object.  [number] is what [parseInt] returned: [None] is
    [NaN]. *)
Record Player := {
  number : option Z;
  name : string;
  team : string;
  position : string;
  age : Number;
}.

(** An element of [skippedLines]. *)
Record Skipped := {
  line : nat;
  content : string;
  reason : string;
}.

(** The two arrays the loop fills. *)
Record ParseState := {
  players : list Player;
  skippedLines : list Skipped;
}.

(** The body of the [forEach] of [parseIBWText]. *)
Definition parseLine (st : ParseState) (line : string) (index : nat) : ParseState :=
  match basicInfoMatch line with
  | Some (number, name, team, position, age) =>
      if negb (truthy (trim name)) || negb (truthy (trim team))
         || negb (truthy (trim position))
      then {| players := players st;
              skippedLines :=
                skippedLines st ++ [{| line := index + 1; content := line;
                                       reason := "Missing required fields" |}] |}
      else {| players :=
                players st ++ [{| number := Js.parseInt number;
                                  name := trim name;
                                  team := trim team;
                                  position := trim position;
                                  age := parseFloat age |}];
              skippedLines := skippedLines st |}
  | None =>
      {| players := players st;
         skippedLines :=
           skippedLines st ++ [{| line := index + 1; content := line;
                                  reason := "Does not match expected IBW format" |}] |}
  end.

(** The lines of the text, trimmed, without the empty ones. *)
Definition contentLines (textContent : string) : list string :=
  List.filter (fun line => (0 <? String.length line)%nat)
              (map trim (JsText.split JsText.lineFeedChar textContent)).

(** [parseIBWText(textContent)].  The warnings and the summary that the
    function prints are left out. *)
Definition parseIBWText (textContent : JsValue) : Result (list Player) :=
  match textContent with
  | VString text =>
      if negb (truthy text)
      then Throw "Invalid input: textContent must be a non-empty string"
      else
        let lines := contentLines text in
        if (length lines =? 0)%nat then Throw "Invalid IBW file: No content found"
        else
          let final :=
            forEach parseLine lines {| players := []; skippedLines := [] |} in
          if (length (players final) =? 0)%nat
          then Throw "No valid player data found in IBW text. Please check the input format."
          else Ok (players final)
  | _ => Throw "Invalid input: textContent must be a non-empty string"
  end.

(** *** Views *)

(** The player a line gives, if it gives one. *)
Definition playerOf (line : string) : option Player :=
  match basicInfoMatch line with
  | Some (number, name, team, position, age) =>
      if truthy (trim name) && truthy (trim team) && truthy (trim position)
      then Some {| number := Js.parseInt number; name := trim name; team := trim team;
                   position := trim position; age := parseFloat age |}
      else None
  | None => None
  end.

End Host.

Arguments Player : clear implicits.

(** No character of [s] is [c]. *)
Definition without (c : ascii) (s : string) : Prop :=
  forallb (except c) (list_ascii_of_string s) = true.

(** A field of an entry as the text has it: not empty, no white space
    at either end. *)
Definition fieldText (s : string) : Prop := s <> "" /\ trimmed s.

(** A decimal numeral as the pattern reads an age: digits, then
    possibly a point and more digits. *)
Definition ageText (whole fraction : string) (point : bool) : string :=
  if point then whole +:+ "." +:+ fraction else whole.

(** What holds of every player the converter returns: the number is
    what [parseInt] makes of a numeral, the three fields are those of a
    line, and the age is what [parseFloat] makes of a numeral. *)
Definition wellFormed {Number : Type} (parseFloat : string -> Number) (p : Player Number)
  : Prop :=
  (exists numeral, JsText.allDigits numeral = true /\ number p = Js.parseInt numeral)
  /\ fieldText (name p) /\ without "-" (name p)
  /\ fieldText (team p) /\ without "," (team p)
  /\ fieldText (position p) /\ without "," (position p)
  /\ exists whole fraction point,
       age p = parseFloat (ageText whole fraction point)
       /\ JsText.allDigits whole = true
       /\ forallb digit (list_ascii_of_string fraction) = true.

(** The text does not go on with a character of the class. *)
Definition stopsAt (p : ascii -> bool) (s : string) : Prop :=
  match s with
  | String c _ => p c = false
  | EmptyString => True
  end.

(** A name, team or position as an entry can hold it: not empty, no
    white space at either end, without the character that ends it in
    the pattern, and within one line. *)
Definition fieldOf (terminator : ascii) (s : string) : Prop :=
  fieldText s /\ without terminator s /\ noLineFeed s.

(** The numeral of an age and the text after it: the pattern reads the
    numeral and stops, because the text does not go on with a digit,
    nor, after a numeral without a point, with a point. *)
Definition numeralBefore (whole fraction : string) (point : bool) (description : string)
  : Prop :=
  JsText.allDigits whole = true
  /\ forallb digit (list_ascii_of_string fraction) = true
  /\ stopsAt digit description
  /\ (point = false -> fraction = "" /\ stopsAt (exactly ".") description).

(** An entry in the format of the converter. *)
Definition entry (number : Z) (name team position age description : string) : string :=
  ofZ number +:+ ") " +:+ name +:+ " - " +:+ team +:+ ", " +:+ position +:+ ", "
    +:+ age +:+ description.

(** The parts of an entry: the number, the three fields, the numeral of
    the age and the description that follows it on the line. *)
Record Entry := {
  entryNumber : Z;
  entryName : string;
  entryTeam : string;
  entryPosition : string;
  entryWhole : string;
  entryFraction : string;
  entryPoint : bool;
  entryDescription : string;
}.

Definition entryAge (e : Entry) : string :=
  ageText (entryWhole e) (entryFraction e) (entryPoint e).

(** The line of an entry, and the player it stands for. *)
Definition entryLine (e : Entry) : string :=
  entry (entryNumber e) (entryName e) (entryTeam e) (entryPosition e) (entryAge e)
        (entryDescription e).

Definition entryPlayer {Number : Type} (parseFloat : string -> Number) (e : Entry)
  : Player Number :=
  {| number := Some (entryNumber e); name := entryName e; team := entryTeam e;
     position := entryPosition e; age := parseFloat (entryAge e) |}.

(** The entries whose number is a safe integer, which [parseInt] reads
    exactly. *)
Definition safeNumber (e : Entry) : Prop := Js.safeInteger (entryNumber e).

(** The entries that the format can carry. *)
Definition validEntry (e : Entry) : Prop :=
  (0 <= entryNumber e)%Z
  /\ fieldOf "-" (entryName e) /\ fieldOf "," (entryTeam e) /\ fieldOf "," (entryPosition e)
  /\ numeralBefore (entryWhole e) (entryFraction e) (entryPoint e) (entryDescription e)
  /\ noLineFeed (entryDescription e).

(** Two entries of the fixture of the repository's tests. *)
Definition acunaEntry : Entry :=
  {| entryNumber := 1; entryName := "Ronald Acuna Jr."; entryTeam := "ATL";
     entryPosition := "OF"; entryWhole := "26"; entryFraction := "2"; entryPoint := true;
     entryDescription := ". The 2023 NL MVP." |}.

Definition troutEntry : Entry :=
  {| entryNumber := 2; entryName := "Mike Trout"; entryTeam := "LAA";
     entryPosition := "OF"; entryWhole := "32"; entryFraction := ""; entryPoint := false;
     entryDescription := " - when healthy, one of the best  " |}.

(** The text of the repository's test of mixed lines. *)
Definition mixedText : string :=
  "1) Valid Player - ATL, OF, 25.0. Good player." +:+ JsText.lineFeed
  +:+ "Invalid line that should be skipped" +:+ JsText.lineFeed
  +:+ "2) Another Valid - LAD, 1B, 28.5. Another good player." +:+ JsText.lineFeed
  +:+ "Another invalid line".

End IbwConverter.

(** * The conversion script

    The script that the converter replaced reads [players.txt] and
    writes [players.csv].  [convertToCSV] is embedded as the function
    from the content of the first file to the content of the second. *)

Module ConvertScript.

Import IbwConverter.

(** The callback of the second [map]: the row of a line, or [None] for
    [null]. *)
Definition csvRow (line : string) : option string :=
  match basicInfoMatch line with
  | Some (number, name, team, position, age) =>
      Some (number +:+ "," +:+ JsText.quote +:+ trim name +:+ JsText.quote
            +:+ "," +:+ JsText.quote +:+ trim team +:+ JsText.quote
            +:+ "," +:+ JsText.quote +:+ trim position +:+ JsText.quote
            +:+ "," +:+ age)
  | None => None
  end.

(** [rows.filter(line => line !== null)] *)
Definition nonNull {A} (rows : list (option A)) : list A := omap id rows.

Definition convertToCSV (playersContent : string) : string :=
  let players := nonNull (map csvRow (contentLines playersContent)) in
  join JsText.lineFeed ("Number,Player,Team,Position,Age" :: players).

(** The row the script writes for an entry. *)
Definition entryRow (e : Entry) : string :=
  ofZ (entryNumber e) +:+ "," +:+ JsText.quote +:+ entryName e +:+ JsText.quote
  +:+ "," +:+ JsText.quote +:+ entryTeam e +:+ JsText.quote
  +:+ "," +:+ JsText.quote +:+ entryPosition e +:+ JsText.quote
  +:+ "," +:+ entryAge e.

End ConvertScript.
(** * Properties *)

(** ** Strings *)

Section StringFacts.

Lemma isWhiteSpace_lowerChar c : isWhiteSpace (lowerChar c) = isWhiteSpace c.
Proof. destruct c as [[] [] [] [] [] [] [] []]; reflexivity. Qed.

Lemma lowerChar_idem c : lowerChar (lowerChar c) = lowerChar c.
Proof. destruct c as [[] [] [] [] [] [] [] []]; reflexivity. Qed.

Lemma toLowerCase_idem s : toLowerCase (toLowerCase s) = toLowerCase s.
Proof. induction s as [|c r IH]; simpl; [done|]. by rewrite lowerChar_idem, IH. Qed.

Lemma toLowerCase_app a b :
  toLowerCase (a +:+ b) = toLowerCase a +:+ toLowerCase b.
Proof.
  induction a as [|c r IH]; [reflexivity|].
  change (String c r +:+ b) with (String c (r +:+ b)).
  cbn [toLowerCase]. by rewrite IH.
Qed.

Lemma toLowerCase_empty s : toLowerCase s = "" <-> s = "".
Proof. destruct s; simpl; split; congruence. Qed.

Lemma toLowerCase_trimStart s :
  toLowerCase (trimStart s) = trimStart (toLowerCase s).
Proof.
  induction s as [|c r IH]; simpl; [done|].
  rewrite isWhiteSpace_lowerChar. by destruct (isWhiteSpace c).
Qed.

Lemma toLowerCase_trimEnd s :
  toLowerCase (trimEnd s) = trimEnd (toLowerCase s).
Proof.
  induction s as [|c r IH]; simpl; [done|].
  rewrite <- IH, isWhiteSpace_lowerChar.
  destruct (trimEnd r); simpl; [by destruct (isWhiteSpace c)|done].
Qed.

Lemma toLowerCase_trim s : toLowerCase (trim s) = trim (toLowerCase s).
Proof. unfold trim. by rewrite toLowerCase_trimEnd, toLowerCase_trimStart. Qed.

Lemma trimStart_idem s : trimStart (trimStart s) = trimStart s.
Proof.
  induction s as [|c r IH]; simpl; [done|].
  destruct (isWhiteSpace c) eqn:E; [done|]. simpl. by rewrite E.
Qed.

Lemma trimEnd_idem s : trimEnd (trimEnd s) = trimEnd s.
Proof.
  induction s as [|c r IH]; simpl; [done|].
  destruct (trimEnd r) as [|c' r'] eqn:E.
  - destruct (isWhiteSpace c) eqn:Ec; simpl; [done|]. by rewrite Ec.
  - simpl. simpl in IH. by rewrite IH.
Qed.

Lemma trimStart_head s :
  trimStart s = s <-> match s with String c _ => isWhiteSpace c = false | _ => True end.
Proof.
  destruct s as [|c r]; simpl; [done|].
  destruct (isWhiteSpace c) eqn:E; split; try done.
  intros H. pose proof (f_equal String.length H) as HL. simpl in HL.
  assert (forall t, String.length (trimStart t) <= String.length t) as Hle.
  { clear. induction t as [|c t IH]; simpl; [lia|].
    destruct (isWhiteSpace c); simpl; lia. }
  specialize (Hle r). lia.
Qed.

Lemma trimEnd_head c r : exists r', trimEnd (String c r) = match isWhiteSpace c with
                                    | true => match trimEnd r with "" => "" | _ => String c r' end
                                    | false => String c r' end.
Proof.
  simpl. destruct (trimEnd r) eqn:E; destruct (isWhiteSpace c); eauto.
Qed.

Lemma trimmed_trim s : trimmed (trim s).
Proof.
  unfold trimmed, trim. split; [|apply trimEnd_idem].
  pose proof (trimStart_idem s) as H. apply trimStart_head in H.
  apply trimStart_head.
  destruct (trimStart s) as [|c r]; [done|].
  destruct (trimEnd_head c r) as [r' ->]. by rewrite H.
Qed.

Lemma trim_idem s : trim (trim s) = trim s.
Proof.
  destruct (trimmed_trim s) as [H1 H2]. unfold trim at 1. by rewrite H1, H2.
Qed.

Lemma trimmed_toLowerCase s : trimmed s -> trimmed (toLowerCase s).
Proof.
  intros [H1 H2]. split.
  - by rewrite <- toLowerCase_trimStart, H1.
  - by rewrite <- toLowerCase_trimEnd, H2.
Qed.

Lemma trimEnd_app a b :
  b <> "" -> trimEnd b = b -> trimEnd (a +:+ b) = a +:+ b.
Proof.
  intros Hb Ht. induction a as [|c r IH]; [exact Ht|].
  change (String c r +:+ b) with (String c (r +:+ b)).
  cbn [trimEnd]. rewrite IH. destruct (r +:+ b) eqn:E; [|reflexivity].
  destruct r as [|c' r'].
  + change (b = "") in E. congruence.
  + change (String c' (r' +:+ b) = "") in E. discriminate E.
Qed.

(** Joining two trimmed strings with the separator stays trimmed. *)
Lemma trimmed_separator a b :
  trimmed a -> trimmed b -> trimmed (a +:+ "_" +:+ b).
Proof.
  intros [Ha _] [_ Hb]. split.
  - apply trimStart_head. apply trimStart_head in Ha.
    destruct a as [|c r]; [reflexivity|exact Ha].
  - apply trimEnd_app; [discriminate|].
    change ("_" +:+ b) with (String "_" b).
    cbn [trimEnd]. rewrite Hb. by destruct b.
Qed.

Lemma trim_trimmed s : trimmed s -> trim s = s.
Proof. intros [H1 H2]. unfold trim. by rewrite H1, H2. Qed.

Lemma truthy_true s : truthy s = true <-> s <> "".
Proof. destruct s; simpl; split; congruence. Qed.

Lemma truthy_false s : truthy s = false <-> s = "".
Proof. destruct s; simpl; split; congruence. Qed.


End StringFacts.

(** ** The key normalizer *)

Lemma createMatchKey_omitted name :
  createMatchKey name None = toLowerCase (trim name).
Proof. reflexivity. Qed.



Lemma createMatchKey_trimmed name team : trimmed (createMatchKey name team).
Proof.
  unfold createMatchKey.
  destruct (truthy _).
  - apply trimmed_separator; apply trimmed_toLowerCase, trimmed_trim.
  - apply trimmed_toLowerCase, trimmed_trim.
Qed.

Lemma createMatchKey_lower name team :
  toLowerCase (createMatchKey name team) = createMatchKey name team.
Proof.
  unfold createMatchKey.
  destruct (truthy _).
  - by rewrite !toLowerCase_app, !toLowerCase_idem.
  - by rewrite toLowerCase_idem.
Qed.

(** ** The record indexer *)

Section Indexer.

Variable m : RoleMap.


Lemma indexRecord_exact maps r k :
  exact (indexRecord m maps r) !! k
  = if bindsExact m k r then Some r else exact maps !! k.
Proof.
  unfold bindsExact, named, indexRecord.
  fold (recordName m r). fold (recordTeam m r). fold (fullKey m r).
  destruct (truthy (recordName m r)); simpl; [|done].
  case_bool_decide as Hk.
  - subst k. apply lookup_insert_eq.
  - by apply lookup_insert_ne.
Qed.

Lemma indexRecord_nameOnly maps r k :
  nameOnly (indexRecord m maps r) !! k
  = match nameOnly maps !! k with
    | Some a => Some a
    | None => if bindsNameOnly m k r then Some r else None
    end.
Proof.
  unfold bindsNameOnly, named, indexRecord.
  fold (recordName m r). fold (recordTeam m r). fold (nameOnlyKey m r).
  destruct (truthy (recordName m r)); simpl; [|by destruct (_ !! k)].
  case_bool_decide as Hhas; simpl.
  - case_bool_decide as Hk; [|by destruct (_ !! k)].
    subst k. destruct Hhas as [a Ha]. by rewrite Ha.
  - apply eq_None_not_Some in Hhas.
    case_bool_decide as Hk.
    + subst k. by rewrite Hhas, lookup_insert_eq.
    + rewrite lookup_insert_ne by done. by destruct (_ !! k).
Qed.

Lemma find_snoc {A} (f : A -> bool) l x :
  find f (l ++ [x])
  = match find f l with Some a => Some a | None => if f x then Some x else None end.
Proof.
  induction l as [|y l IH]; simpl; [done|]. by destruct (f y).
Qed.

Lemma fold_indexRecord_nameOnly l maps k :
  nameOnly (fold_left (indexRecord m) l maps) !! k
  = match nameOnly maps !! k with
    | Some a => Some a
    | None => findFirst (bindsNameOnly m k) l
    end.
Proof.
  revert maps. induction l as [|r l IH]; intros maps; simpl.
  - by destruct (_ !! k).
  - rewrite IH, indexRecord_nameOnly.
    destruct (nameOnly maps !! k); [done|].
    by destruct (bindsNameOnly m k r).
Qed.

Lemma fold_indexRecord_exact l maps k :
  exact (fold_left (indexRecord m) l maps) !! k
  = match findLast (bindsExact m k) l with
    | Some a => Some a
    | None => exact maps !! k
    end.
Proof.
  revert maps. induction l as [|r l IH]; intros maps; simpl; [done|].
  rewrite IH, indexRecord_exact. unfold findLast. simpl.
  rewrite find_snoc. destruct (find _ (rev l)); [done|].
  by destruct (bindsExact m k r).
Qed.

Lemma createPlayerMaps_nameOnly l k :
  nameOnly (createPlayerMaps l m) !! k = findFirst (bindsNameOnly m k) l.
Proof.
  unfold createPlayerMaps. rewrite fold_indexRecord_nameOnly. simpl.
  by rewrite lookup_empty.
Qed.

Lemma createPlayerMaps_exact l k :
  exact (createPlayerMaps l m) !! k = findLast (bindsExact m k) l.
Proof.
  unfold createPlayerMaps. rewrite fold_indexRecord_exact. simpl.
  rewrite lookup_empty. by destruct (findLast _ _).
Qed.

End Indexer.

(** ** The matching loop *)

Section Matching.

Variables (maps : PlayerMaps) (mapping : Mapping).

Lemma matchRecord_matchOf st r i :
  matchRecord maps mapping st r i
  = match matchOf maps (ibw mapping) (i, r) with
    | Some x =>
        {| ls_stats := tally (ls_stats st) [x];
           ls_matchingPlayers := ls_matchingPlayers st ++ [x] |}
    | None => st
    end.
Proof.
  unfold matchRecord, matchOf, lookupMatch, named. simpl.
  fold (recordName (ibw mapping) r). fold (recordTeam (ibw mapping) r).
  fold (fullKey (ibw mapping) r). fold (nameOnlyKey (ibw mapping) r).
  destruct st as [[e n t b] ms]. simpl.
  destruct (truthy (recordName (ibw mapping) r)); simpl; [|done].
  destruct (exact maps !! _) as [a|]; simpl.
  { unfold tally, countExact, countNameOnly, incrTotal, incrExact; simpl.
    f_equal. f_equal; lia. }
  destruct (nameOnly maps !! _) as [a|]; simpl; [|done].
  unfold tally, countExact, countNameOnly, incrTotal, incrNameOnly; simpl.
  f_equal. f_equal; lia.
Qed.

Lemma countExact_app l1 l2 : countExact (l1 ++ l2) = countExact l1 + countExact l2.
Proof. unfold countExact. by rewrite List.filter_app, length_app. Qed.

Lemma countNameOnly_app l1 l2 :
  countNameOnly (l1 ++ l2) = countNameOnly l1 + countNameOnly l2.
Proof. unfold countNameOnly. by rewrite List.filter_app, length_app. Qed.

Lemma tally_app s l1 l2 : tally (tally s l1) l2 = tally s (l1 ++ l2).
Proof.
  unfold tally. simpl.
  rewrite countExact_app, countNameOnly_app, length_app.
  f_equal; lia.
Qed.

Lemma tally_nil s : tally s [] = s.
Proof.
  destruct s. unfold tally, countExact, countNameOnly. simpl. f_equal; lia.
Qed.

Lemma forEachFrom_matchRecord l i st :
  forEachFrom (matchRecord maps mapping) l i st
  = {| ls_stats := tally (ls_stats st) (matchesOf maps (ibw mapping) (enumerateFrom i l));
       ls_matchingPlayers :=
         ls_matchingPlayers st ++ matchesOf maps (ibw mapping) (enumerateFrom i l) |}.
Proof.
  revert i st. induction l as [|r l IH]; intros i st; simpl.
  - destruct st. simpl. by rewrite tally_nil, app_nil_r.
  - rewrite IH, matchRecord_matchOf. unfold matchesOf. simpl.
    destruct (matchOf maps (ibw mapping) (i, r)) as [x|]; simpl; [|done].
    rewrite tally_app. by rewrite <- app_assoc.
Qed.

End Matching.

Lemma findMatches_unfold fantraxPlayers ibwPlayers columnMapping :
  findMatches fantraxPlayers ibwPlayers columnMapping
  = match validationError fantraxPlayers ibwPlayers (mergeMapping columnMapping) with
    | Some e => Throw e
    | None => Ok (matchResultOf (rowsOf fantraxPlayers) (rowsOf ibwPlayers)
                                (mergeMapping columnMapping))
    end.
Proof.
  unfold findMatches, validationError.
  destruct fantraxPlayers as [|[|a0 arest]]; try done.
  destruct ibwPlayers as [|[|b0 brest]]; try done.
  cbn [nonEmptyArray].
  destruct (validateColumns a0 _ _); [|done].
  destruct (validateColumns b0 _ _); [|done].
  unfold forEach. rewrite forEachFrom_matchRecord.
  unfold matchResultOf, enumerate. cbn [ls_stats ls_matchingPlayers rowsOf app].
  unfold tally. by cbn.
Qed.

Lemma count_partition l : length l = countExact l + countNameOnly l.
Proof.
  unfold countExact, countNameOnly, isExact, isNameOnly.
  induction l as [|x l IH]; simpl; [done|].
  destruct (matchType x); simpl; lia.
Qed.

Lemma enumerateFrom_fst {A} i (l : list A) :
  (enumerateFrom i l).*1 = seq i (length l).
Proof. revert i. induction l as [|x l IH]; intros i; simpl; [done|]. by rewrite IH. Qed.

Lemma enumerateFrom_lookup {A} i (l : list A) j x :
  (j, x) ∈ enumerateFrom i l -> i <= j /\ l !! (j - i) = Some x.
Proof.
  revert i. induction l as [|y l IH]; intros i; simpl.
  - by intros ?%elem_of_nil.
  - intros [Heq|Hin]%elem_of_cons.
    + injection Heq as -> ->. split; [lia|]. by rewrite Nat.sub_diag.
    + apply IH in Hin as [Hle Hl]. split; [lia|].
      replace (j - i) with (S (j - S i)) by lia. done.
Qed.

Lemma matchesOf_index_sublist maps m l :
  ibwIndex <$> matchesOf maps m l `sublist_of` l.*1.
Proof.
  unfold matchesOf. induction l as [|[i r] l IH]; simpl; [constructor|].
  unfold matchOf at 1. simpl.
  destruct (lookupMatch maps m r) as [[a t]|]; simpl.
  - by apply sublist_skip.
  - by apply sublist_cons.
Qed.

Lemma matchesOf_elem maps m l x :
  x ∈ matchesOf maps m l ->
  (ibwIndex x, ibwPlayer x) ∈ l
  /\ lookupMatch maps m (ibwPlayer x) = Some (fantraxData x, matchType x).
Proof.
  unfold matchesOf. intros ([i r] & Hin & Hm)%list_elem_of_omap.
  unfold matchOf in Hm. simpl in Hm.
  destruct (lookupMatch maps m r) as [[a t]|] eqn:E; [|done].
  injection Hm as <-. simpl. done.
Qed.

(** ** The schema check *)

Section Schema.

Lemma unresolved_keyed props cols :
  plainIdentifiers (RObject props) cols ->
  filter (fun col => ¬ Exists (fun available => FName available = col) (Js.keys props)) cols
  = unresolved (RObject props) cols.
Proof.
  unfold unresolved. induction 1 as [|f cols Hf _ IH]; [done|].
  rewrite !filter_cons, IH.
  destruct f as [| |name|]; try done. cbn [resolves nameResolves].
  destruct (decide (name ∈ Js.keys props)) as [Hin|Hin].
  - rewrite bool_decide_true by done.
    rewrite decide_False; [by rewrite decide_False|].
    intros Hno. apply Hno, Exists_exists. eauto.
  - rewrite bool_decide_false by done.
    rewrite decide_True; [by rewrite decide_True|].
    intros (k & Hk & [= ->])%Exists_exists. done.
Qed.

Lemma validateColumns_keyed props cols dataType :
  plainIdentifiers (RObject props) cols ->
  validateColumns (RObject props) cols dataType
  = match unresolved (RObject props) cols with
    | [] => Ok ()
    | _ => Throw (schemaMessage dataType (RObject props) cols)
    end.
Proof.
  intros Hplain. unfold validateColumns, schemaMessage.
  rewrite (unresolved_keyed _ _ Hplain).
  by destruct (unresolved _ _).
Qed.

Lemma mathMax_indices cells cols :
  plainIdentifiers (RArray cells) cols ->
  Js.mathMax (map (fun col => Js.parseInt (Js.specToString col)) cols)
  = match cols with
    | [] => Js.NegInfinity
    | _ => Js.Int (largestIndex cols)
    end
  /\ (0 <= largestIndex cols)%Z.
Proof.
  induction 1 as [|f cols Hf _ [IH Hpos]]; [done|].
  destruct f as [| |name|]; try done.
  destruct Hf as (z & Hz & Hz0). cbn [map Js.mathMax Js.specToString].
  unfold largestIndex. cbn [foldr Js.specToString]. fold (largestIndex cols).
  rewrite Hz, IH. cbn [default]. unfold id. split; [|lia].
  destruct cols; [|done]. cbn. f_equal. lia.
Qed.

Lemma largestIndex_unresolved cells cols :
  plainIdentifiers (RArray cells) cols ->
  cols <> [] ->
  (Z.of_nat (length cells) <= largestIndex cols)%Z
  <-> unresolved (RArray cells) cols <> [].
Proof.
  unfold unresolved. induction 1 as [|f cols Hf Hcols IH]; [done|]. intros _.
  destruct f as [| |name|]; try done.
  destruct Hf as (z & Hz & Hz0).
  unfold largestIndex. cbn [foldr Js.specToString]. fold (largestIndex cols).
  rewrite Hz. cbn [default]. unfold id. rewrite filter_cons.
  cbn [resolves nameResolves]. rewrite Hz.
  destruct (decide (z < Z.of_nat (length cells))%Z) as [Hlt|Hge].
  - replace ((0 <=? z)%Z && (z <? Z.of_nat (length cells))%Z) with true
      by (symmetry; apply andb_true_iff; split; [apply Z.leb_le|apply Z.ltb_lt]; lia).
    rewrite decide_False by done.
    destruct cols as [|g cols].
    + cbn. split; [lia|done].
    + rewrite <- IH by done. lia.
  - replace ((0 <=? z)%Z && (z <? Z.of_nat (length cells))%Z) with false
      by (symmetry; apply andb_false_iff; right; apply Z.ltb_ge; lia).
    rewrite decide_True by done. split; [done|lia].
Qed.

Lemma validateColumns_positional cells cols dataType :
  plainIdentifiers (RArray cells) cols ->
  validateColumns (RArray cells) cols dataType
  = match unresolved (RArray cells) cols with
    | [] => Ok ()
    | _ => Throw (schemaMessage dataType (RArray cells) cols)
    end.
Proof.
  intros Hplain. unfold validateColumns, schemaMessage.
  destruct (mathMax_indices _ _ Hplain) as [-> _].
  destruct cols as [|f cols]; [done|].
  assert (f :: cols <> []) as Hne by done.
  pose proof (largestIndex_unresolved _ _ Hplain Hne) as Hiff.
  destruct (Z.leb_spec (Z.of_nat (length cells)) (largestIndex (f :: cols))) as [Hle|Hlt].
  - apply Hiff in Hle. by destruct (unresolved _ _).
  - destruct (unresolved _ _) eqn:E; [done|].
    assert (Z.of_nat (length cells) <= largestIndex (f :: cols))%Z; [|lia].
    by apply Hiff.
Qed.

Lemma validateColumns_plain r cols dataType :
  plainIdentifiers r cols ->
  validateColumns r cols dataType
  = match unresolved r cols with
    | [] => Ok ()
    | _ => Throw (schemaMessage dataType r cols)
    end.
Proof.
  destruct r; [apply validateColumns_positional|apply validateColumns_keyed].
Qed.

Lemma unresolved_nonempty r cols :
  unresolved r cols <> [] <-> exists f, f ∈ cols /\ resolves r f = false.
Proof.
  unfold unresolved. split.
  - destruct (filter _ cols) as [|f l] eqn:E; [done|]. intros _.
    assert (f ∈ filter (fun f => resolves r f = false) cols) as Hin
        by (rewrite E; left).
    apply list_elem_of_filter in Hin as [? ?]. eauto.
  - intros (f & Hin & Hf) E.
    assert (f ∈ filter (fun f => resolves r f = false) cols) as Hin'
        by (by apply list_elem_of_filter).
    rewrite E in Hin'. by apply elem_of_nil in Hin'.
Qed.

End Schema.

(** ** Records without a player name *)

Section Skipping.





Lemma matchesOf_cons maps m i r l :
  matchesOf maps m ((i, r) :: l)
  = match lookupMatch maps m r with
    | Some (a, t) =>
        {| ibwPlayer := r; fantraxData := a; matchType := t; ibwIndex := i |}
          :: matchesOf maps m l
    | None => matchesOf maps m l
    end.
Proof.
  unfold matchesOf. cbn [omap list_omap]. unfold matchOf at 1. cbn [fst snd].
  by destruct (lookupMatch maps m r) as [[a t]|].
Qed.









End Skipping.

(** ** Changing the team of dataset B *)

Section TeamChange.

Variables (mA mB : RoleMap) (A : list Record).

Lemma exact_Some k a :
  exact (createPlayerMaps A mA) !! k = Some a ->
  a ∈ A /\ named mA a = true /\ fullKey mA a = k.
Proof.
  rewrite createPlayerMaps_exact. unfold findLast. intros [Hin Hb]%find_some.
  apply in_rev, list_elem_of_In in Hin.
  unfold bindsExact in Hb. apply andb_true_iff in Hb as [Hn Hk].
  by apply bool_decide_eq_true in Hk.
Qed.

Lemma nameOnly_is_Some k a :
  a ∈ A -> named mA a = true -> nameOnlyKey mA a = k ->
  is_Some (nameOnly (createPlayerMaps A mA) !! k).
Proof.
  intros Hin Hn Hk. rewrite createPlayerMaps_nameOnly. unfold findFirst.
  destruct (find _ A) as [x|] eqn:E; [by eexists|].
  apply list_elem_of_In in Hin.
  pose proof (find_none _ _ E a Hin) as Hb. unfold bindsNameOnly in Hb.
  rewrite Hn, bool_decide_true in Hb by done. done.
Qed.

Lemma collide_false a b :
  a ∈ A -> forallb (fun a => negb (collide mA a mB b)) A = true ->
  named mA a = true -> named mB b = true -> fullKey mB b = fullKey mA a ->
  nameOnlyKey mB b = nameOnlyKey mA a /\ normalizedTeam mB b = normalizedTeam mA a.
Proof.
  intros Hin Hall Ha Hb Hk. apply list_elem_of_In in Hin.
  rewrite forallb_forall in Hall. specialize (Hall a Hin).
  unfold collide in Hall. rewrite Ha, Hb, bool_decide_true in Hall by done.
  simpl in Hall. apply negb_true_iff, negb_false_iff, andb_true_iff in Hall as [H1 H2].
  split; by eapply bool_decide_eq_true.
Qed.

(** The two lookups on a record with its team replaced. *)
Lemma lookupMatch_teamReplaced team b b' :
  teamAbsent mA A team = true ->
  forallb (fun a => negb (collide mA a mB b)) A = true ->
  forallb (fun a => negb (collide mA a mB b')) A = true ->
  teamReplaced mB team b b' ->
  lookupMatch (createPlayerMaps A mA) mB b'
  = match lookupMatch (createPlayerMaps A mA) mB b with
    | Some _ =>
        (fun a => (a, MNameOnly)) <$> nameOnly (createPlayerMaps A mA) !! nameOnlyKey mB b
    | None => None
    end
  /\ (is_Some (lookupMatch (createPlayerMaps A mA) mB b)
      -> is_Some (nameOnly (createPlayerMaps A mA) !! nameOnlyKey mB b)).
Proof.
  intros Habs Hb Hb' [Hname Hteam].
  assert (named mB b' = named mB b) as Hnamed by (unfold named; by rewrite Hname).
  assert (nameOnlyKey mB b' = nameOnlyKey mB b) as Hkey
      by (unfold nameOnlyKey; by rewrite Hname).
  unfold lookupMatch. rewrite Hnamed, Hkey.
  destruct (named mB b) eqn:Hn; [|split; [done|by intros [? ?]]].
  assert (exact (createPlayerMaps A mA) !! fullKey mB b' = None) as ->.
  { destruct (exact _ !! fullKey mB b') as [a|] eqn:E; [|done]. exfalso.
    apply exact_Some in E as (Hin & Ha & Hk).
    destruct (collide_false a b' Hin Hb' Ha) as [_ Ht]; [congruence|done|].
    apply list_elem_of_In in Hin. unfold teamAbsent in Habs.
    rewrite forallb_forall in Habs. specialize (Habs a Hin).
    unfold normalizedTeam in Ht at 1. rewrite Hteam in Ht.
    rewrite Ha, bool_decide_true in Habs by done. done. }
  destruct (exact (createPlayerMaps A mA) !! fullKey mB b) as [a|] eqn:E.
  - apply exact_Some in E as (Hin & Ha & Hk).
    destruct (collide_false a b Hin Hb Ha Hn) as [Hnk _]; [done|].
    destruct (nameOnly_is_Some (nameOnlyKey mB b) a Hin Ha) as [a' Ha']; [done|].
    rewrite Ha'. split; [done|by eexists].
  - destruct (nameOnly _ !! nameOnlyKey mB b) as [a'|]; split; done.
Qed.

Lemma matchesOf_teamReplaced team B B' i :
  teamAbsent mA A team = true ->
  collisionFree mA A mB B = true ->
  collisionFree mA A mB B' = true ->
  Forall2 (teamReplaced mB team) B B' ->
  countExact (matchesOf (createPlayerMaps A mA) mB (enumerateFrom i B')) = 0
  /\ ibwIndex <$> matchesOf (createPlayerMaps A mA) mB (enumerateFrom i B')
     = ibwIndex <$> matchesOf (createPlayerMaps A mA) mB (enumerateFrom i B).
Proof.
  intros Habs HB HB' HF. revert i HB HB'.
  induction HF as [|b b' B B' Hbb' _ IH]; intros i HB HB'; [done|].
  unfold collisionFree in HB, HB'. cbn [forallb] in HB, HB'.
  apply andb_true_iff in HB as [Hb HB]. apply andb_true_iff in HB' as [Hb' HB'].
  destruct (IH (S i) HB HB') as [IH1 IH2].
  destruct (lookupMatch_teamReplaced team b b' Habs Hb Hb' Hbb') as [Hl Hs].
  cbn [enumerateFrom]. rewrite !matchesOf_cons, Hl.
  destruct (lookupMatch _ mB b) as [[a t]|].
  - destruct Hs as [a' ->]; [by eexists|]. cbn [fmap option_fmap option_map].
    rewrite !fmap_cons, IH2. split; [|done].
    unfold countExact in *. cbn [List.filter isExact matchType]. exact IH1.
  - done.
Qed.

End TeamChange.

(** ** The field accessor returns trimmed strings *)

Lemma trimmed_empty : trimmed "".
Proof. by split. Qed.

Lemma firstPresent_trimmed obj names : trimmed (firstPresent obj names).
Proof.
  induction names as [|name names IH]; cbn [firstPresent]; [apply trimmed_empty|].
  destruct (Js.present _); [apply trimmed_trim|done].
Qed.

Lemma getFieldValue_is_trimmed obj fieldName : trimmed (getFieldValue obj fieldName).
Proof.
  unfold getFieldValue.
  destruct fieldName; try apply firstPresent_trimmed;
    (destruct (Js.present _); [apply trimmed_trim|apply trimmed_empty]).
Qed.

(** ** Claims on [createMatchKey] *)

(** C1, evaluated on the code.  The claim wants a team passed as the
    empty string to give the suffixed key [name_], and an omitted team
    the bare key.  In [createMatchKey] the empty string is falsy, so the
    separator test fails for it as it does for the default value: for
    every name the key with [team = ""] is the bare key, the same as with
    the team omitted.  On the record [{Player: "Test Player", Team: ""}]
    of the repository's own test the exact index therefore holds
    ["test player"], and not the key ["test player_"] that the test
    expects. *)
Theorem createMatchKey_empty_team_is_bare :
  (forall name,
      createMatchKey name (Some "") = toLowerCase (trim name)
      /\ createMatchKey name None = toLowerCase (trim name))
  /\ createMatchKey "Test Player" (Some "") = "test player"
  /\ exact (createPlayerMaps playersWithoutTeam
              [("player", FName "Player"); ("team", FName "Team")])
       !! "test player_" = None
  /\ is_Some (exact (createPlayerMaps playersWithoutTeam
                       [("player", FName "Player"); ("team", FName "Team")])
                !! "test player").
Proof.
  split; [intros name; split; reflexivity|].
  split; [reflexivity|].
  split; [vm_compute; reflexivity|].
  vm_compute. eexists. reflexivity.
Qed.

(** C7.  [createMatchKey] is idempotent: normalizing a key it produced
    (as a name, no team) gives the same key, for every name and every
    team, passed or omitted.  It does not see the case or the outer
    white space of the name.  On the examples of the specification:
    [createMatchKey(" Juan Soto ", " nyy ")] and
    [createMatchKey("JUAN SOTO", "NYY")] are both ["juan soto_nyy"], and
    [createMatchKey("Juan Soto")] is ["juan soto"]. *)
Theorem createMatchKey_idempotent :
  (forall name team,
      createMatchKey (createMatchKey name team) None = createMatchKey name team)
  /\ (forall name team,
      createMatchKey (trim name) team = createMatchKey name team)
  /\ (forall name team,
      createMatchKey (toLowerCase name) (toLowerCase <$> team) = createMatchKey name team)
  /\ createMatchKey " Juan Soto " (Some " nyy ") = "juan soto_nyy"
  /\ createMatchKey "JUAN SOTO" (Some "NYY") = "juan soto_nyy"
  /\ createMatchKey "Juan Soto" None = "juan soto".
Proof.
  repeat split.
  - intros name team. rewrite createMatchKey_omitted.
    rewrite (trim_trimmed _ (createMatchKey_trimmed name team)).
    apply createMatchKey_lower.
  - intros name team. unfold createMatchKey. by rewrite trim_idem.
  - intros name team. unfold createMatchKey.
    destruct team as [team|]; simpl.
    + rewrite <- !toLowerCase_trim, !toLowerCase_idem.
      by destruct team.
    + by rewrite <- !toLowerCase_trim, !toLowerCase_idem.
Qed.




(** ** Claims on [createPlayerMaps] and [findMatches] *)

(** C3.  Whenever [findMatches] returns, [stats.totalMatches] is
    [stats.exactMatches + stats.nameOnlyMatches] and is the number of
    returned matches; no two matches carry the same dataset-B position,
    so a dataset-B record contributes at most one match, and every match
    holds the dataset-B record found at its position. *)
Theorem findMatches_totals fantraxPlayers ibwPlayers columnMapping result :
  findMatches fantraxPlayers ibwPlayers columnMapping = Ok result ->
  totalMatches (stats result)
  = exactMatches (stats result) + nameOnlyMatches (stats result)
  /\ length (matches result) = totalMatches (stats result)
  /\ NoDup (ibwIndex <$> matches result)
  /\ (forall x, x ∈ matches result ->
        rowsOf ibwPlayers !! ibwIndex x = Some (ibwPlayer x)).
Proof.
  rewrite findMatches_unfold.
  destruct (validationError _ _ _); [done|].
  intros [= <-]. unfold matchResultOf. cbn [matches stats totalMatches exactMatches nameOnlyMatches].
  split; [apply count_partition|]. split; [done|]. split.
  - eapply sublist_NoDup; [|apply matchesOf_index_sublist].
    unfold enumerate. rewrite enumerateFrom_fst. apply NoDup_seq.
  - intros x Hx. apply matchesOf_elem in Hx as [Hin _].
    apply enumerateFrom_lookup in Hin as [_ Hl].
    by rewrite Nat.sub_0_r in Hl.
Qed.

(** C4.  A dataset that is not an array, or is the empty array, makes
    [findMatches] raise the validation error that names it: "Fantrax
    players ..." for the first dataset, whatever the second is, and "IBW
    players ..." for the second one when the first is a non-empty array.
    The call then returns no result at all, whatever the mapping. *)
Theorem findMatches_validation (other : Dataset) (first : Record) (rest : list Record)
    (columnMapping : ColumnMapping) :
  findMatches NotAnArray other columnMapping
  = Throw "Fantrax players must be a non-empty array"
  /\ findMatches (Rows []) other columnMapping
     = Throw "Fantrax players must be a non-empty array"
  /\ findMatches (Rows (first :: rest)) NotAnArray columnMapping
     = Throw "IBW players must be a non-empty array"
  /\ findMatches (Rows (first :: rest)) (Rows []) columnMapping
     = Throw "IBW players must be a non-empty array".
Proof. repeat split. Qed.

(** C5.  For every dataset, role mapping and key: the name-only index
    binds the key to the first record of the dataset that has a name and
    that name-only key, so later records with the same name never replace
    it; the exact index binds the key to the last record that has a name
    and that full key, a later duplicate replacing the earlier ones. *)
Theorem createPlayerMaps_duplicates (fantraxPlayers : list Record) (mapping : RoleMap)
    (key : string) :
  nameOnly (createPlayerMaps fantraxPlayers mapping) !! key
  = findFirst (bindsNameOnly mapping key) fantraxPlayers
  /\ exact (createPlayerMaps fantraxPlayers mapping) !! key
     = findLast (bindsExact mapping key) fantraxPlayers.
Proof.
  split; [apply createPlayerMaps_nameOnly|apply createPlayerMaps_exact].
Qed.

Lemma findMatches_totals_witness :
  let result := matchResultOf sampleFantrax sampleIBW (mergeMapping noMapping) in
  totalMatches (stats result)
  = exactMatches (stats result) + nameOnlyMatches (stats result)
  /\ length (matches result) = totalMatches (stats result)
  /\ NoDup (ibwIndex <$> matches result)
  /\ (forall x, x ∈ matches result ->
        rowsOf (Rows sampleIBW) !! ibwIndex x = Some (ibwPlayer x)).
Proof.
  apply (findMatches_totals (Rows sampleFantrax) (Rows sampleIBW) noMapping).
  vm_compute. reflexivity.
Defined.

(** On [duplicateFantrax] the name-only key of Juan Soto is bound to the
    first of the three records, and the full key with team NYY to the
    third, which replaced the first. *)
Example createPlayerMaps_duplicates_example :
  nameOnly (createPlayerMaps duplicateFantrax (fantrax defaultMapping)) !! "juan soto"
  = Some (player "1" "Juan Soto" "NYY" "OF" "25")
  /\ exact (createPlayerMaps duplicateFantrax (fantrax defaultMapping)) !! "juan soto_nyy"
     = Some (player "8" "Juan Soto" "NYY" "OF" "26")
  /\ exact (createPlayerMaps duplicateFantrax (fantrax defaultMapping)) !! "juan soto_was"
     = Some (player "7" "Juan Soto" "WAS" "OF" "25").
Proof. repeat split; vm_compute; reflexivity. Qed.

(** ** Claims on the schema check *)

(** C2, evaluated on the code.  Two datasets of positional rows and the
    default mapping: the required identifier ["Player"] names no
    position of the first row (and the field accessor finds nothing
    under it), so the claim has [findMatches] raise a schema error.
    [validateColumns] raises nothing, because [parseInt("Player", 10)]
    is [NaN], [Math.max] of the indices is [NaN], and [NaN >= length] is
    false.  [findMatches] returns a result with no match: the
    equivalence between "raises a schema error" and "a required
    identifier does not resolve on the first record" fails on this
    input. *)
Lemma findMatches_schema_counterexample :
  FName "Player" ∈ requiredColumns (fantrax (mergeMapping noMapping))
  /\ resolves sampleRow (FName "Player") = false
  /\ getFieldValue sampleRow (FName "Player") = ""
  /\ findMatches (Rows [sampleRow]) (Rows [sampleRow]) noMapping
     = Ok {| matches := [];
             stats := {| exactMatches := 0; nameOnlyMatches := 0; totalMatches := 0;
                         totalIBWPlayers := 1 |};
             columnMapping := defaultMapping |}
  /\ ~ ((exists e, findMatches (Rows [sampleRow]) (Rows [sampleRow]) noMapping = Throw e)
        <-> (exists f, f ∈ requiredColumns (fantrax (mergeMapping noMapping))
                       /\ resolves sampleRow f = false)
            \/ (exists f, f ∈ requiredColumns (ibw (mergeMapping noMapping))
                          /\ resolves sampleRow f = false)).
Proof.
  assert (FName "Player" ∈ requiredColumns (fantrax (mergeMapping noMapping))) as Hin
      by (vm_compute; left).
  split; [exact Hin|]. split; [reflexivity|]. split; [reflexivity|].
  split; [vm_compute; reflexivity|].
  intros [_ Hthrow].
  destruct Hthrow as [e He]; [left; exists (FName "Player"); by split|].
  vm_compute in He. discriminate He.
Qed.

(** ** The schema check on single identifiers *)

(** X28.  Let both datasets be non-empty arrays, and let every role
    value that is not [null] in the merged mapping be a single
    identifier — on a positional first record, a non-negative decimal
    index.  Then [findMatches] raises an error if and only if one of
    these identifiers names no column of the first record of its dataset
    (no own key of a keyed record, no position below the length of a
    positional one).  The Fantrax dataset is checked first.  The message
    lists, for a keyed record, the unresolved identifiers in the order
    of the roles and all keys of the record (when no role name of the
    caller's mapping begins with a digit); for a positional record it
    names the largest configured index (when it is a safe integer) and
    the range of positions [0-(length-1)]. *)
Theorem findMatches_schema_error (fantrax0 : Record) (fantraxRest : list Record)
    (ibw0 : Record) (ibwRest : list Record) (columnMapping : ColumnMapping) :
  plainIdentifiers fantrax0 (requiredColumns (fantrax (mergeMapping columnMapping))) ->
  plainIdentifiers ibw0 (requiredColumns (ibw (mergeMapping columnMapping))) ->
  ((exists e, findMatches (Rows (fantrax0 :: fantraxRest)) (Rows (ibw0 :: ibwRest))
                columnMapping = Throw e)
   <-> (exists f, f ∈ requiredColumns (fantrax (mergeMapping columnMapping))
                  /\ resolves fantrax0 f = false)
       \/ (exists f, f ∈ requiredColumns (ibw (mergeMapping columnMapping))
                     /\ resolves ibw0 f = false))
  /\ (unresolved fantrax0 (requiredColumns (fantrax (mergeMapping columnMapping))) <> [] ->
      messageRange (cm_fantrax columnMapping) fantrax0
        (requiredColumns (fantrax (mergeMapping columnMapping))) ->
      findMatches (Rows (fantrax0 :: fantraxRest)) (Rows (ibw0 :: ibwRest)) columnMapping
      = Throw (schemaMessage "Fantrax" fantrax0
                 (requiredColumns (fantrax (mergeMapping columnMapping)))))
  /\ (unresolved fantrax0 (requiredColumns (fantrax (mergeMapping columnMapping))) = [] ->
      unresolved ibw0 (requiredColumns (ibw (mergeMapping columnMapping))) <> [] ->
      messageRange (cm_ibw columnMapping) ibw0
        (requiredColumns (ibw (mergeMapping columnMapping))) ->
      findMatches (Rows (fantrax0 :: fantraxRest)) (Rows (ibw0 :: ibwRest)) columnMapping
      = Throw (schemaMessage "IBW" ibw0
                 (requiredColumns (ibw (mergeMapping columnMapping))))).
Proof.
  intros HA HB.
  rewrite findMatches_unfold. unfold validationError. cbn [nonEmptyArray].
  rewrite (validateColumns_plain _ _ "Fantrax" HA), (validateColumns_plain _ _ "IBW" HB).
  rewrite <- !unresolved_nonempty.
  destruct (unresolved fantrax0 _) as [|fa la] eqn:EA.
  - destruct (unresolved ibw0 _) as [|fb lb] eqn:EB.
    + split; [|by split]. split; [by intros [e ?]|by intros [?|?]].
    + split; [|by split]. split; [by right|by eexists].
  - split; [|by split]. split; [by left|by eexists].
Qed.

Lemma findMatches_schema_error_witness :
  findMatches (Rows [shortPlayer]) (Rows sampleIBW) noMapping
  = Throw "Missing required columns in Fantrax data: Position, Age. Available columns: Number, Player, Team".
Proof.
  refine (proj1 (proj2 (findMatches_schema_error shortPlayer []
                          (player "1" "Ronald Acuna Jr." "ATL" "OF" "26.2")
                          [player "2" "Mike Trout" "LAA" "OF" "32.5"] noMapping _ _)) _ _).
  - vm_compute. repeat constructor.
  - vm_compute. repeat constructor.
  - vm_compute. discriminate.
  - vm_compute. constructor.
Defined.

(** Positional rows with index identifiers: the row has three cells, so
    the indices 0, 1 and 2 resolve; a row of two cells raises the error
    that names the largest index. *)
Example findMatches_positional_schema :
  statsOf (findMatches (Rows sampleFantrax) (Rows [sampleRow]) indexMapping)
  = Some {| exactMatches := 0; nameOnlyMatches := 0; totalMatches := 0;
            totalIBWPlayers := 1 |}
  /\ findMatches (Rows sampleFantrax) (Rows [RArray [VString "1"; VString "Juan Soto"]])
       indexMapping
     = Throw "Missing required columns in IBW data: column index 2 not found. Available columns: 0-1".
Proof. split; vm_compute; reflexivity. Qed.

(** ** Claims on records without a player name *)




(** ** Claims on changing the team of dataset B *)

(** C6, counterexample.  Dataset A holds the player ["Kim_Lee"] of team
    ["SD"], dataset B the player ["Kim"] of team ["Lee_SD"]: both full
    keys are ["kim_lee_sd"], so the call reports one exact match.
    Replacing the team of the dataset-B record by ["ZZZ"], a team absent
    from dataset A, introduces no collision, but the record then matches
    nothing: its full key ["kim_zzz"] is not in the exact index and its
    name key ["kim"] is not in the name-only index, which holds
    ["kim_lee"].  The total goes from 1 to 0 instead of staying the
    same. *)
Lemma team_change_counterexample :
  Forall2 (teamReplaced (ibw (mergeMapping noMapping)) "ZZZ") separatorIBW separatorIBWChanged
  /\ teamAbsent (fantrax (mergeMapping noMapping)) separatorFantrax "ZZZ" = true
  /\ collisionFree (fantrax (mergeMapping noMapping)) separatorFantrax
       (ibw (mergeMapping noMapping)) separatorIBWChanged = true
  /\ findMatches (Rows separatorFantrax) (Rows separatorIBW) noMapping
     = Ok {| matches := [{| ibwPlayer := player "1" "Kim" "Lee_SD" "OF" "24";
                            fantraxData := player "7" "Kim_Lee" "SD" "OF" "24";
                            matchType := MExact; ibwIndex := 0 |}];
             stats := {| exactMatches := 1; nameOnlyMatches := 0; totalMatches := 1;
                         totalIBWPlayers := 1 |};
             columnMapping := defaultMapping |}
  /\ findMatches (Rows separatorFantrax) (Rows separatorIBWChanged) noMapping
     = Ok {| matches := [];
             stats := {| exactMatches := 0; nameOnlyMatches := 0; totalMatches := 0;
                         totalIBWPlayers := 1 |};
             columnMapping := defaultMapping |}.
Proof.
  split; [repeat constructor|].
  repeat split; vm_compute; reflexivity.
Qed.

(** C6, amended.  Let [findMatches] return on datasets A and B and on A
    and B', where B' is B with the resolved team of every record replaced
    by [team] (the resolved player names unchanged).  If no named record
    of dataset A has the normalized form of [team] as its normalized
    team, and neither B nor B' has a key collision with dataset A (equal
    full keys built from different names or teams), then the second call
    reports no exact match, as many name-only matches as the first call
    had matches in total, the same total and the same number of
    dataset-B records; its matches are all name-only and sit at the same
    dataset-B positions as the matches of the first call. *)
Theorem team_change_shifts_matches (A B B' : list Record) (config : ColumnMapping)
    (team : string) (result result' : MatchResult) :
  findMatches (Rows A) (Rows B) config = Ok result ->
  findMatches (Rows A) (Rows B') config = Ok result' ->
  Forall2 (teamReplaced (ibw (mergeMapping config)) team) B B' ->
  teamAbsent (fantrax (mergeMapping config)) A team = true ->
  collisionFree (fantrax (mergeMapping config)) A (ibw (mergeMapping config)) B = true ->
  collisionFree (fantrax (mergeMapping config)) A (ibw (mergeMapping config)) B' = true ->
  exactMatches (stats result') = 0
  /\ nameOnlyMatches (stats result') = totalMatches (stats result)
  /\ totalMatches (stats result') = totalMatches (stats result)
  /\ totalIBWPlayers (stats result') = totalIBWPlayers (stats result)
  /\ Forall (fun x => matchType x = MNameOnly) (matches result')
  /\ ibwIndex <$> matches result' = ibwIndex <$> matches result.
Proof.
  rewrite !findMatches_unfold.
  destruct (validationError _ (Rows B) _); [done|].
  destruct (validationError _ (Rows B') _); [done|].
  intros [= <-] [= <-] HF Habs HB HB'.
  destruct (matchesOf_teamReplaced _ _ _ team B B' 0 Habs HB HB' HF) as [Hex Hidx].
  unfold matchResultOf. cbn [rowsOf matches stats exactMatches nameOnlyMatches
    totalMatches totalIBWPlayers]. fold (enumerate B) in *. fold (enumerate B') in *.
  set (found' := matchesOf _ _ (enumerate B')) in *.
  set (found := matchesOf _ _ (enumerate B)) in *.
  assert (length found' = length found) as Hlen
      by (rewrite <- (length_fmap ibwIndex found'), Hidx; apply length_fmap).
  pose proof (count_partition found') as Hpart.
  repeat split; try done; try lia.
  - by apply Forall2_length in HF.
  - clear -Hex. unfold countExact in Hex. induction found' as [|x l IH]; [done|].
    cbn [List.filter] in Hex. unfold isExact in Hex at 1.
    destruct (matchType x) eqn:E; [done|]. constructor; [done|]. by apply IH.
Qed.

Lemma team_change_shifts_matches_witness :
  exactMatches (stats (matchResultOf sampleFantrax sampleIBWDifferent defaultMapping)) = 0
  /\ nameOnlyMatches (stats (matchResultOf sampleFantrax sampleIBWDifferent defaultMapping))
     = totalMatches (stats (matchResultOf sampleFantrax sampleIBW defaultMapping))
  /\ totalMatches (stats (matchResultOf sampleFantrax sampleIBWDifferent defaultMapping))
     = totalMatches (stats (matchResultOf sampleFantrax sampleIBW defaultMapping))
  /\ totalIBWPlayers (stats (matchResultOf sampleFantrax sampleIBWDifferent defaultMapping))
     = totalIBWPlayers (stats (matchResultOf sampleFantrax sampleIBW defaultMapping))
  /\ Forall (fun x => matchType x = MNameOnly)
       (matches (matchResultOf sampleFantrax sampleIBWDifferent defaultMapping))
  /\ ibwIndex <$> matches (matchResultOf sampleFantrax sampleIBWDifferent defaultMapping)
     = ibwIndex <$> matches (matchResultOf sampleFantrax sampleIBW defaultMapping).
Proof.
  apply (team_change_shifts_matches sampleFantrax sampleIBW sampleIBWDifferent noMapping
           "DIFFERENT").
  - vm_compute. reflexivity.
  - vm_compute. reflexivity.
  - repeat constructor.
  - vm_compute. reflexivity.
  - vm_compute. reflexivity.
  - vm_compute. reflexivity.
Defined.

(** The end-to-end scenario of the specification: two exact matches, and
    two name-only matches once the teams of dataset B are ["DIFFERENT"]. *)
Example end_to_end_scenario :
  statsOf (findMatches (Rows sampleFantrax) (Rows sampleIBW) noMapping)
  = Some {| exactMatches := 2; nameOnlyMatches := 0; totalMatches := 2;
            totalIBWPlayers := 2 |}
  /\ statsOf (findMatches (Rows sampleFantrax) (Rows sampleIBWDifferent) noMapping)
     = Some {| exactMatches := 0; nameOnlyMatches := 2; totalMatches := 2;
               totalIBWPlayers := 2 |}.
Proof. split; vm_compute; reflexivity. Qed.

(** ** The store: what [findMatches] writes *)

Module HeapFacts.

Import Heap.

Create HintDb readonly discriminated.

Section Rules.

Context {A B : Type}.

Lemma wp_ret (a : A) Q E σ : Q a σ -> wp (ret a) Q E σ.
Proof. done. Qed.

Lemma wp_bind (m : M A) (f : A -> M B) Q E σ :
  wp m (fun a σ' => wp (f a) Q E σ') E σ -> wp (bind m f) Q E σ.
Proof. unfold wp, bind. by destruct (m σ) as [[a| |] σ']. Qed.

Lemma wp_throw e (Q : A -> heap -> Prop) E σ : E σ -> wp (throw e) Q E σ.
Proof. done. Qed.

Lemma wp_stuck (Q : A -> heap -> Prop) E σ : E σ -> wp stuck Q E σ.
Proof. done. Qed.

Lemma wp_readonly (m : M A) Q E σ :
  readonly m -> E σ -> (forall a, Q a σ) -> wp m Q E σ.
Proof.
  intros Hm HE HQ. unfold wp. specialize (Hm σ).
  destruct (m σ) as [[a| |] σ']; simpl in Hm; subst σ'; auto.
Qed.

Lemma readonly_ret (a : A) : readonly (ret a).
Proof. done. Qed.

Lemma readonly_throw e : readonly (@throw A e).
Proof. done. Qed.

Lemma readonly_stuck : readonly (@stuck A).
Proof. done. Qed.

Lemma readonly_bind (m : M A) (f : A -> M B) :
  readonly m -> (forall a, readonly (f a)) -> readonly (bind m f).
Proof.
  intros Hm Hf σ. unfold bind. specialize (Hm σ).
  destruct (m σ) as [[a| |] σ']; simpl in *; subst σ'; [apply Hf|done|done].
Qed.

End Rules.

Lemma readonly_load l : readonly (load l).
Proof. intros σ. unfold load. by destruct (σ !! l). Qed.

Lemma wp_alloc o (Q : loc -> heap -> Prop) E σ :
  Q (length σ) (σ ++ [o]) -> wp (alloc o) Q E σ.
Proof. done. Qed.

Lemma wp_store l o (Q : unit -> heap -> Prop) E σ :
  Q () (<[l := o]> σ) -> wp (store l o) Q E σ.
Proof. done. Qed.

#[local] Hint Resolve readonly_ret readonly_throw readonly_stuck readonly_load : readonly.

(** Proves [readonly] for a computation built from reads. *)
Ltac readonly :=
  repeat first
    [ progress auto with readonly
    | apply readonly_bind; [|intros ?]
    | match goal with
      | |- readonly (match ?x with _ => _ end) => destruct x
      | |- readonly (if ?b then _ else _) => destruct b
      end ].

Lemma readonly_mapM {A B} (f : A -> M B) l :
  (forall x, readonly (f x)) -> readonly (mapM f l).
Proof. intros Hf. induction l as [|x l IH]; simpl; readonly. Qed.

Lemma readonly_isArray v : readonly (isArray v).
Proof. unfold isArray. readonly. Qed.

Lemma readonly_elements v : readonly (elements v).
Proof. unfold elements. readonly. Qed.

Lemma readonly_properties v : readonly (properties v).
Proof. unfold properties. readonly. Qed.

#[local] Hint Resolve readonly_isArray readonly_elements readonly_properties : readonly.

Lemma readonly_getProp v name : readonly (getProp v name).
Proof. unfold getProp. readonly. Qed.

Lemma readonly_spreadSource v : readonly (spreadSource v).
Proof. unfold spreadSource. readonly. Qed.

Lemma readonly_scalarString v : readonly (scalarString v).
Proof. unfold scalarString. readonly. Qed.

#[local] Hint Resolve readonly_getProp readonly_spreadSource readonly_scalarString : readonly.

Lemma readonly_joinItem v : readonly (joinItem v).
Proof. unfold joinItem. readonly. Qed.

#[local] Hint Resolve readonly_joinItem : readonly.

Lemma readonly_identifierString v : readonly (identifierString v).
Proof. unfold identifierString. readonly. apply readonly_mapM. auto with readonly. Qed.

#[local] Hint Resolve readonly_identifierString : readonly.

Lemma readonly_joinIdentifier v : readonly (joinIdentifier v).
Proof. unfold joinIdentifier. readonly. Qed.

Lemma readonly_mapHas m k : readonly (mapHas m k).
Proof. unfold mapHas. readonly. Qed.

Lemma readonly_mapGet m k : readonly (mapGet m k).
Proof. unfold mapGet. readonly. Qed.

Lemma readonly_lookupField obj name : readonly (lookupField obj name).
Proof. unfold lookupField. readonly. Qed.

Lemma readonly_fieldString v : readonly (fieldString v).
Proof. unfold fieldString. readonly. Qed.

#[local] Hint Resolve readonly_joinIdentifier readonly_mapHas readonly_mapGet
  readonly_lookupField readonly_fieldString : readonly.

Lemma readonly_firstPresent obj names : readonly (firstPresent obj names).
Proof. induction names as [|name rest IH]; simpl; readonly. Qed.

#[local] Hint Resolve readonly_firstPresent : readonly.

Lemma readonly_getFieldValue obj fieldName : readonly (getFieldValue obj fieldName).
Proof. unfold getFieldValue. readonly. Qed.

Lemma readonly_validateColumns sampleRecord cols dataType :
  readonly (validateColumns sampleRecord cols dataType).
Proof.
  unfold validateColumns. readonly; apply readonly_mapM; intros; readonly.
Qed.

Lemma readonly_nonEmptyArray d : readonly (nonEmptyArray d).
Proof. unfold nonEmptyArray. readonly. Qed.

Lemma readonly_requiredColumns m : readonly (requiredColumns m).
Proof. unfold requiredColumns. readonly. Qed.

#[local] Hint Resolve readonly_getFieldValue readonly_validateColumns
  readonly_nonEmptyArray readonly_requiredColumns : readonly.

(** *** Frames *)

Lemma frame_refl σ : frame (length σ) σ σ.
Proof. by repeat split. Qed.

Lemma frame_alloc n σ0 σ o : frame n σ0 σ -> frame n σ0 (σ ++ [o]).
Proof.
  intros (Hn & Hlen & Hl). repeat split; [done|rewrite length_app; simpl; lia|].
  intros l Hlt. rewrite lookup_app_l by lia. by apply Hl.
Qed.

Lemma frame_store n σ0 σ l o : frame n σ0 σ -> n <= l -> frame n σ0 (<[l := o]> σ).
Proof.
  intros (Hn & Hlen & Hl) Hle. repeat split; [done|by rewrite length_insert|].
  intros l' Hlt. rewrite list_lookup_insert_ne by lia. by apply Hl.
Qed.

Lemma frame_trans n σ0 m σ1 σ2 :
  n <= m -> frame n σ0 σ1 -> frame m σ1 σ2 -> frame n σ0 σ2.
Proof.
  intros Hnm (Hn & Hlen & Hl) (Hm & Hlen' & Hl'). repeat split; [done|lia|].
  intros l Hlt. rewrite Hl' by lia. by apply Hl.
Qed.

Lemma frame_weaken n m σ0 σ : n <= m -> frame m σ0 σ -> frame n σ0 σ.
Proof.
  intros Hnm (Hm & Hlen & Hl). repeat split; [lia|done|].
  intros l Hlt. apply Hl. lia.
Qed.

Lemma frame_lookup n σ0 σ l o : frame n σ0 σ -> l < n -> σ0 !! l = Some o -> σ !! l = Some o.
Proof. intros (_ & _ & Hl) Hlt Ho. by rewrite Hl. Qed.

Lemma frame_unchanged σ σ' : frame (length σ) σ σ' -> unchanged σ σ'.
Proof.
  intros Hf l o Ho. eapply frame_lookup; [done| |done].
  by apply lookup_lt_Some in Ho.
Qed.

(** *** Loops and writes *)

Lemma wp_forEachFrom {A} (f : A -> nat -> M unit) (I : heap -> Prop) l i
    (Q : unit -> heap -> Prop) E σ :
  (forall x j σ', I σ' -> wp (f x j) (fun _ => I) E σ') ->
  (forall σ', I σ' -> Q () σ') ->
  I σ -> wp (forEachFrom f l i) Q E σ.
Proof.
  intros Hbody HQ. revert i σ. induction l as [|x l IH]; intros i σ HI; simpl.
  - by apply wp_ret, HQ.
  - apply wp_bind. specialize (Hbody x i σ HI). unfold wp in *.
    destruct (f x i σ) as [[[]| |] σ']; [by apply IH|done|done].
Qed.

Lemma wp_writesTo l m (Q : unit -> heap -> Prop) E σ :
  writesTo l m -> E σ -> Q () σ -> (forall o, Q () (<[l := o]> σ)) -> wp m Q E σ.
Proof.
  intros Hm HE HQ HQ'. unfold wp. destruct (Hm σ) as [Heq|[o Heq]].
  - destruct (m σ) as [[[]| |] σ']; simpl in Heq; by subst σ'.
  - rewrite Heq. apply HQ'.
Qed.

Lemma writesTo_mapSet l k v : writesTo l (mapSet (Ref l) k v).
Proof.
  intros σ. unfold mapSet, bind, load.
  destruct (σ !! l) as [[| |entries]|]; simpl; eauto.
Qed.

Lemma writesTo_increment l name : writesTo l (increment (Ref l) name).
Proof.
  intros σ. unfold increment, properties, bind, load.
  destruct (σ !! l) as [[|props|]|]; simpl; eauto.
  destruct (lookupProp props name); simpl; eauto.
Qed.

Lemma push_spec l v σ :
  match σ !! l with
  | Some (Arr elems) => push (Ref l) v σ = (Return (), <[l := Arr (elems ++ [v])]> σ)
  | _ => push (Ref l) v σ = (Stuck, σ)
  end.
Proof.
  unfold push, elements, bind, load.
  by destruct (σ !! l) as [[| |]|].
Qed.

(** Steps of a proof by weakest precondition under an invariant [I] of
    the store. *)
Lemma wp_read {A B} (m : M A) (f : A -> M B) (I : heap -> Prop) Q E σ :
  readonly m ->
  (forall σ', I σ' -> E σ') ->
  I σ ->
  (forall a, wp (f a) Q E σ) ->
  wp (bind m f) Q E σ.
Proof.
  intros Hm HE HI Hf. apply wp_bind, wp_readonly; auto.
Qed.

Lemma wp_write {B} l (m : M unit) (f : unit -> M B) (I : heap -> Prop) Q E σ :
  writesTo l m ->
  (forall σ', I σ' -> E σ') ->
  I σ ->
  (forall o, I (<[l := o]> σ)) ->
  (forall σ', I σ' -> wp (f ()) Q E σ') ->
  wp (bind m f) Q E σ.
Proof.
  intros Hm HE HI HI' Hf. apply wp_bind, (wp_writesTo l); auto.
Qed.

Lemma wp_write_last l (m : M unit) (I : heap -> Prop) E σ :
  writesTo l m ->
  (forall σ', I σ' -> E σ') ->
  I σ ->
  (forall o, I (<[l := o]> σ)) ->
  wp m (fun _ => I) E σ.
Proof.
  intros Hm HE HI HI'. apply (wp_writesTo l); auto.
Qed.

(** [createPlayerMaps] leaves every object of the store it is called in
    as it is: it writes to the two [Map]s it allocates. *)
Lemma frame_length n σ0 σ' : frame n σ0 σ' -> n <= length σ'.
Proof. intros (? & ? & _). lia. Qed.

Lemma lookup_alloc (σ : heap) o : (σ ++ [o]) !! length σ = Some o.
Proof. by rewrite lookup_app_r, Nat.sub_diag by lia. Qed.

Lemma lookup_alloc_old (σ : heap) o l x : σ !! l = Some x -> (σ ++ [o]) !! l = Some x.
Proof. intros H. rewrite lookup_app_l; [done|]. by apply lookup_lt_Some in H. Qed.

Lemma wp_createPlayerMaps fantraxPlayers mapping (Q : val -> heap -> Prop) E σ :
  (forall v σ', frame (length σ) σ σ' -> freshMaps (length σ) v σ' -> Q v σ') ->
  (forall σ', frame (length σ) σ σ' -> E σ') ->
  wp (createPlayerMaps fantraxPlayers mapping) Q E σ.
Proof.
  intros HQ HE. unfold createPlayerMaps.
  apply wp_bind, wp_alloc. apply wp_bind, wp_alloc.
  set (exactMap := length σ). set (nameOnlyMap := length (σ ++ [MapObj ∅])).
  assert (length σ <= exactMap) as Hexact by done.
  assert (length σ <= nameOnlyMap) as HnameOnly
      by (unfold nameOnlyMap; rewrite length_app; lia).
  assert (frame (length σ) σ ((σ ++ [MapObj ∅]) ++ [MapObj ∅])) as Hframe
      by (do 2 apply frame_alloc; apply frame_refl).
  clearbody exactMap nameOnlyMap.
  apply (wp_read _ _ (frame (length σ) σ)); [readonly|done|done|intros records].
  apply wp_bind. unfold forEach.
  apply (wp_forEachFrom _ (frame (length σ) σ)); [|intros σ' HI|done].
  - clear Hframe. intros record j σ' HI. unfold indexRecord.
    apply (wp_read _ _ (frame (length σ) σ)); [readonly|done|done|intros player].
    apply (wp_read _ _ (frame (length σ) σ)); [readonly|done|done|intros playerName].
    apply (wp_read _ _ (frame (length σ) σ)); [readonly|done|done|intros team].
    apply (wp_read _ _ (frame (length σ) σ)); [readonly|done|done|intros teamValue].
    destruct (negb (truthy playerName)); [by apply wp_ret|].
    apply (wp_write exactMap _ _ (frame (length σ) σ));
      [apply writesTo_mapSet|done|done|intros; by apply frame_store|].
    clear σ' HI. intros σ' HI.
    apply (wp_read _ _ (frame (length σ) σ)); [readonly|done|done|intros known].
    destruct (negb known); [|by apply wp_ret].
    apply (wp_write_last nameOnlyMap _ (frame (length σ) σ));
      [apply writesTo_mapSet|done|done|intros; by apply frame_store].
  - apply wp_bind, wp_alloc, wp_ret, HQ; [by apply frame_alloc|].
    exists (length σ'), exactMap, nameOnlyMap.
    split; [done|]. split; [apply lookup_alloc|].
    split; [by apply frame_length in HI|done].
Qed.

(** *** The matching loop *)

Lemma matchesInv_alloc n σb σ' o : matchesInv n σb σ' -> matchesInv n σb (σ' ++ [o]).
Proof.
  intros (Hf & entries & Hm & Hfresh). split; [by apply frame_alloc|].
  exists entries. split; [|done].
  rewrite lookup_app_l; [done|]. by apply lookup_lt_Some in Hm.
Qed.

Lemma matchesInv_stats n σb σ' o :
  matchesInv n σb σ' -> matchesInv n σb (<[length σb := o]> σ').
Proof.
  intros (Hf & entries & Hm & Hfresh). split; [by apply frame_store|].
  exists entries. split; [|done]. by rewrite list_lookup_insert_ne by lia.
Qed.

Lemma matchesInv_push n σb σ' entries l :
  matchesInv n σb σ' ->
  σ' !! S (length σb) = Some (Arr entries) ->
  n <= l ->
  matchesInv n σb (<[S (length σb) := Arr (entries ++ [Ref l])]> σ').
Proof.
  intros (Hf & entries' & Hm & Hfresh) Hm' Hl.
  rewrite Hm in Hm'. injection Hm' as ->.
  split; [apply frame_store; [done|lia]|].
  exists (entries ++ [Ref l]). split.
  - apply list_lookup_insert_eq. by apply lookup_lt_Some in Hm.
  - apply Forall_app. split; [done|]. constructor; [|done]. by exists l.
Qed.

Lemma wp_matchRecord n σb fantraxPlayersMap mapping ibwPlayer index E σ' :
  n <= length σb ->
  (forall σ'', matchesInv n σb σ'' -> E σ'') ->
  matchesInv n σb σ' ->
  wp (matchRecord fantraxPlayersMap mapping (Ref (length σb)) (Ref (S (length σb)))
        ibwPlayer index)
     (fun _ => matchesInv n σb) E σ'.
Proof.
  intros Hn HE HI. unfold matchRecord.
  apply (wp_read _ _ (matchesInv n σb)); [readonly|done|done|intros mappingIbw].
  apply (wp_read _ _ (matchesInv n σb)); [readonly|done|done|intros player].
  apply (wp_read _ _ (matchesInv n σb)); [readonly|done|done|intros playerName].
  destruct (negb (truthy playerName)); [by apply wp_ret|].
  apply (wp_read _ _ (matchesInv n σb)); [readonly|done|done|intros team].
  apply (wp_read _ _ (matchesInv n σb)); [readonly|done|done|intros teamValue].
  apply (wp_read _ _ (matchesInv n σb)); [readonly|done|done|intros exactMap].
  apply (wp_read _ _ (matchesInv n σb)); [readonly|done|done|intros nameOnlyMap].
  apply (wp_read _ _ (matchesInv n σb)); [readonly|done|done|intros hasExact].
  apply wp_bind.
  match goal with
  | |- wp _ ?Q' _ _ => cut (forall found σ'', matchesInv n σb σ'' -> Q' found σ'')
  end.
  - intros Hrest. destruct hasExact.
    + apply (wp_read _ _ (matchesInv n σb)); [readonly|done|done|intros fantraxData].
      apply (wp_write (length σb) _ _ (matchesInv n σb));
        [apply writesTo_increment|done|done|intros; by apply matchesInv_stats|].
      intros σ'' HI''. by apply wp_ret, Hrest.
    + apply (wp_read _ _ (matchesInv n σb)); [readonly|done|done|intros hasNameOnly].
      destruct hasNameOnly; [|by apply wp_ret, Hrest].
      apply (wp_read _ _ (matchesInv n σb)); [readonly|done|done|intros fantraxData].
      apply (wp_write (length σb) _ _ (matchesInv n σb));
        [apply writesTo_increment|done|done|intros; by apply matchesInv_stats|].
      intros σ'' HI''. by apply wp_ret, Hrest.
  - clear σ' HI. intros found σ' HI. cbv beta.
    destruct (truthyVal found.1); [|by apply wp_ret].
    apply wp_bind, wp_alloc, wp_bind.
    pose proof (matchesInv_alloc n σb σ'
      (Obj [("ibwPlayer", ibwPlayer); ("fantraxData", found.1); ("matchType", found.2);
            ("ibwIndex", Num (Z.of_nat index))]) HI) as HI1.
    set (σ1 := σ' ++ _) in *.
    assert (n <= length σ') as Hentry
        by (destruct HI as ((_ & Hlen & _) & _); lia).
    pose proof (push_spec (S (length σb)) (Ref (length σ')) σ1) as Hpush.
    unfold wp at 1.
    revert Hpush.
    destruct (σ1 !! S (length σb)) as [[entries| |]|] eqn:Hm;
      intros ->; try (by apply HE).
    apply (wp_write_last (length σb) _ (matchesInv n σb));
      [apply writesTo_increment|done| |intros; apply matchesInv_stats].
    + by apply matchesInv_push.
    + by apply matchesInv_push.
Qed.

(** *** The whole call *)

Lemma wp_findMatches fantraxPlayers ibwPlayers columnMapping σ :
  wp (findMatches fantraxPlayers ibwPlayers columnMapping)
     (fun v σ' => frame (length σ) σ σ' /\ freshResult (length σ) v σ')
     (frame (length σ) σ) σ.
Proof.
  unfold findMatches. apply wp_bind.
  match goal with
  | |- wp _ ?Q' _ _ => cut (forall given σa, frame (length σ) σ σa -> Q' given σa)
  end.
  { intros Hrest.
    destruct columnMapping as [[]|];
      try (apply wp_ret, Hrest, frame_refl);
      apply wp_bind, wp_alloc, wp_ret, Hrest, frame_alloc, frame_refl. }
  intros given σa Ha. cbv beta.
  (* the default mapping *)
  apply wp_bind, wp_alloc. apply wp_bind, wp_alloc. apply wp_bind, wp_alloc.
  match goal with
  | |- wp _ _ _ ?s =>
      assert (frame (length σ) σ s) as Hd by (by do 3 apply frame_alloc);
      set (σd := s) in *; clearbody σd
  end.
  (* the merged mapping *)
  apply (wp_read _ _ (frame (length σ) σ)); [readonly|done|done|intros baseFantrax].
  apply (wp_read _ _ (frame (length σ) σ)); [readonly|done|done|intros givenFantrax].
  apply (wp_read _ _ (frame (length σ) σ)); [readonly|done|done|intros overFantrax].
  apply wp_bind, wp_alloc.
  apply (wp_read _ _ (frame (length σ) σ));
    [readonly|done|by apply frame_alloc|intros baseIbw].
  apply (wp_read _ _ (frame (length σ) σ));
    [readonly|done|by apply frame_alloc|intros givenIbw].
  apply (wp_read _ _ (frame (length σ) σ));
    [readonly|done|by apply frame_alloc|intros overIbw].
  apply wp_bind, wp_alloc. apply wp_bind, wp_alloc.
  set (mappingFantrax := length σd).
  set (mappingIbw := length (σd ++ [Obj (Js.spread baseFantrax (Some overFantrax))])).
  set (mapping := length ((σd ++ [Obj (Js.spread baseFantrax (Some overFantrax))])
                            ++ [Obj (Js.spread baseIbw (Some overIbw))])).
  pose proof (frame_length _ _ _ Hd) as Hlen.
  assert (length σ <= mappingFantrax) as HmF by done.
  assert (length σ <= mappingIbw) as HmI
      by (unfold mappingIbw; rewrite length_app; lia).
  assert (length σ <= mapping) as Hmp
      by (unfold mapping; rewrite !length_app; lia).
  match goal with
  | |- wp _ _ _ ?s =>
      assert (frame (length σ) σ s) as H1 by (by do 3 apply frame_alloc);
      assert (s !! mapping
              = Some (Obj [("fantrax", Ref mappingFantrax); ("ibw", Ref mappingIbw)]))
        as Hmapping by apply lookup_alloc;
      set (σ1 := s) in *
  end.
  clearbody σ1 mapping mappingIbw mappingFantrax. clear Hd Hlen σd.
  (* validation *)
  apply (wp_read _ _ (frame (length σ) σ)); [readonly|done|done|intros validFantrax].
  destruct (negb validFantrax); [by apply wp_throw|].
  apply (wp_read _ _ (frame (length σ) σ)); [readonly|done|done|intros validIbw].
  destruct (negb validIbw); [by apply wp_throw|].
  apply (wp_read _ _ (frame (length σ) σ)); [readonly|done|done|intros fantraxRecords].
  apply (wp_read _ _ (frame (length σ) σ)); [readonly|done|done|intros fantraxColumns].
  apply (wp_read _ _ (frame (length σ) σ)); [readonly|done|done|intros _].
  apply (wp_read _ _ (frame (length σ) σ)); [readonly|done|done|intros ibwRecords].
  apply (wp_read _ _ (frame (length σ) σ)); [readonly|done|done|intros ibwColumns].
  apply (wp_read _ _ (frame (length σ) σ)); [readonly|done|done|intros _].
  (* the index *)
  pose proof (frame_length _ _ _ H1) as Hlen1.
  apply wp_bind, wp_createPlayerMaps;
    [|intros σ' Hf; by apply (frame_trans _ _ (length σ1) σ1)].
  intros fantraxPlayersMap σ2 H12 _.
  assert (frame (length σ) σ σ2) as H2 by (by apply (frame_trans _ _ (length σ1) σ1)).
  assert (σ2 !! mapping
          = Some (Obj [("fantrax", Ref mappingFantrax); ("ibw", Ref mappingIbw)]))
    as Hmapping2.
  { eapply frame_lookup; [exact H12| |exact Hmapping]. by apply lookup_lt_Some in Hmapping. }
  pose proof (frame_length _ _ _ H2) as Hlen2.
  clear σ1 H1 H12 Hmapping Hlen1.
  (* the statistics, the match list and the loop *)
  apply wp_bind, wp_alloc. apply wp_bind, wp_alloc. apply wp_bind.
  unfold forEach. rewrite (length_app σ2). cbn [length]. rewrite Nat.add_1_r.
  apply (wp_forEachFrom _ (matchesInv (length σ) σ2)).
  - intros ibwPlayer index σ' HI. apply wp_matchRecord; [done| |done].
    intros σ'' [Hf _]. by apply (frame_trans _ _ (length σ2) σ2).
  - intros σ5 [H25 (entries & Hentries & Hfresh)].
    assert (frame (length σ) σ σ5) as H5 by (by apply (frame_trans _ _ (length σ2) σ2)).
    pose proof (frame_length _ _ _ H5) as Hlen5.
    apply wp_bind, wp_alloc, wp_ret. split; [by apply frame_alloc|].
    exists (length σ5), (S (length σ2)), (length σ2), mapping, mappingFantrax, mappingIbw,
      entries.
    split; [done|]. split; [apply lookup_alloc|].
    split.
    { apply lookup_alloc_old. eapply frame_lookup; [exact H25| |exact Hmapping2].
      by apply lookup_lt_Some in Hmapping2. }
    split; [by apply lookup_alloc_old|].
    split; [done|]. repeat split; lia.
  - split; [do 2 apply frame_alloc; apply frame_refl|].
    exists []. split; [|done].
    replace (S (length σ2)) with (length (σ2 ++ [Obj
      [("exactMatches", Num 0); ("nameOnlyMatches", Num 0); ("totalMatches", Num 0);
       ("totalIBWPlayers", Num (Z.of_nat (length ibwRecords)))]]))
      by (rewrite length_app; simpl; lia).
    apply lookup_alloc.
Qed.

(** [createPlayerMaps] changes no object of the store it is called in,
    and the object it returns and the two [Map]s in it are new. *)
Lemma createPlayerMaps_allocates (σ : heap) (fantraxPlayers mapping : val) :
  unchanged σ (createPlayerMaps fantraxPlayers mapping σ).2
  /\ match (createPlayerMaps fantraxPlayers mapping σ).1 with
     | Return v => freshMaps (length σ) v (createPlayerMaps fantraxPlayers mapping σ).2
     | _ => True
     end.
Proof.
  pose proof (wp_createPlayerMaps fantraxPlayers mapping
                (fun v σ' => frame (length σ) σ σ' /\ freshMaps (length σ) v σ')
                (frame (length σ) σ) σ) as H.
  unfold wp in H.
  destruct (createPlayerMaps fantraxPlayers mapping σ) as [[v| |] σ']; cbn [fst snd].
  - destruct H as [Hf Hm]; [done|done|]. split; [by apply frame_unchanged|done].
  - split; [apply frame_unchanged, H; done|done].
  - split; [apply frame_unchanged, H; done|done].
Qed.

(** C9.  Run [findMatches] in any store, on any arguments.  Whether the
    call returns, raises or leaves the data model, every object that
    the store held before the call (the two dataset arrays, each record
    in them, the caller's column mapping and its parts) is in the store
    after the call, at its location and with the value it had.  When the
    call returns, it returns a newly allocated object whose [matches]
    array, [stats] object and [columnMapping] object are newly allocated
    too, as are the [fantrax] and [ibw] objects of the mapping and every
    entry of the match list.  The index is built by [createPlayerMaps],
    which in any store changes no object either and returns a newly
    allocated object that holds two newly allocated [Map]s. *)
Theorem findMatches_leaves_inputs (σ : heap) (fantraxPlayers ibwPlayers : val)
    (columnMapping : option val) :
  unchanged σ (findMatches fantraxPlayers ibwPlayers columnMapping σ).2
  /\ match (findMatches fantraxPlayers ibwPlayers columnMapping σ).1 with
     | Return v =>
         freshResult (length σ) v (findMatches fantraxPlayers ibwPlayers columnMapping σ).2
     | _ => True
     end
  /\ forall (σ1 : heap) (players mapping : val),
       unchanged σ1 (createPlayerMaps players mapping σ1).2
       /\ match (createPlayerMaps players mapping σ1).1 with
          | Return v => freshMaps (length σ1) v (createPlayerMaps players mapping σ1).2
          | _ => True
          end.
Proof.
  pose proof (wp_findMatches fantraxPlayers ibwPlayers columnMapping σ) as H.
  unfold wp in H.
  split; [|split; [|intros σ1 players mapping; apply createPlayerMaps_allocates]].
  - destruct (findMatches fantraxPlayers ibwPlayers columnMapping σ) as [[v| |] σ'];
      cbn [snd]; apply frame_unchanged; [apply H|done|done].
  - destruct (findMatches fantraxPlayers ibwPlayers columnMapping σ) as [[v| |] σ'];
      cbn [fst snd]; [apply H|done|done].
Qed.

(** The end-to-end scenario in the store: the records and the two
    dataset arrays come first, then the objects of the call. *)
Example findMatches_in_store :
  let '(out, σ') :=
    (let* A := allocDataset sampleFantrax in
     let* B := allocDataset sampleIBWDifferent in
     findMatches A B None) [] in
  out = Return (Ref 20)
  /\ take 6 σ' = [encodeRecord (player "1" "Ronald Acuna Jr." "ATL" "OF" "26");
                   encodeRecord (player "2" "Mike Trout" "LAA" "OF" "32");
                   Arr [Ref 0; Ref 1];
                   encodeRecord (player "1" "Ronald Acuna Jr." "DIFFERENT" "OF" "26.2");
                   encodeRecord (player "2" "Mike Trout" "DIFFERENT" "OF" "32.5");
                   Arr [Ref 3; Ref 4]]
  /\ σ' !! 20 = Some (Obj [("matches", Ref 17); ("stats", Ref 16); ("columnMapping", Ref 12)])
  /\ σ' !! 16 = Some (Obj [("exactMatches", Num 0); ("nameOnlyMatches", Num 2);
                           ("totalMatches", Num 2); ("totalIBWPlayers", Num 2)])
  /\ σ' !! 17 = Some (Arr [Ref 18; Ref 19])
  /\ σ' !! 18 = Some (Obj [("ibwPlayer", Ref 3); ("fantraxData", Ref 0);
                           ("matchType", Str "name-only"); ("ibwIndex", Num 0)]).
Proof. vm_compute. repeat split. Qed.

(** The errors of the two validation steps in the store: the messages
    are those of the functions on values. *)
Example findMatches_errors_in_store :
  ((let* A := allocDataset [shortPlayer] in findMatches A Null None) []).1
  = Raise "IBW players must be a non-empty array"
  /\ ((let* A := allocDataset [shortPlayer] in findMatches A A None) []).1
     = Raise "Missing required columns in Fantrax data: Position, Age. Available columns: Number, Player, Team"
  /\ ((let* A := allocDataset [] in findMatches A A None) []).1
     = Raise "Fantrax players must be a non-empty array".
Proof. vm_compute. repeat split. Qed.

End HeapFacts.

(** ** The functions over the store compute the functions on values *)

Module HeapRefinement.

Import Heap.

Section Reads.

Variable σ : heap.

Lemma bind_return {A B} (m : M A) (f : A -> M B) a σ' :
  m σ = (Return a, σ') -> bind m f σ = f a σ'.
Proof. unfold bind. by intros ->. Qed.

Lemma load_Some l o : σ !! l = Some o -> load l σ = (Return o, σ).
Proof. unfold load. by intros ->. Qed.

Lemma elements_Arr l elems :
  σ !! l = Some (Arr elems) -> elements (Ref l) σ = (Return elems, σ).
Proof. intros H. unfold elements. by rewrite (bind_return _ _ _ _ (load_Some _ _ H)). Qed.

Lemma properties_Obj l props :
  σ !! l = Some (Obj props) -> properties (Ref l) σ = (Return props, σ).
Proof. intros H. unfold properties. by rewrite (bind_return _ _ _ _ (load_Some _ _ H)). Qed.

Lemma getProp_Obj l props name :
  σ !! l = Some (Obj props) -> getProp (Ref l) name σ = (Return (lookupProp props name), σ).
Proof. intros H. unfold getProp. by rewrite (bind_return _ _ _ _ (properties_Obj _ _ H)). Qed.

Lemma isArray_record v r :
  recordAt σ v r ->
  isArray v σ = (Return (match r with RArray _ => true | RObject _ => false end), σ).
Proof.
  intros (l & -> & H). unfold isArray.
  rewrite (bind_return _ _ _ _ (load_Some _ _ H)). by destruct r.
Qed.

Lemma isArray_spec v f :
  specAt σ v f ->
  isArray v σ = (Return (match f with FNames _ => true | _ => false end), σ).
Proof.
  destruct f; simpl; try by intros ->.
  intros (l & -> & H). unfold isArray. by rewrite (bind_return _ _ _ _ (load_Some _ _ H)).
Qed.

Lemma mapM_joinItem_names (names : list string) :
  mapM joinItem (Str <$> names) σ = (Return names, σ).
Proof.
  induction names as [|name names IH]; [done|].
  cbn [fmap list_fmap mapM]. unfold bind at 1. cbn [joinItem scalarString ret].
  by rewrite (bind_return _ _ _ _ IH).
Qed.

Lemma identifierString_spec v f :
  specAt σ v f -> identifierString v σ = (Return (Js.specToString f), σ).
Proof.
  destruct f; simpl; try by intros ->.
  intros (l & -> & H). unfold identifierString.
  rewrite (bind_return _ _ _ _ (elements_Arr _ _ H)).
  by rewrite (bind_return _ _ _ _ (mapM_joinItem_names _)).
Qed.

Lemma joinIdentifier_spec v f :
  specAt σ v f -> joinIdentifier v σ = (Return (Js.joinItem f), σ).
Proof.
  intros H. destruct f; try (simpl in H; by subst v).
  pose proof (identifierString_spec _ _ H) as Hs.
  destruct H as (l & -> & H). exact Hs.
Qed.

Lemma arrayGet_encode cells index :
  arrayGet (map encodeValue cells) index = encodeValue (Js.arrayGet cells index).
Proof.
  unfold arrayGet, Js.arrayGet. destruct index as [z|]; [|done].
  destruct (z <? 0)%Z; [done|].
  rewrite list_lookup_fmap. by destruct (cells !! Z.to_nat z).
Qed.

Lemma lookupProp_encode props name :
  lookupProp (map (fun kv => (kv.1, encodeValue kv.2)) props) name
  = encodeValue (Js.objectGet props name).
Proof.
  induction props as [|[k v] props IH]; simpl; [done|].
  by destruct (decide (k = name)).
Qed.

Lemma lookupField_spec v r name f :
  recordAt σ v r -> specAt σ name f ->
  Heap.lookupField v name σ
  = (Return (encodeValue (Values.lookupField r (Js.specToString f))), σ).
Proof.
  intros Hr Hf. unfold Heap.lookupField.
  rewrite (bind_return _ _ _ _ (isArray_record _ _ Hr)).
  destruct Hr as (l & -> & Hl). destruct r as [cells|props]; simpl in Hl.
  - rewrite (bind_return _ _ _ _ (identifierString_spec _ _ Hf)).
    rewrite (bind_return _ _ _ _ (elements_Arr _ _ Hl)).
    unfold ret. by rewrite arrayGet_encode.
  - rewrite (bind_return _ _ _ _ (identifierString_spec _ _ Hf)).
    rewrite (getProp_Obj _ _ _ Hl). by rewrite lookupProp_encode.
Qed.

Lemma fieldString_encode x :
  fieldString (encodeValue x) σ
  = (Return (if Js.present x then Some (trim (Js.toString x)) else None), σ).
Proof. by destruct x. Qed.

Lemma firstPresent_spec v r names :
  recordAt σ v r ->
  Heap.firstPresent v (Str <$> names) σ = (Return (Values.firstPresent r names), σ).
Proof.
  intros Hr. induction names as [|name names IH]; [done|].
  cbn [fmap list_fmap Heap.firstPresent Values.firstPresent].
  rewrite (bind_return _ _ _ _ (lookupField_spec _ _ _ (FName name) Hr eq_refl)).
  rewrite (bind_return _ _ _ _ (fieldString_encode _)).
  cbn [Js.specToString]. by destruct (Js.present _).
Qed.

Lemma getFieldValue_spec v r fieldName f :
  recordAt σ v r -> specAt σ fieldName f ->
  Heap.getFieldValue v fieldName σ = (Return (Values.getFieldValue r f), σ).
Proof.
  intros Hr Hf. unfold Heap.getFieldValue.
  rewrite (bind_return _ _ _ _ (isArray_spec _ _ Hf)).
  destruct f as [| |name|names].
  - rewrite (bind_return _ _ _ _ (lookupField_spec _ _ _ _ Hr Hf)).
    rewrite (bind_return _ _ _ _ (fieldString_encode _)).
    unfold Values.getFieldValue. by destruct (Js.present _).
  - rewrite (bind_return _ _ _ _ (lookupField_spec _ _ _ _ Hr Hf)).
    rewrite (bind_return _ _ _ _ (fieldString_encode _)).
    unfold Values.getFieldValue. by destruct (Js.present _).
  - rewrite (bind_return _ _ _ _ (lookupField_spec _ _ _ _ Hr Hf)).
    rewrite (bind_return _ _ _ _ (fieldString_encode _)).
    unfold Values.getFieldValue. by destruct (Js.present _).
  - destruct Hf as (l & -> & Hl).
    rewrite (bind_return _ _ _ _ (elements_Arr _ _ Hl)).
    by apply firstPresent_spec.
Qed.

Lemma mapM_parseInt cols fs :
  Forall2 (specAt σ) cols fs ->
  mapM (fun col => let* s := identifierString col in ret (Js.parseInt s)) cols σ
  = (Return (map (fun f => Js.parseInt (Js.specToString f)) fs), σ).
Proof.
  induction 1 as [|col f cols fs Hf _ IH]; [done|].
  cbn [mapM map]. unfold bind at 1.
  rewrite (bind_return _ _ _ _ (identifierString_spec _ _ Hf)). cbn [ret].
  by rewrite (bind_return _ _ _ _ IH).
Qed.

Lemma mapM_joinIdentifier cols fs :
  Forall2 (specAt σ) cols fs ->
  mapM joinIdentifier cols σ = (Return (map Js.joinItem fs), σ).
Proof.
  induction 1 as [|col f cols fs Hf _ IH]; [done|].
  cbn [mapM map].
  rewrite (bind_return _ _ _ _ (joinIdentifier_spec _ _ Hf)).
  by rewrite (bind_return _ _ _ _ IH).
Qed.

Lemma specAt_Str v f available :
  specAt σ v f -> Str available = v <-> FName available = f.
Proof.
  destruct f; simpl.
  - intros ->. split; discriminate.
  - intros ->. split; discriminate.
  - intros ->. split; congruence.
  - intros (l & -> & _). split; discriminate.
Qed.

Lemma filter_missing keys cols fs :
  Forall2 (specAt σ) cols fs ->
  Forall2 (specAt σ)
    (filter (fun col => ¬ Exists (fun available => Str available = col) keys) cols)
    (filter (fun f => ¬ Exists (fun available => FName available = f) keys) fs).
Proof.
  induction 1 as [|col f cols fs Hf _ IH]; [constructor|].
  rewrite !filter_cons.
  assert (Exists (fun available => Str available = col) keys
          <-> Exists (fun available => FName available = f) keys) as Hiff.
  { rewrite !Exists_exists. split; intros (a & Hin & Ha); exists a;
      (split; [done|]); by eapply specAt_Str. }
  destruct (decide (¬ Exists (fun available => Str available = col) keys)) as [Hn|Hn];
    destruct (decide (¬ Exists (fun available => FName available = f) keys)) as [Hn'|Hn'];
    try tauto.
  by constructor.
Qed.

Lemma keys_encode props :
  Js.keys (map (fun kv : string * JsValue => (kv.1, encodeValue kv.2)) props) = Js.keys props.
Proof. unfold Js.keys. induction props as [|[k v] props IH]; simpl; [done|]. by f_equal. Qed.

Lemma validateColumns_spec v r cols fs dataType :
  recordAt σ v r ->
  Forall2 (specAt σ) cols fs ->
  Heap.validateColumns v cols dataType σ
  = (outcomeOf (Values.validateColumns r fs dataType), σ).
Proof.
  intros Hr Hcols. unfold Heap.validateColumns, Values.validateColumns.
  rewrite (bind_return _ _ _ _ (isArray_record _ _ Hr)).
  destruct Hr as (l & -> & Hl). destruct r as [cells|props]; simpl in Hl.
  - rewrite (bind_return _ _ _ _ (mapM_parseInt _ _ Hcols)).
    rewrite (bind_return _ _ _ _ (elements_Arr _ _ Hl)).
    rewrite length_map.
    destruct (Js.mathMax _) as [| |z]; try done.
    by destruct (_ <=? z)%Z.
  - rewrite (bind_return _ _ _ _ (properties_Obj _ _ Hl)).
    rewrite keys_encode.
    pose proof (filter_missing (Js.keys props) _ _ Hcols) as Hmissing.
    rewrite (Forall2_length _ _ _ Hmissing).
    destruct (decide (0 < length _)); [|done].
    by rewrite (bind_return _ _ _ _ (mapM_joinIdentifier _ _ Hmissing)).
Qed.

End Reads.

(** *** Objects that stay in place *)

Section Stability.

Variables (σ0 σ : heap).
Hypothesis Hframe : frame (length σ0) σ0 σ.

Lemma lookup_frame l o : σ0 !! l = Some o -> σ !! l = Some o.
Proof. by apply HeapFacts.frame_unchanged. Qed.

Lemma recordAt_frame v r : recordAt σ0 v r -> recordAt σ v r.
Proof. intros (l & -> & H). exists l. split; [done|]. by apply lookup_frame. Qed.

Lemma specAt_frame v f : specAt σ0 v f -> specAt σ v f.
Proof.
  destruct f; simpl; try done.
  intros (l & -> & H). exists l. split; [done|]. by apply lookup_frame.
Qed.

Lemma propsAt_frame props m : propsAt σ0 props m -> propsAt σ props m.
Proof.
  unfold propsAt. intros H. eapply Forall2_impl; [exact H|].
  intros p q [? ?]. split; [done|]. by apply specAt_frame.
Qed.

Lemma roleMapAt_frame v m : roleMapAt σ0 v m -> roleMapAt σ v m.
Proof.
  intros (l & props & -> & H & Hp). exists l, props.
  split; [done|]. split; [by apply lookup_frame|by apply propsAt_frame].
Qed.

Lemma mapAt_frame entries index : mapAt σ0 entries index -> mapAt σ entries index.
Proof.
  intros H k. specialize (H k). destruct H; constructor. by apply recordAt_frame.
Qed.

Lemma records_frame refs records :
  Forall2 (recordAt σ0) refs records -> Forall2 (recordAt σ) refs records.
Proof. intros H. eapply Forall2_impl; [exact H|]. apply recordAt_frame. Qed.

End Stability.

Lemma lookupProp_role σ props m name :
  propsAt σ props m -> specAt σ (lookupProp props name) (Js.role m name).
Proof.
  induction 1 as [|[k v] [k' f] props m [Hk Hv] _ IH]; simpl in *; [done|].
  subst k'. by destruct (decide (k = name)).
Qed.

Lemma getProp_role σ v m name :
  roleMapAt σ v m ->
  exists field, getProp v name σ = (Return field, σ) /\ specAt σ field (Js.role m name).
Proof.
  intros (l & props & -> & H & Hp). exists (lookupProp props name).
  split; [by apply getProp_Obj|by apply lookupProp_role].
Qed.

Lemma mapAt_insert σ entries index k v r :
  mapAt σ entries index -> recordAt σ v r ->
  mapAt σ (<[k := v]> entries) (<[k := r]> index).
Proof.
  intros H Hr k'. destruct (decide (k = k')) as [->|Hne].
  - rewrite !lookup_insert_eq. by constructor.
  - rewrite !lookup_insert_ne by done. apply H.
Qed.

Lemma mapAt_is_Some σ entries index k :
  mapAt σ entries index -> is_Some (entries !! k) <-> is_Some (index !! k).
Proof.
  intros H. specialize (H k). destruct H; split; intros [? ?]; try done; by eexists.
Qed.

(** *** The record indexer *)

Section Indexer.

Variables (σ0 : heap) (exactMap nameOnlyMap : loc) (mapping : val) (m : RoleMap).
Hypothesis Hexact : length σ0 <= exactMap.
Hypothesis HnameOnly : length σ0 <= nameOnlyMap.
Hypothesis Hdistinct : exactMap <> nameOnlyMap.
Hypothesis Hmapping : roleMapAt σ0 mapping m.

#[local] Abbreviation indexing := (Heap.indexing σ0 exactMap nameOnlyMap).

Lemma mapSet_MapObj σ l entries k v :
  σ !! l = Some (MapObj entries) ->
  mapSet (Ref l) k v σ = (Return (), <[l := MapObj (<[k := v]> entries)]> σ).
Proof. intros H. unfold mapSet. by rewrite (bind_return _ _ _ _ _ (load_Some _ _ _ H)). Qed.

Lemma mapHas_MapObj σ l entries k :
  σ !! l = Some (MapObj entries) ->
  mapHas (Ref l) k σ = (Return (bool_decide (is_Some (entries !! k))), σ).
Proof. intros H. unfold mapHas. by rewrite (bind_return _ _ _ _ _ (load_Some _ _ _ H)). Qed.

Lemma mapGet_MapObj σ l entries k :
  σ !! l = Some (MapObj entries) ->
  mapGet (Ref l) k σ = (Return (default Undefined (entries !! k)), σ).
Proof. intros H. unfold mapGet. by rewrite (bind_return _ _ _ _ _ (load_Some _ _ _ H)). Qed.

Lemma indexRecord_spec maps σ record r index :
  indexing maps σ -> recordAt σ0 record r ->
  exists σ',
    Heap.indexRecord (Ref exactMap) (Ref nameOnlyMap) mapping record index σ = (Return (), σ')
    /\ indexing (Values.indexRecord m maps r) σ'.
Proof.
  intros (Hf & E & N & HE & HN & HmE & HmN) Hr.
  unfold Heap.indexRecord, Values.indexRecord.
  pose proof (roleMapAt_frame _ _ Hf _ _ Hmapping) as Hmapping'.
  pose proof (recordAt_frame _ _ Hf _ _ Hr) as Hr'.
  destruct (getProp_role _ _ _ "player" Hmapping') as (player & Hp & Hplayer).
  rewrite (bind_return _ _ _ _ _ Hp).
  rewrite (bind_return _ _ _ _ _ (getFieldValue_spec _ _ _ _ _ Hr' Hplayer)).
  destruct (getProp_role _ _ _ "team" Hmapping') as (team & Ht & Hteam).
  rewrite (bind_return _ _ _ _ _ Ht).
  rewrite (bind_return _ _ _ _ _ (getFieldValue_spec _ _ _ _ _ Hr' Hteam)).
  destruct (negb (truthy _)).
  { eexists. split; [reflexivity|]. split; [done|]. by exists E, N. }
  rewrite (bind_return _ _ _ _ _ (mapSet_MapObj _ _ _ _ _ HE)).
  set (σ1 := <[exactMap := _]> σ).
  assert (σ1 !! nameOnlyMap = Some (MapObj N)) as HN1
      by (unfold σ1; by rewrite list_lookup_insert_ne).
  assert (σ1 !! exactMap
          = Some (MapObj (<[createMatchKey (Values.getFieldValue r (Js.role m "player"))
                              (Some (orEmpty (Values.getFieldValue r (Js.role m "team"))))
                            := record]> E))) as HE1.
  { unfold σ1. apply list_lookup_insert_eq. by apply lookup_lt_Some in HE. }
  assert (frame (length σ0) σ0 σ1) as Hf1 by (by apply HeapFacts.frame_store).
  rewrite (bind_return _ _ _ _ _ (mapHas_MapObj _ _ _ _ HN1)).
  rewrite (bool_decide_ext _ _ (mapAt_is_Some _ _ _ _ HmN)).
  destruct (negb (bool_decide _)).
  - rewrite (mapSet_MapObj _ _ _ _ _ HN1).
    eexists. split; [reflexivity|]. split; [by apply HeapFacts.frame_store|].
    eexists _, _. split; [by rewrite list_lookup_insert_ne|].
    split; [apply list_lookup_insert_eq; by apply lookup_lt_Some in HN1|].
    split; by apply mapAt_insert.
  - eexists. split; [reflexivity|]. split; [done|].
    eexists _, _. split; [exact HE1|]. split; [exact HN1|].
    split; [by apply mapAt_insert|done].
Qed.

Lemma forEachFrom_indexRecord refs records :
  Forall2 (recordAt σ0) refs records ->
  forall maps σ index,
    indexing maps σ ->
    exists σ',
      forEachFrom (Heap.indexRecord (Ref exactMap) (Ref nameOnlyMap) mapping) refs index σ
      = (Return (), σ')
      /\ indexing (fold_left (Values.indexRecord m) records maps) σ'.
Proof.
  induction 1 as [|record r refs records Hr _ IH]; intros maps σ index HI.
  - by exists σ.
  - destruct (indexRecord_spec maps σ record r index HI Hr) as (σ1 & Hrun & HI1).
    destruct (IH _ σ1 (S index) HI1) as (σ' & Hrun' & HI').
    exists σ'. split; [|done]. cbn [forEachFrom fold_left].
    by rewrite (bind_return _ _ _ _ _ Hrun).
Qed.

End Indexer.

Lemma bind_alloc {B} o (f : loc -> M B) σ :
  bind (alloc o) f σ = f (length σ) (σ ++ [o]).
Proof. reflexivity. Qed.

Lemma mapAt_empty σ : mapAt σ ∅ ∅.
Proof. intros k. rewrite !lookup_empty. constructor. Qed.

Lemma createPlayerMaps_spec σ array refs records mapping m :
  σ !! array = Some (Arr refs) ->
  Forall2 (recordAt σ) refs records ->
  roleMapAt σ mapping m ->
  exists σ' maps exactMap nameOnlyMap,
    Heap.createPlayerMaps (Ref array) mapping σ = (Return (Ref maps), σ')
    /\ σ' !! maps = Some (Obj [("exact", Ref exactMap); ("nameOnly", Ref nameOnlyMap)])
    /\ indexing σ exactMap nameOnlyMap (Values.createPlayerMaps records m) σ'.
Proof.
  intros Harray Hrecords Hmapping. unfold Heap.createPlayerMaps.
  rewrite !bind_alloc.
  set (σ1 := (σ ++ [MapObj ∅]) ++ [MapObj ∅]).
  assert (frame (length σ) σ σ1) as Hf1
      by (do 2 apply HeapFacts.frame_alloc; apply HeapFacts.frame_refl).
  assert (length (σ ++ [MapObj ∅]) = S (length σ)) as Hlen
      by (rewrite length_app; simpl; lia).
  rewrite (bind_return _ _ _ _ _ (elements_Arr _ _ _ (lookup_frame _ _ Hf1 _ _ Harray))).
  assert (indexing σ (length σ) (length (σ ++ [MapObj ∅]))
            {| exact := ∅; nameOnly := ∅ |} σ1) as HI.
  { split; [done|]. exists ∅, ∅. unfold σ1.
    split; [apply HeapFacts.lookup_alloc_old, HeapFacts.lookup_alloc|].
    split; [apply HeapFacts.lookup_alloc|]. split; apply mapAt_empty. }
  destruct (forEachFrom_indexRecord σ (length σ) (length (σ ++ [MapObj ∅])) mapping m
              ltac:(lia) ltac:(lia) ltac:(lia) Hmapping refs records Hrecords _ σ1 0 HI)
    as (σ2 & Hrun & HI2).
  unfold forEach. rewrite (bind_return _ _ _ _ _ Hrun), bind_alloc.
  eexists _, (length σ2), _, _. split; [reflexivity|].
  split; [apply HeapFacts.lookup_alloc|].
  destruct HI2 as (Hf2 & E & N & HE & HN & HmE & HmN).
  split; [by apply HeapFacts.frame_alloc|].
  exists E, N. repeat split; try done; by apply HeapFacts.lookup_alloc_old.
Qed.

(** *** The matching loop *)

Lemma increment_exactMatches σ l s :
  σ !! l = Some (statsObject s) ->
  increment (Ref l) "exactMatches" σ = (Return (), <[l := statsObject (incrExact s)]> σ).
Proof.
  intros H. unfold increment.
  rewrite (bind_return _ _ _ _ _ (properties_Obj _ _ _ H)).
  cbn [statsObject lookupProp Js.define].
  repeat first [rewrite decide_True by reflexivity | rewrite decide_False by discriminate].
  unfold store, statsObject, incrExact. cbn. by rewrite Nat2Z.inj_succ, Z.add_1_r.
Qed.

Lemma increment_nameOnlyMatches σ l s :
  σ !! l = Some (statsObject s) ->
  increment (Ref l) "nameOnlyMatches" σ
  = (Return (), <[l := statsObject (incrNameOnly s)]> σ).
Proof.
  intros H. unfold increment.
  rewrite (bind_return _ _ _ _ _ (properties_Obj _ _ _ H)).
  cbn [statsObject lookupProp Js.define].
  repeat first [rewrite decide_True by reflexivity | rewrite decide_False by discriminate].
  unfold store, statsObject, incrNameOnly. cbn. by rewrite Nat2Z.inj_succ, Z.add_1_r.
Qed.

Lemma increment_totalMatches σ l s :
  σ !! l = Some (statsObject s) ->
  increment (Ref l) "totalMatches" σ = (Return (), <[l := statsObject (incrTotal s)]> σ).
Proof.
  intros H. unfold increment.
  rewrite (bind_return _ _ _ _ _ (properties_Obj _ _ _ H)).
  cbn [statsObject lookupProp Js.define].
  repeat first [rewrite decide_True by reflexivity | rewrite decide_False by discriminate].
  unfold store, statsObject, incrTotal. cbn. by rewrite Nat2Z.inj_succ, Z.add_1_r.
Qed.

Lemma push_Arr σ l elems v :
  σ !! l = Some (Arr elems) ->
  push (Ref l) v σ = (Return (), <[l := Arr (elems ++ [v])]> σ).
Proof. intros H. pose proof (HeapFacts.push_spec l v σ) as Hp. by rewrite H in Hp. Qed.

Section Matching.

Variable σb : heap.

Lemma entryAt_alloc σ o v x : entryAt σb σ v x -> entryAt σb (σ ++ [o]) v x.
Proof.
  intros (l & vi & vf & -> & Hl & H & Hi & Hf). exists l, vi, vf.
  repeat split; try done. by apply HeapFacts.lookup_alloc_old.
Qed.

Lemma entryAt_store σ l o v x :
  l <= S (length σb) -> entryAt σb σ v x -> entryAt σb (<[l := o]> σ) v x.
Proof.
  intros Hle (l' & vi & vf & -> & Hl & H & Hi & Hf). exists l', vi, vf.
  repeat split; try done. by rewrite list_lookup_insert_ne by lia.
Qed.

Lemma matching_stats s ms s' σ :
  matching σb {| ls_stats := s; ls_matchingPlayers := ms |} σ ->
  matching σb {| ls_stats := s'; ls_matchingPlayers := ms |}
    (<[length σb := statsObject s']> σ).
Proof.
  intros (Hf & Hs & entries & He & Hall). cbn in *.
  split; [by apply HeapFacts.frame_store|].
  split; [apply list_lookup_insert_eq; by apply lookup_lt_Some in Hs|].
  exists entries. split; [by rewrite list_lookup_insert_ne by lia|].
  eapply Forall2_impl; [exact Hall|]. intros ? ?. apply entryAt_store. lia.
Qed.

(** Recording a match: the new entry, the [push] and the total. *)
Lemma record_match s ms σ ibwRef r fantraxRef a t index :
  matching σb {| ls_stats := s; ls_matchingPlayers := ms |} σ ->
  recordAt σb ibwRef r ->
  recordAt σb fantraxRef a ->
  exists σ',
    (let* entry := alloc (Obj [("ibwPlayer", ibwRef); ("fantraxData", fantraxRef);
                               ("matchType", Str (matchTypeString t));
                               ("ibwIndex", Num (Z.of_nat index))]) in
     push (Ref (S (length σb))) (Ref entry);;
     increment (Ref (length σb)) "totalMatches") σ = (Return (), σ')
    /\ matching σb
         {| ls_stats := incrTotal s;
            ls_matchingPlayers :=
              ms ++ [{| ibwPlayer := r; fantraxData := a; matchType := t;
                        ibwIndex := index |}] |} σ'.
Proof.
  intros (Hf & Hs & entries & He & Hall) Hr Ha. cbn [ls_stats ls_matchingPlayers] in *.
  rewrite bind_alloc.
  set (entry := Obj _). set (σ1 := σ ++ [entry]).
  assert (S (length σb) < length σ) as Hlt by (by apply lookup_lt_Some in He).
  rewrite (bind_return _ _ _ _ _ (push_Arr σ1 _ _ _ (HeapFacts.lookup_alloc_old _ _ _ _ He))).
  set (σ2 := <[S (length σb) := _]> σ1).
  assert (σ2 !! length σb = Some (statsObject s)) as Hs2.
  { unfold σ2. rewrite list_lookup_insert_ne by lia. by apply HeapFacts.lookup_alloc_old. }
  rewrite (increment_totalMatches _ _ _ Hs2).
  eexists. split; [reflexivity|].
  assert (matching σb
            {| ls_stats := s;
               ls_matchingPlayers :=
                 ms ++ [{| ibwPlayer := r; fantraxData := a; matchType := t;
                           ibwIndex := index |}] |} σ2) as H2.
  { split; [apply HeapFacts.frame_store; [by apply HeapFacts.frame_alloc|lia]|].
    split; [exact Hs2|]. exists (entries ++ [Ref (length σ)]).
    split.
    { unfold σ2. apply list_lookup_insert_eq. unfold σ1. rewrite length_app. simpl. lia. }
    cbn [ls_matchingPlayers]. apply Forall2_app.
    - eapply Forall2_impl; [exact Hall|]. intros ? ? ?.
      apply entryAt_store; [lia|]. by apply entryAt_alloc.
    - constructor; [|constructor]. exists (length σ), ibwRef, fantraxRef.
      split; [done|]. split; [done|]. split; [|by split].
      unfold σ2. rewrite list_lookup_insert_ne by lia. apply HeapFacts.lookup_alloc. }
  by apply (matching_stats _ _ (incrTotal s)) in H2.
Qed.

Variables (mapsLoc exactMap nameOnlyMap mappingLoc : loc) (mappingFantrax mappingIbw : val).
Variables (entriesExact entriesNameOnly : gmap string val).
Variables (maps : PlayerMaps) (mapping : Mapping).
Hypothesis Hmaps :
  σb !! mapsLoc = Some (Obj [("exact", Ref exactMap); ("nameOnly", Ref nameOnlyMap)]).
Hypothesis Hexact : σb !! exactMap = Some (MapObj entriesExact).
Hypothesis HnameOnly : σb !! nameOnlyMap = Some (MapObj entriesNameOnly).
Hypothesis HmE : mapAt σb entriesExact (exact maps).
Hypothesis HmN : mapAt σb entriesNameOnly (nameOnly maps).
Hypothesis Hmapping :
  σb !! mappingLoc = Some (Obj [("fantrax", mappingFantrax); ("ibw", mappingIbw)]).
Hypothesis Hibw : roleMapAt σb mappingIbw (ibw mapping).

Ltac string_cases :=
  repeat first [rewrite decide_True by reflexivity | rewrite decide_False by discriminate].

Lemma matchRecord_spec st σ ibwRef r index :
  matching σb st σ -> recordAt σb ibwRef r ->
  exists σ',
    Heap.matchRecord (Ref mapsLoc) (Ref mappingLoc) (Ref (length σb)) (Ref (S (length σb)))
      ibwRef index σ = (Return (), σ')
    /\ matching σb (Values.matchRecord maps mapping st r index) σ'.
Proof.
  intros HM Hr. destruct st as [s ms]. pose proof HM as (Hf & Hs & _).
  cbn [ls_stats] in Hs.
  unfold Heap.matchRecord, Values.matchRecord. cbn [ls_stats ls_matchingPlayers].
  rewrite (bind_return _ _ _ _ _ (getProp_Obj _ _ _ "ibw" (lookup_frame _ _ Hf _ _ Hmapping))).
  cbn [lookupProp]. string_cases.
  destruct (getProp_role _ _ _ "player" (roleMapAt_frame _ _ Hf _ _ Hibw))
    as (player & Hp & Hplayer).
  rewrite (bind_return _ _ _ _ _ Hp).
  pose proof (recordAt_frame _ _ Hf _ _ Hr) as Hr'.
  rewrite (bind_return _ _ _ _ _ (getFieldValue_spec _ _ _ _ _ Hr' Hplayer)).
  destruct (negb (truthy _)); [by exists σ|].
  destruct (getProp_role _ _ _ "team" (roleMapAt_frame _ _ Hf _ _ Hibw))
    as (team & Ht & Hteam).
  rewrite (bind_return _ _ _ _ _ Ht).
  rewrite (bind_return _ _ _ _ _ (getFieldValue_spec _ _ _ _ _ Hr' Hteam)).
  rewrite (bind_return _ _ _ _ _ (getProp_Obj _ _ _ "exact" (lookup_frame _ _ Hf _ _ Hmaps))).
  rewrite (bind_return _ _ _ _ _ (getProp_Obj _ _ _ "nameOnly" (lookup_frame _ _ Hf _ _ Hmaps))).
  cbn [lookupProp]. string_cases.
  rewrite (bind_return _ _ _ _ _ (mapHas_MapObj _ _ _ _ (lookup_frame _ _ Hf _ _ Hexact))).
  set (fullKey := createMatchKey _ (Some _)). set (nameKey := createMatchKey _ None).
  pose proof (HmE fullKey) as HkE. pose proof (HmN nameKey) as HkN.
  destruct (entriesExact !! fullKey) as [v|] eqn:EE;
    destruct (exact maps !! fullKey) as [a|] eqn:EP; inversion HkE as [? ? Hva|]; subst.
  - (* exact match *)
    destruct Hva as (l & -> & Hl).
    assert ((let* fantraxData := mapGet (Ref exactMap) fullKey in
             increment (Ref (length σb)) "exactMatches";;
             ret (fantraxData, Str "exact")) σ
            = (Return (Ref l, Str "exact"),
               <[length σb := statsObject (incrExact s)]> σ)) as Hfound.
    { rewrite (bind_return _ _ _ _ _
                 (mapGet_MapObj _ _ _ _ (lookup_frame _ _ Hf _ _ Hexact))), EE.
      cbn [default]. by rewrite (bind_return _ _ _ _ _ (increment_exactMatches _ _ _ Hs)). }
    rewrite bool_decide_true by (by eexists).
    rewrite (bind_return _ _ _ _ _ Hfound). cbn [fst snd truthyVal].
    apply (record_match (incrExact s) ms _ ibwRef r (Ref l) a MExact index);
      [exact (matching_stats s ms _ σ HM)|done|by exists l].
  - (* no exact match: the name-only index *)
    rewrite bool_decide_false by (by intros [? ?]).
    destruct (entriesNameOnly !! nameKey) as [v|] eqn:EN;
      destruct (nameOnly maps !! nameKey) as [a|] eqn:EP';
      inversion HkN as [? ? Hva|]; subst.
    + destruct Hva as (l & -> & Hl).
      assert ((let* hasNameOnly := mapHas (Ref nameOnlyMap) nameKey in
               if hasNameOnly then
                 let* fantraxData := mapGet (Ref nameOnlyMap) nameKey in
                 increment (Ref (length σb)) "nameOnlyMatches";;
                 ret (fantraxData, Str "name-only")
               else ret (Null, Null)) σ
              = (Return (Ref l, Str "name-only"),
                 <[length σb := statsObject (incrNameOnly s)]> σ)) as Hfound.
      { rewrite (bind_return _ _ _ _ _
                   (mapHas_MapObj _ _ _ _ (lookup_frame _ _ Hf _ _ HnameOnly))), EN.
        rewrite bool_decide_true by (by eexists).
        rewrite (bind_return _ _ _ _ _
                   (mapGet_MapObj _ _ _ _ (lookup_frame _ _ Hf _ _ HnameOnly))), EN.
        cbn [default].
        by rewrite (bind_return _ _ _ _ _ (increment_nameOnlyMatches _ _ _ Hs)). }
      rewrite (bind_return _ _ _ _ _ Hfound). cbn [fst snd truthyVal].
      apply (record_match (incrNameOnly s) ms _ ibwRef r (Ref l) a MNameOnly index);
        [exact (matching_stats s ms _ σ HM)|done|by exists l].
    + assert ((let* hasNameOnly := mapHas (Ref nameOnlyMap) nameKey in
               if hasNameOnly then
                 let* fantraxData := mapGet (Ref nameOnlyMap) nameKey in
                 increment (Ref (length σb)) "nameOnlyMatches";;
                 ret (fantraxData, Str "name-only")
               else ret (Null, Null)) σ
              = (Return (Null, Null), σ)) as Hfound.
      { rewrite (bind_return _ _ _ _ _
                   (mapHas_MapObj _ _ _ _ (lookup_frame _ _ Hf _ _ HnameOnly))), EN.
        by rewrite bool_decide_false by (by intros [? ?]). }
      rewrite (bind_return _ _ _ _ _ Hfound). cbn [fst snd truthyVal].
      by exists σ.
Qed.

Lemma forEachFrom_matchRecord_spec refs records :
  Forall2 (recordAt σb) refs records ->
  forall st σ index,
    matching σb st σ ->
    exists σ',
      Heap.forEachFrom
        (Heap.matchRecord (Ref mapsLoc) (Ref mappingLoc) (Ref (length σb))
           (Ref (S (length σb)))) refs index σ = (Return (), σ')
      /\ matching σb (Values.forEachFrom (Values.matchRecord maps mapping) records index st) σ'.
Proof.
  induction 1 as [|ibwRef r refs records Hr _ IH]; intros st σ index HM.
  - by exists σ.
  - destruct (matchRecord_spec st σ ibwRef r index HM Hr) as (σ1 & Hrun & HM1).
    destruct (IH _ σ1 (S index) HM1) as (σ' & Hrun' & HM').
    exists σ'. split; [|done]. cbn [Heap.forEachFrom].
    by rewrite (bind_return _ _ _ _ _ Hrun).
Qed.

End Matching.

(** *** The whole call *)

Lemma bind_raise {A B} (m : M A) (f : A -> M B) e σ σ' :
  m σ = (Raise e, σ') -> bind m f σ = (Raise e, σ').
Proof. unfold bind. by intros ->. Qed.

Lemma define_rel σ props m k v f :
  propsAt σ props m -> specAt σ v f ->
  propsAt σ (Js.define props k v) (Js.define m k f).
Proof.
  intros H Hv. induction H as [|[k1 v1] [k2 f2] props m [Hk Hs] Hrest IH]; simpl in *.
  - by repeat constructor.
  - subst k2. destruct (decide (k1 = k)); constructor; try done.
Qed.

Lemma spread_rel σ over overOnValues :
  propsAt σ over overOnValues ->
  forall base baseOnValues,
    propsAt σ base baseOnValues ->
    propsAt σ (Js.spread base (Some over)) (Js.spread baseOnValues (Some overOnValues)).
Proof.
  unfold Js.spread. cbn [default].
  induction 1 as [|[k v] [k' f] over overOnValues [Hk Hv] _ IH]; intros base base' Hb;
    simpl in *; [done|].
  subst k'. apply IH. by apply define_rel.
Qed.

Lemma spread_default {V} (base : list (string * V)) over :
  Js.spread base over = Js.spread base (Some (default [] over)).
Proof. by destruct over. Qed.

Lemma spreadSource_spec σ v m :
  optionalRoleMapAt σ v m ->
  exists over, spreadSource v σ = (Return over, σ) /\ propsAt σ over (default [] m).
Proof.
  destruct m as [m|]; simpl.
  - intros (l & props & -> & H & Hp). exists props. split; [|done].
    by apply properties_Obj.
  - intros ->. exists []. split; [done|constructor].
Qed.

Lemma requiredColumns_rel σ props m :
  propsAt σ props m ->
  Forall2 (specAt σ) (filter (fun col => col ≠ Null) (Js.values props))
    (Values.requiredColumns m).
Proof.
  unfold Values.requiredColumns, Js.values.
  induction 1 as [|[k v] [k' f] props m [Hk Hv] _ IH]; [constructor|].
  cbn [fmap list_fmap snd]. rewrite !filter_cons. simpl in Hv.
  destruct (decide (v ≠ Null)) as [Hn|Hn]; destruct (decide (f ≠ FNull)) as [Hn'|Hn'].
  - by constructor.
  - exfalso. apply dec_stable in Hn'. subst f. simpl in Hv. done.
  - exfalso. apply dec_stable in Hn. subst v. destruct f; simpl in Hv; try done.
    by destruct Hv as (? & ? & _).
  - done.
Qed.

Lemma requiredColumns_spec σ v m :
  roleMapAt σ v m ->
  exists cols,
    Heap.requiredColumns v σ = (Return cols, σ)
    /\ Forall2 (specAt σ) cols (Values.requiredColumns m).
Proof.
  intros (l & props & -> & H & Hp). eexists. split.
  { unfold Heap.requiredColumns. by rewrite (bind_return _ _ _ _ _ (properties_Obj _ _ _ H)). }
  by apply requiredColumns_rel.
Qed.

Lemma isArray_load σ l o :
  σ !! l = Some o ->
  isArray (Ref l) σ = (Return (match o with Arr _ => true | _ => false end), σ).
Proof. intros H. unfold isArray. by rewrite (bind_return _ _ _ _ _ (load_Some _ _ _ H)). Qed.

Lemma nonEmptyArray_spec σ v d :
  datasetAt σ v d ->
  Heap.nonEmptyArray v σ = (Return (bool_decide (is_Some (Values.nonEmptyArray d))), σ).
Proof.
  unfold Heap.nonEmptyArray. destruct d as [|records]; cbn [datasetAt Values.nonEmptyArray].
  - rewrite bool_decide_false by (by intros [? ?]).
    destruct v as [| | | |l]; try done.
    intros (o & Ho & Hno).
    rewrite (bind_return _ _ _ _ _ (isArray_load _ _ _ Ho)).
    destruct o as [elems| |]; [by destruct (Hno elems)|done|done].
  - intros (l & refs & -> & Hl & Hrefs).
    rewrite (bind_return _ _ _ _ _ (isArray_load _ _ _ Hl)).
    rewrite (bind_return _ _ _ _ _ (elements_Arr _ _ _ Hl)).
    destruct Hrefs; cbn [ret length].
    + rewrite bool_decide_true by done.
      by rewrite bool_decide_false by (by intros [? ?]).
    + rewrite bool_decide_false by done.
      by rewrite bool_decide_true by (by eexists).
Qed.

Lemma config_given σ given config :
  configAt σ given config ->
  exists v σa l props,
    match given with
    | None | Some Undefined => let* l := alloc (Obj []) in ret (Ref l)
    | Some v => ret v
    end σ = (Return v, σa)
    /\ frame (length σ) σ σa
    /\ v = Ref l /\ σa !! l = Some (Obj props)
    /\ optionalRoleMapAt σa (lookupProp props "fantrax") (cm_fantrax config)
    /\ optionalRoleMapAt σa (lookupProp props "ibw") (cm_ibw config).
Proof.
  assert (cm_fantrax config = None /\ cm_ibw config = None ->
          exists v σa l props,
            (let* l := alloc (Obj []) in ret (Ref l)) σ = (Return v, σa)
            /\ frame (length σ) σ σa
            /\ v = Ref l /\ σa !! l = Some (Obj props)
            /\ optionalRoleMapAt σa (lookupProp props "fantrax") (cm_fantrax config)
            /\ optionalRoleMapAt σa (lookupProp props "ibw") (cm_ibw config)) as Hdefault.
  { intros [-> ->]. exists (Ref (length σ)), (σ ++ [Obj []]), (length σ), [].
    split; [done|]. split; [apply HeapFacts.frame_alloc, HeapFacts.frame_refl|].
    split; [done|]. split; [apply HeapFacts.lookup_alloc|]. by split. }
  destruct given as [[| | | |l]|]; simpl; try done;
    try (by intros (? & ? & ? & _)).
  intros (l' & props & [= <-] & Hl & HF & HI). exists (Ref l), σ, l, props.
  split; [done|]. split; [apply HeapFacts.frame_refl|]. by repeat split.
Qed.

Lemma datasetAt_frame σ0 σ v d :
  frame (length σ0) σ0 σ -> datasetAt σ0 v d -> datasetAt σ v d.
Proof.
  intros Hf. destruct d as [|records]; simpl.
  - destruct v; try done. intros (o & Ho & Hno). exists o.
    split; [by eapply lookup_frame|done].
  - intros (l & refs & -> & Hl & Hrefs). exists l, refs.
    split; [done|]. split; [by eapply lookup_frame|by eapply records_frame].
Qed.

Lemma optionalRoleMapAt_frame σ0 σ v m :
  frame (length σ0) σ0 σ -> optionalRoleMapAt σ0 v m -> optionalRoleMapAt σ v m.
Proof. intros Hf. destruct m; simpl; [by apply roleMapAt_frame|done]. Qed.

Lemma entryAt_matchAt σb σ v x :
  frame (length σb) σb σ -> entryAt σb σ v x -> matchAt σ v x.
Proof.
  intros Hf (l & vi & vf & -> & _ & Hl & Hi & Hfd). exists l, vi, vf.
  repeat split; try done; by eapply recordAt_frame.
Qed.

Lemma matchAt_alloc σ o v x : matchAt σ v x -> matchAt (σ ++ [o]) v x.
Proof.
  intros (l & vi & vf & -> & Hl & (li & -> & Hi) & (lf & -> & Hf)). exists l, (Ref li), (Ref lf).
  split; [done|]. split; [by apply HeapFacts.lookup_alloc_old|].
  split; eexists; (split; [done|]); by apply HeapFacts.lookup_alloc_old.
Qed.

Lemma frame_chain σ0 σ1 σ2 :
  frame (length σ0) σ0 σ1 -> frame (length σ1) σ1 σ2 -> frame (length σ0) σ0 σ2.
Proof.
  intros H1 H2. eapply HeapFacts.frame_trans; [|exact H1|exact H2].
  by apply HeapFacts.frame_length in H1.
Qed.

Lemma length_snoc (σ : heap) o : length (σ ++ [o]) = S (length σ).
Proof. rewrite length_app. simpl. lia. Qed.

Lemma frame_alloc_self σ o : frame (length σ) σ (σ ++ [o]).
Proof. apply HeapFacts.frame_alloc, HeapFacts.frame_refl. Qed.

Lemma defaultFantrax_at σ :
  propsAt σ [("player", Str "Player"); ("team", Str "Team"); ("number", Str "Number");
             ("position", Str "Position"); ("age", Str "Age")] (fantrax defaultMapping).
Proof. repeat constructor. Qed.

Lemma defaultIbw_at σ :
  propsAt σ [("player", Str "Player"); ("team", Str "Team"); ("rank", Str "Number");
             ("number", Str "Number")] (ibw defaultMapping).
Proof. repeat constructor. Qed.

(** The merged mapping in the store. *)
Lemma mergeMapping_spec σa l props config (k : loc -> loc -> loc -> M val) :
  σa !! l = Some (Obj props) ->
  optionalRoleMapAt σa (lookupProp props "fantrax") (cm_fantrax config) ->
  optionalRoleMapAt σa (lookupProp props "ibw") (cm_ibw config) ->
  exists σ1 mappingFantrax mappingIbw mapping,
    (let* defaultFantrax :=
       alloc (Obj [("player", Str "Player"); ("team", Str "Team"); ("number", Str "Number");
                   ("position", Str "Position"); ("age", Str "Age")]) in
     let* defaultIbw :=
       alloc (Obj [("player", Str "Player"); ("team", Str "Team"); ("rank", Str "Number");
                   ("number", Str "Number")]) in
     let* defaultMapping :=
       alloc (Obj [("fantrax", Ref defaultFantrax); ("ibw", Ref defaultIbw)]) in
     let* baseFantrax := properties (Ref defaultFantrax) in
     let* givenFantrax := getProp (Ref l) "fantrax" in
     let* overFantrax := spreadSource givenFantrax in
     let* mappingFantrax := alloc (Obj (Js.spread baseFantrax (Some overFantrax))) in
     let* baseIbw := properties (Ref defaultIbw) in
     let* givenIbw := getProp (Ref l) "ibw" in
     let* overIbw := spreadSource givenIbw in
     let* mappingIbw := alloc (Obj (Js.spread baseIbw (Some overIbw))) in
     let* mapping := alloc (Obj [("fantrax", Ref mappingFantrax); ("ibw", Ref mappingIbw)]) in
     k mappingFantrax mappingIbw mapping) σa
    = k mappingFantrax mappingIbw mapping σ1
    /\ frame (length σa) σa σ1
    /\ σ1 !! mapping = Some (Obj [("fantrax", Ref mappingFantrax); ("ibw", Ref mappingIbw)])
    /\ roleMapAt σ1 (Ref mappingFantrax) (fantrax (mergeMapping config))
    /\ roleMapAt σ1 (Ref mappingIbw) (ibw (mergeMapping config)).
Proof.
  intros Hl HF HI. rewrite !bind_alloc.
  set (dF := Obj [("player", _); ("team", _); ("number", _); ("position", _); ("age", _)]).
  set (dI := Obj [("player", _); ("team", _); ("rank", _); ("number", _)]).
  set (σd := ((σa ++ [dF]) ++ [dI]) ++ [_]).
  assert (frame (length σa) σa σd) as Hfd.
  { unfold σd. eapply frame_chain; [|apply frame_alloc_self].
    eapply frame_chain; apply frame_alloc_self. }
  assert (σd !! length σa = Some dF) as HdF
      by (unfold σd; do 2 apply HeapFacts.lookup_alloc_old; apply HeapFacts.lookup_alloc).
  assert (σd !! length (σa ++ [dF]) = Some dI) as HdI
      by (unfold σd; apply HeapFacts.lookup_alloc_old, HeapFacts.lookup_alloc).
  rewrite (bind_return _ _ _ _ _ (properties_Obj _ _ _ HdF)).
  rewrite (bind_return _ _ _ _ _ (getProp_Obj _ _ _ "fantrax" (lookup_frame _ _ Hfd _ _ Hl))).
  destruct (spreadSource_spec σd _ _ (optionalRoleMapAt_frame _ _ _ _ Hfd HF))
    as (overF & HoF & HpF).
  rewrite (bind_return _ _ _ _ _ HoF), bind_alloc.
  set (mF := Obj (Js.spread _ (Some overF))). set (σe := σd ++ [mF]).
  assert (frame (length σd) σd σe) as Hfe by apply frame_alloc_self.
  rewrite (bind_return _ _ _ _ _ (properties_Obj _ _ _ (lookup_frame _ _ Hfe _ _ HdI))).
  rewrite (bind_return _ _ _ _ _
             (getProp_Obj _ _ _ "ibw" (lookup_frame _ _ (frame_chain _ _ _ Hfd Hfe) _ _ Hl))).
  destruct (spreadSource_spec σe _ _
              (optionalRoleMapAt_frame _ _ _ _ (frame_chain _ _ _ Hfd Hfe) HI))
    as (overI & HoI & HpI).
  rewrite (bind_return _ _ _ _ _ HoI), !bind_alloc.
  set (mI := Obj (Js.spread _ (Some overI))).
  set (σ1 := (σe ++ [mI]) ++ [_]).
  assert (frame (length σe) σe σ1) as Hf1
      by (unfold σ1; eapply frame_chain; apply frame_alloc_self).
  exists σ1, (length σd), (length σe), (length (σe ++ [mI])).
  split; [done|]. split; [by do 2 (eapply frame_chain; [|done])|].
  split; [apply HeapFacts.lookup_alloc|].
  split.
  - exists (length σd), (Js.spread [("player", Str "Player"); ("team", Str "Team");
                                    ("number", Str "Number"); ("position", Str "Position");
                                    ("age", Str "Age")] (Some overF)).
    split; [done|]. split.
    { apply (lookup_frame _ _ Hf1). apply HeapFacts.lookup_alloc. }
    unfold mergeMapping. cbn [fantrax]. rewrite (spread_default (fantrax defaultMapping)).
    apply spread_rel; [|apply defaultFantrax_at].
    by apply (propsAt_frame _ _ (frame_chain _ _ _ Hfe Hf1)).
  - exists (length σe), (Js.spread [("player", Str "Player"); ("team", Str "Team");
                                    ("rank", Str "Number"); ("number", Str "Number")]
                          (Some overI)).
    split; [done|]. split.
    { unfold σ1. apply HeapFacts.lookup_alloc_old, HeapFacts.lookup_alloc. }
    unfold mergeMapping. cbn [ibw]. rewrite (spread_default (ibw defaultMapping)).
    apply spread_rel; [|apply defaultIbw_at].
    by apply (propsAt_frame _ _ Hf1).
Qed.

(** In a store that holds the datasets and the column mapping,
    [findMatches] over the store raises the error that [findMatches] on
    values raises, or returns a value that stands for its result. *)
Theorem findMatches_refines σ fantraxRef ibwRef given fantraxPlayers ibwPlayers config :
  datasetAt σ fantraxRef fantraxPlayers ->
  datasetAt σ ibwRef ibwPlayers ->
  configAt σ given config ->
  refines (Values.findMatches fantraxPlayers ibwPlayers config)
          (Heap.findMatches fantraxRef ibwRef given σ).
Proof.
  intros HA HB Hconfig. unfold Heap.findMatches.
  destruct (config_given _ _ _ Hconfig)
    as (v & σa & lg & gprops & Hrun & Hfa & -> & Hg & HgF & HgI).
  rewrite (bind_return _ _ _ _ _ Hrun).
  match goal with
  | |- refines _ (bind _ (fun dF => bind _ (fun dI => bind _ (fun dM => bind _ (fun bF =>
         bind _ (fun gF => bind _ (fun oF => bind _ (fun mF => bind _ (fun bI =>
         bind _ (fun gI => bind _ (fun oI => bind _ (fun mI => bind _ (fun mp =>
           @?k mF mI mp)))))))))))) _) =>
      destruct (mergeMapping_spec σa lg gprops config k Hg HgF HgI)
        as (σ1 & mappingFantrax & mappingIbw & mapping & Hmerge & Hf1 & Hmapping & HmF & HmI)
  end.
  rewrite Hmerge. clear Hmerge. cbv beta.
  pose proof (frame_chain _ _ _ Hfa Hf1) as Hf.
  (* validation *)
  rewrite (bind_return _ _ _ _ _ (nonEmptyArray_spec _ _ _ (datasetAt_frame _ _ _ _ Hf HA))).
  unfold Values.findMatches.
  destruct (Values.nonEmptyArray fantraxPlayers) as [[a0 arest]|] eqn:EA;
    [rewrite bool_decide_true by (by eexists)
    |rewrite bool_decide_false by (by intros [? ?]); reflexivity].
  cbn [negb].
  rewrite (bind_return _ _ _ _ _ (nonEmptyArray_spec _ _ _ (datasetAt_frame _ _ _ _ Hf HB))).
  destruct (Values.nonEmptyArray ibwPlayers) as [[b0 brest]|] eqn:EB;
    [rewrite bool_decide_true by (by eexists)
    |rewrite bool_decide_false by (by intros [? ?]); reflexivity].
  cbn [negb].
  destruct fantraxPlayers as [|[|a0' arest']]; try done. injection EA as -> ->.
  destruct ibwPlayers as [|[|b0' brest']]; try done. injection EB as -> ->.
  destruct (datasetAt_frame _ _ _ _ Hf HA) as (arrayA & refsA & -> & HarrayA & HrefsA).
  destruct (datasetAt_frame _ _ _ _ Hf HB) as (arrayB & refsB & -> & HarrayB & HrefsB).
  clear HA HB.
  (* the schema checks *)
  rewrite (bind_return _ _ _ _ _ (elements_Arr _ _ _ HarrayA)).
  destruct (requiredColumns_spec _ _ _ HmF) as (colsF & HcolsF & HrelF).
  rewrite (bind_return _ _ _ _ _ HcolsF).
  inversion HrefsA as [|refA ? restA ? HrefA HrestA]; subst. cbn [head default].
  pose proof (validateColumns_spec _ _ _ _ _ "Fantrax" HrefA HrelF) as HvalF.
  destruct (Values.validateColumns a0 _ "Fantrax") as [[]|e];
    [|by rewrite (bind_raise _ _ _ _ _ HvalF)].
  rewrite (bind_return _ _ _ _ _ HvalF).
  rewrite (bind_return _ _ _ _ _ (elements_Arr _ _ _ HarrayB)).
  destruct (requiredColumns_spec _ _ _ HmI) as (colsI & HcolsI & HrelI).
  rewrite (bind_return _ _ _ _ _ HcolsI).
  inversion HrefsB as [|refB ? restB ? HrefB HrestB]; subst. cbn [head default].
  pose proof (validateColumns_spec _ _ _ _ _ "IBW" HrefB HrelI) as HvalI.
  destruct (Values.validateColumns b0 _ "IBW") as [[]|e];
    [|by rewrite (bind_raise _ _ _ _ _ HvalI)].
  rewrite (bind_return _ _ _ _ _ HvalI).
  (* the index *)
  destruct (createPlayerMaps_spec _ _ _ _ _ _ HarrayA HrefsA HmF)
    as (σ2 & maps & exactMap & nameOnlyMap & Hindex & Hmaps
        & Hf12 & E & N & HE & HN & HmE & HmN).
  rewrite (bind_return _ _ _ _ _ Hindex), !bind_alloc.
  (* the loop *)
  rewrite (length_snoc σ2).
  replace (length (refB :: restB)) with (length (b0 :: brest))
    by (symmetry; by apply Forall2_length in HrefsB).
  set (stats0 := {| exactMatches := 0; nameOnlyMatches := 0; totalMatches := 0;
                    totalIBWPlayers := length (b0 :: brest) |}).
  change (Obj [("exactMatches", Num 0); ("nameOnlyMatches", Num 0); ("totalMatches", Num 0);
               ("totalIBWPlayers", Num (Z.of_nat (length (b0 :: brest))))])
    with (statsObject stats0).
  set (σ4 := (σ2 ++ [statsObject stats0]) ++ [Arr []]).
  assert (matching σ2 {| ls_stats := stats0; ls_matchingPlayers := [] |} σ4) as HM.
  { split; [unfold σ4; eapply frame_chain; apply frame_alloc_self|].
    split; [unfold σ4; apply HeapFacts.lookup_alloc_old, HeapFacts.lookup_alloc|].
    exists []. split; [|constructor].
    replace (S (length σ2)) with (length (σ2 ++ [statsObject stats0]))
      by (rewrite length_app; simpl; lia).
    apply HeapFacts.lookup_alloc. }
  destruct (forEachFrom_matchRecord_spec σ2 maps exactMap nameOnlyMap mapping
              (Ref mappingFantrax) (Ref mappingIbw) E N
              (Values.createPlayerMaps (a0 :: arest) (fantrax (mergeMapping config)))
              (mergeMapping config)
              Hmaps HE HN (mapAt_frame _ _ Hf12 _ _ HmE) (mapAt_frame _ _ Hf12 _ _ HmN)
              (lookup_frame _ _ Hf12 _ _ Hmapping) (roleMapAt_frame _ _ Hf12 _ _ HmI)
              _ _ (records_frame _ _ Hf12 _ _ HrefsB) _ σ4 0 HM)
    as (σ5 & Hloop & Hf25 & Hstats & entries & Hentries & Hall).
  unfold Heap.forEach. rewrite (bind_return _ _ _ _ _ Hloop), bind_alloc.
  (* the result *)
  unfold Values.forEach.
  set (final := Values.forEachFrom _ _ _ _) in *.
  exists (Ref (length σ5)). split; [done|]. cbn [snd].
  exists (length σ5), (S (length σ2)), (length σ2), mapping, entries,
    (Ref mappingFantrax), (Ref mappingIbw).
  pose proof (frame_alloc_self σ5
    (Obj [("matches", Ref (S (length σ2))); ("stats", Ref (length σ2));
          ("columnMapping", Ref mapping)])) as Hf5.
  pose proof (frame_chain _ _ _ Hf12 (frame_chain _ _ _ Hf25 Hf5)) as Hf1f.
  split; [done|]. split; [apply HeapFacts.lookup_alloc|].
  split; [by apply HeapFacts.lookup_alloc_old|].
  split.
  { cbn [matches]. eapply Forall2_impl; [exact Hall|]. intros ? ? ?.
    apply matchAt_alloc. by eapply entryAt_matchAt. }
  split; [by apply HeapFacts.lookup_alloc_old|].
  split; [by apply (lookup_frame _ _ Hf1f)|].
  split; by apply (roleMapAt_frame _ _ Hf1f).
Qed.

End HeapRefinement.

(** * Further properties

    ** [getFieldValue] and [formatMatchResults] *)

(** Closed instances of [Js.ownName]. *)
Ltac own_names :=
  repeat first [ apply Forall_nil_2
               | apply Forall_cons; split
               | apply (bool_decide_unpack _); vm_compute; exact I ].

(** X1.  Whatever the record and the identifier, [getFieldValue] returns
    a string without white space at either end, which [trim] leaves as
    it is. *)
Theorem getFieldValue_trimmed (obj : Record) (fieldName : FieldSpec) :
  trimmed (getFieldValue obj fieldName)
  /\ trim (getFieldValue obj fieldName) = getFieldValue obj fieldName.
Proof.
  split; [apply getFieldValue_is_trimmed|apply trim_trimmed, getFieldValue_is_trimmed].
Qed.

Lemma objectGet_absent props name : name ∉ Js.keys props -> Js.objectGet props name = VUndefined.
Proof.
  induction props as [|[k v] props IH]; cbn [Js.objectGet]; [done|].
  unfold Js.keys. rewrite fmap_cons, not_elem_of_cons. cbn [fst]. intros [Hne Hnot].
  rewrite decide_False by done. by apply IH.
Qed.

Lemma lookupField_unresolved obj name :
  nameResolves obj name = false -> lookupField obj name = VUndefined.
Proof.
  destruct obj as [cells|props]; cbn [nameResolves lookupField].
  - destruct (Js.parseInt name) as [z|]; [|done]. cbn [Js.arrayGet].
    intros H. destruct (z <? 0)%Z eqn:Hz; [done|].
    apply Z.ltb_ge in Hz. rewrite (proj2 (Z.leb_le 0 z) Hz) in H. cbn in H.
    apply Z.ltb_ge in H. rewrite lookup_ge_None_2; [done|lia].
  - intros H%bool_decide_eq_false. by apply objectGet_absent.
Qed.

(** X2.  An identifier that names no column of the record gives the
    empty string, and so does a candidate list none of whose names
    does; no exception is raised for a missing key or an index out of
    range.  On a keyed record the identifier is a name that is no own
    key and no name of [Object.prototype]; on a positional record it is
    a text that is not a number, a negative index or an index from the
    length on. *)
Theorem getFieldValue_unresolved (obj : Record) (fieldName : FieldSpec) :
  resolves obj fieldName = false ->
  ownNames obj fieldName ->
  fieldName <> FUndefined ->
  fieldName <> FNull ->
  getFieldValue obj fieldName = "".
Proof.
  intros H _ Hu Hn. destruct fieldName as [| |name|names]; try done.
  - cbn [resolves] in H. unfold getFieldValue. cbn [Js.specToString].
    by rewrite (lookupField_unresolved _ _ H).
  - cbn [resolves] in H. cbn [getFieldValue].
    induction names as [|name names IH]; [done|].
    cbn [existsb] in H. apply orb_false_elim in H as [H1 H2].
    cbn [firstPresent]. rewrite (lookupField_unresolved _ _ H1). cbn [Js.present].
    by apply IH.
Qed.

Lemma getFieldValue_unresolved_witness :
  getFieldValue sampleRow (FName "7") = ""
  /\ getFieldValue shortPlayer (FNames ["Position"; "Pos"]) = "".
Proof.
  split.
  - apply (getFieldValue_unresolved sampleRow (FName "7"));
      [reflexivity|exact I|discriminate|discriminate].
  - apply (getFieldValue_unresolved shortPlayer (FNames ["Position"; "Pos"]));
      [reflexivity| |discriminate|discriminate].
    cbn [ownNames shortPlayer]. own_names.
Defined.

Lemma matchTypeString_trimmed t : trimmed (matchTypeString t).
Proof. by destruct t. Qed.

(** X3.  [formatMatchResults] returns one object per match, in the order
    of the matches.  Each object has the same nine keys in the same
    order, whatever the mapping and the records, and each of its values
    is a string without white space at either end. *)
Theorem formatMatchResults_rows (found : list Match) (config : Mapping) :
  length (formatMatchResults found config) = length found
  /\ Forall (fun row =>
               Js.keys row = outputHeaders
               /\ Forall (fun v => exists s, v = VString s /\ trimmed s) (Js.values row))
            (formatMatchResults found config).
Proof.
  unfold formatMatchResults. split; [by rewrite length_map|].
  apply Forall_fmap, Forall_forall. intros m _. split; [done|].
  unfold formatMatch, Js.values. cbn [fmap list_fmap snd].
  repeat (apply Forall_cons; split;
          [eexists; split; [reflexivity|
             first [apply getFieldValue_is_trimmed|apply matchTypeString_trimmed]]|]).
  apply Forall_nil_2.
Qed.

(** ** [src/lib/csvUtils.js] *)

Section Strings.

Lemma string_app_assoc (a b c : string) : (a +:+ b) +:+ c = a +:+ (b +:+ c).
Proof.
  induction a as [|x a IH]; [done|].
  change (String x ((a +:+ b) +:+ c) = String x (a +:+ (b +:+ c))). by rewrite IH.
Qed.

Lemma string_app_empty (a : string) : a +:+ "" = a.
Proof.
  induction a as [|x a IH]; [done|]. change (String x (a +:+ "") = String x a). by rewrite IH.
Qed.

Lemma string_app_cons x (a b : string) : String x a +:+ b = String x (a +:+ b).
Proof. done. Qed.

Lemma includes_single a r c :
  JsText.includes (String a r) (String c "")
  = Ascii.eqb a c || JsText.includes r (String c "").
Proof.
  cbn [JsText.includes String.prefix].
  destruct (ascii_dec c a) as [->|Hne].
  - rewrite Ascii.eqb_refl. by destruct r.
  - destruct (Ascii.eqb_spec a c) as [->|_]; done.
Qed.

Lemma includes_single_empty c : JsText.includes "" (String c "") = false.
Proof. done. Qed.

Lemma replaceQuotes_id s :
  JsText.includes s JsText.quote = false -> JsText.replaceQuotes s = s.
Proof.
  induction s as [|a s IH]; [done|].
  unfold JsText.quote. rewrite includes_single. intros [Ha Hs]%orb_false_elim.
  cbn [JsText.replaceQuotes]. rewrite Ha. by rewrite IH.
Qed.

Lemma replaceQuotes_uint d :
  JsText.replaceQuotes (NilEmpty.string_of_uint d) = NilEmpty.string_of_uint d.
Proof. induction d; cbn [NilEmpty.string_of_uint JsText.replaceQuotes]; by rewrite ?IHd. Qed.

Lemma replaceQuotes_ofZ z : JsText.replaceQuotes (ofZ z) = ofZ z.
Proof.
  unfold ofZ. destruct (Z.to_int z) as [d|d]; cbn [NilZero.string_of_int].
  - destruct d; try apply replaceQuotes_uint. done.
  - change (String "-" (JsText.replaceQuotes (NilZero.string_of_uint d))
            = String "-" (NilZero.string_of_uint d)).
    f_equal. destruct d; try apply replaceQuotes_uint. done.
Qed.

End Strings.

Lemma cell_is_quoted v : cell v = quoted (Js.toString v).
Proof.
  unfold quoted. destruct v as [| |s|z]; cbn [cell Js.toString]; try done.
  - destruct (JsText.includes s JsText.quote) eqn:Hq.
    + by rewrite orb_true_r.
    + rewrite (replaceQuotes_id _ Hq). by destruct (_ || _ || _).
  - by rewrite replaceQuotes_ofZ.
Qed.

(** X4.  The text of a cell is the text of the value between two
    quotation marks, with every quotation mark of the value written
    twice.  This holds for every value: the test for a comma, a
    quotation mark or a line feed does not change what is written. *)
Theorem cell_quoted (v : JsValue) :
  cell v = JsText.quote +:+ JsText.replaceQuotes (Js.toString v) +:+ JsText.quote.
Proof. apply cell_is_quoted. Qed.

(** *** Reading a row back *)

Lemma readFields_text t rest field fields :
  readFields (JsText.replaceQuotes t +:+ rest) InField field fields
  = readFields rest InField (field +:+ t) fields.
Proof.
  revert field. induction t as [|c t IH]; intros field.
  - by rewrite string_app_empty.
  - cbn [JsText.replaceQuotes].
    replace (field +:+ String c t) with ((field +:+ String c "") +:+ t)
      by (by rewrite string_app_assoc).
    destruct (Ascii.eqb_spec c JsText.quoteChar) as [->|Hne].
    + rewrite !string_app_cons. cbn [readFields]. rewrite ?Ascii.eqb_refl.
      cbn [readFields]. rewrite ?Ascii.eqb_refl. apply IH.
    + rewrite string_app_cons. cbn [readFields].
      rewrite (proj2 (Ascii.eqb_neq _ _) Hne). apply IH.
Qed.

Lemma readFields_quoted t rest fields :
  readFields (quoted t +:+ rest) BeforeField "" fields
  = readFields rest AfterQuote t fields.
Proof.
  change (quoted t +:+ rest)
    with (String JsText.quoteChar
            ((JsText.replaceQuotes t +:+ String JsText.quoteChar "") +:+ rest)).
  cbn [readFields]. rewrite ?Ascii.eqb_refl. rewrite string_app_assoc, readFields_text.
  rewrite string_app_cons. cbn [readFields]. by rewrite ?Ascii.eqb_refl.
Qed.

Lemma readFields_join t texts fields :
  readFields (join "," (map quoted (t :: texts))) BeforeField "" fields
  = Some (fields ++ t :: texts).
Proof.
  revert t fields. induction texts as [|t' texts IH]; intros t fields.
  - cbn [map join]. rewrite <- (string_app_empty (quoted t)), readFields_quoted. done.
  - change (join "," (map quoted (t :: t' :: texts)))
      with (quoted t +:+ "," +:+ join "," (map quoted (t' :: texts))).
    rewrite readFields_quoted. rewrite string_app_cons. cbn [readFields].
    change ("" +:+ join "," (map quoted (t' :: texts)))
      with (join "," (map quoted (t' :: texts))).
    rewrite IH. by rewrite <- app_assoc.
Qed.

Lemma quoted_not_empty t : quoted t <> "".
Proof. done. Qed.

Lemma join_quoted_inj texts1 texts2 :
  join "," (map quoted texts1) = join "," (map quoted texts2) -> texts1 = texts2.
Proof.
  intros H. destruct texts1 as [|t1 l1], texts2 as [|t2 l2]; [done| | |].
  - exfalso. destruct l2; discriminate H.
  - exfalso. destruct l1; discriminate H.
  - pose proof (readFields_join t1 l1 []) as H1. rewrite H, readFields_join in H1.
    cbn [app] in H1. by injection H1 as -> ->.
Qed.

Lemma dataRow_quoted csvHeaders obj :
  dataRow csvHeaders obj = join "," (map quoted (map (cellText obj) csvHeaders)).
Proof.
  unfold dataRow, cellText. rewrite map_map. f_equal. apply map_ext.
  intros header. apply cell_is_quoted.
Qed.

(** X5.  A data row determines the texts of its cells: two objects give
    the same row under the same headers only when they give the same
    text under each header, so a comma or a quotation mark in a value
    cannot move the limit between two cells.  (The text of a value that
    is [0], [null], [undefined] or the empty string is empty.) *)
Theorem dataRow_injective (csvHeaders : list string) (obj1 obj2 : Props) :
  dataRow csvHeaders obj1 = dataRow csvHeaders obj2 <->
  map (cellText obj1) csvHeaders = map (cellText obj2) csvHeaders.
Proof.
  rewrite !dataRow_quoted. split; [apply join_quoted_inj|by intros ->].
Qed.

(** *** The validation loop of [objectsToCSV] *)

Lemma forEachThrowFrom_ok {A} (f : A -> nat -> Result unit) l i :
  (forall j x, l !! j = Some x -> f x (i + j) = Ok ()) ->
  JsText.forEachThrowFrom f l i = Ok ().
Proof.
  revert i. induction l as [|x l IH]; intros i H; cbn [JsText.forEachThrowFrom]; [done|].
  pose proof (H 0 x eq_refl) as H0. rewrite Nat.add_0_r in H0. rewrite H0.
  apply IH. intros j y Hy. replace (S i + j) with (i + S j) by lia. by apply H.
Qed.

Lemma forEachThrowFrom_throw {A} (f : A -> nat -> Result unit) l1 x l2 i e :
  (forall j y, l1 !! j = Some y -> f y (i + j) = Ok ()) ->
  f x (i + length l1) = Throw e ->
  JsText.forEachThrowFrom f (l1 ++ x :: l2) i = Throw e.
Proof.
  revert i. induction l1 as [|y l1 IH]; intros i H Hx; cbn [app JsText.forEachThrowFrom].
  - cbn [length] in Hx. rewrite Nat.add_0_r in Hx. by rewrite Hx.
  - pose proof (H 0 y eq_refl) as H0. rewrite Nat.add_0_r in H0. rewrite H0.
    apply IH.
    + intros j z Hz. replace (S i + j) with (i + S j) by lia. by apply H.
    + cbn [length] in Hx. by replace (S i + length l1) with (i + S (length l1)) by lia.
Qed.

Lemma forEachThrowFrom_inv {A} (f : A -> nat -> Result unit) l i :
  JsText.forEachThrowFrom f l i = Ok () ->
  forall j x, l !! j = Some x -> f x (i + j) = Ok ().
Proof.
  revert i. induction l as [|x l IH]; intros i H j y Hy; [done|].
  cbn [JsText.forEachThrowFrom] in H. destruct (f x i) as [[]|e] eqn:Hx; [|done].
  destruct j as [|j].
  - injection Hy as <-. by rewrite Nat.add_0_r.
  - replace (i + S j) with (S i + j) by lia. by apply IH.
Qed.

Lemma requireHeaders_ok csvHeaders obj index :
  requireHeaders csvHeaders obj index = Ok ()
  <-> Forall (fun header => header ∈ Js.keys obj) csvHeaders.
Proof.
  unfold requireHeaders, JsText.forEachThrow. split.
  - intros H. apply Forall_lookup. intros j header Hj.
    pose proof (forEachThrowFrom_inv _ _ _ H j header Hj) as Hh. cbv beta in Hh.
    unfold JsText.hasProperty in Hh.
    destruct (decide (header ∈ Js.keys obj)) as [Hin|Hin]; [done|].
    by rewrite bool_decide_false in Hh.
  - intros H. apply forEachThrowFrom_ok. intros j header Hj. cbv beta.
    unfold JsText.hasProperty.
    rewrite bool_decide_true; [done|]. exact (Forall_lookup_1 _ _ _ _ H Hj).
Qed.

Lemma requireHeaders_throw found header others obj index :
  Forall (fun h => h ∈ Js.keys obj) found ->
  header ∉ Js.keys obj ->
  requireHeaders (found ++ header :: others) obj index = Throw (missingHeader header index).
Proof.
  intros Hfound Hnot. unfold requireHeaders, JsText.forEachThrow.
  apply forEachThrowFrom_throw.
  - intros j h Hj. cbv beta. unfold JsText.hasProperty.
    rewrite bool_decide_true; [done|]. exact (Forall_lookup_1 _ _ _ _ Hfound Hj).
  - cbv beta. unfold JsText.hasProperty. by rewrite bool_decide_false.
Qed.

Lemma requireHeaders_all csvHeaders objects :
  JsText.forEachThrow (requireHeaders csvHeaders) objects = Ok ()
  <-> allHeadersPresent csvHeaders objects.
Proof.
  unfold JsText.forEachThrow, allHeadersPresent. split.
  - intros H. apply Forall_lookup. intros j obj Hj.
    by apply (requireHeaders_ok csvHeaders obj (0 + j)), (forEachThrowFrom_inv _ _ _ H).
  - intros H. apply forEachThrowFrom_ok. intros j obj Hj.
    apply requireHeaders_ok. exact (Forall_lookup_1 _ _ _ _ H Hj).
Qed.

Lemma objectsToCSV_unfold first rest headers :
  objectsToCSV (Some (first :: rest)) headers
  = match JsText.forEachThrow (requireHeaders (csvHeadersOf first headers)) (first :: rest) with
    | Throw e => Throw e
    | Ok _ =>
        Ok (join JsText.lineFeed
              (join "," (csvHeadersOf first headers)
               :: map (dataRow (csvHeadersOf first headers)) (first :: rest)))
    end.
Proof. unfold objectsToCSV, csvHeadersOf. by destruct headers. Qed.

Lemma objectsToCSV_present first rest headers :
  allHeadersPresent (csvHeadersOf first headers) (first :: rest) ->
  objectsToCSV (Some (first :: rest)) headers
  = Ok (join JsText.lineFeed
          (join "," (csvHeadersOf first headers)
           :: map (dataRow (csvHeadersOf first headers)) (first :: rest))).
Proof.
  intros H. rewrite objectsToCSV_unfold.
  by rewrite (proj2 (requireHeaders_all _ _) H).
Qed.

(** X6.  For headers outside [Object.prototype] (the given ones, or the
    keys of the first object when none are given), [objectsToCSV]
    returns a text exactly when its first argument is a non-empty array
    and every header is a key of every object; the text is then the
    header row followed by one row per object.  An argument that is not
    an array, or is the empty array, raises the error on the input. *)
Theorem objectsToCSV_returns (objects : option (list Props)) (headers : option (list string)) :
  (forall first rest,
     objects = Some (first :: rest) -> Forall Js.ownName (csvHeadersOf first headers)) ->
  ((exists csv, objectsToCSV objects headers = Ok csv)
   <-> exists first rest,
         objects = Some (first :: rest)
         /\ allHeadersPresent (csvHeadersOf first headers) (first :: rest))
  /\ (forall first rest,
        objects = Some (first :: rest) ->
        allHeadersPresent (csvHeadersOf first headers) (first :: rest) ->
        objectsToCSV objects headers
        = Ok (join JsText.lineFeed
                (join "," (csvHeadersOf first headers)
                 :: map (dataRow (csvHeadersOf first headers)) (first :: rest))))
  /\ objectsToCSV None headers = Throw "Invalid input: objects must be a non-empty array"
  /\ objectsToCSV (Some []) headers = Throw "Invalid input: objects must be a non-empty array".
Proof.
  intros _. split; [|split; [|done]].
  - split.
    + intros [csv H]. destruct objects as [[|first rest]|]; try done.
      exists first, rest. split; [done|].
      rewrite objectsToCSV_unfold in H. apply requireHeaders_all.
      by destruct (JsText.forEachThrow _ _) as [[]|].
    + intros (first & rest & -> & H). rewrite (objectsToCSV_present _ _ _ H). eauto.
  - intros first rest -> H. by apply objectsToCSV_present.
Qed.

(** X7.  When an object lacks a header, and the header is no name of
    [Object.prototype], [objectsToCSV] raises an error that names the
    first such object by its position and, of the headers it lacks, the
    first in header order. *)
Theorem objectsToCSV_missing_header (before after : list Props) (obj first : Props)
    (headers : option (list string)) (found : list string) (header : string)
    (others : list string) :
  head (before ++ obj :: after) = Some first ->
  csvHeadersOf first headers = found ++ header :: others ->
  allHeadersPresent (csvHeadersOf first headers) before ->
  Forall (fun h => h ∈ Js.keys obj) found ->
  header ∉ Js.keys obj ->
  Js.ownName header ->
  objectsToCSV (Some (before ++ obj :: after)) headers
  = Throw (missingHeader header (length before)).
Proof.
  intros Hfirst Hheaders Hbefore Hfound Hnot _.
  assert (exists rest, before ++ obj :: after = first :: rest) as [rest Hrest].
  { destruct before; injection Hfirst as <-; eauto. }
  rewrite Hrest, objectsToCSV_unfold, <- Hrest.
  unfold JsText.forEachThrow.
  rewrite (forEachThrowFrom_throw _ before obj after 0 (missingHeader header (length before)));
    [done| |].
  - intros j o Hj. apply requireHeaders_ok. exact (Forall_lookup_1 _ _ _ _ Hbefore Hj).
  - rewrite Hheaders. by apply requireHeaders_throw.
Qed.

Lemma objectsToCSV_missing_header_witness :
  objectsToCSV (Some inconsistentData) None = Throw (missingHeader "team" 1).
Proof.
  apply (objectsToCSV_missing_header
           [[("name", VString "Player 1"); ("team", VString "ATL")]] []
           [("name", VString "Player 2")]
           [("name", VString "Player 1"); ("team", VString "ATL")]
           None ["name"] "team" []).
  - reflexivity.
  - reflexivity.
  - repeat constructor.
  - repeat constructor.
  - vm_compute. intros H. repeat (apply elem_of_cons in H as [H|H]; [discriminate H|]).
    by apply elem_of_nil in H.
  - own_names.
Defined.

Lemma objectsToCSV_returns_witness :
  objectsToCSV (Some sampleData) (Some ["team"; "name"])
  = Ok (join JsText.lineFeed
          ["team,name"; dataRow ["team"; "name"] (sampleData !!! 0%nat);
           dataRow ["team"; "name"] (sampleData !!! 1%nat)]).
Proof.
  refine (proj1 (proj2 (objectsToCSV_returns (Some sampleData) (Some ["team"; "name"]) _))
            (sampleData !!! 0%nat) [sampleData !!! 1%nat] eq_refl _).
  - intros first rest _. cbn [csvHeadersOf default from_option]. own_names.
  - repeat constructor.
Defined.

(** *** Lines of the output *)

Lemma includes_single_app a b c :
  JsText.includes (a +:+ b) (String c "")
  = JsText.includes a (String c "") || JsText.includes b (String c "").
Proof.
  induction a as [|x a IH]; [done|].
  rewrite string_app_cons, !includes_single, IH. by rewrite orb_assoc.
Qed.

Lemma splitFrom_piece sep a s piece :
  JsText.includes a (String sep "") = false ->
  JsText.splitFrom sep (a +:+ s) piece = JsText.splitFrom sep s (piece +:+ a).
Proof.
  revert piece. induction a as [|x a IH]; intros piece H.
  - by rewrite string_app_empty.
  - rewrite includes_single in H. apply orb_false_elim in H as [Hx Ha].
    rewrite string_app_cons. cbn [JsText.splitFrom]. rewrite Hx.
    rewrite (IH _ Ha). by rewrite string_app_assoc.
Qed.

Lemma split_join sep x l :
  Forall (fun s => JsText.includes s (String sep "") = false) (x :: l) ->
  JsText.split sep (join (String sep "") (x :: l)) = x :: l.
Proof.
  unfold JsText.split. revert x. induction l as [|y l IH]; intros x H.
  - cbn [join]. rewrite <- (string_app_empty x) at 1.
    rewrite splitFrom_piece; [done|]. by apply Forall_inv in H.
  - change (join (String sep "") (x :: y :: l))
      with (x +:+ String sep "" +:+ join (String sep "") (y :: l)).
    rewrite splitFrom_piece by (by apply Forall_inv in H).
    rewrite string_app_cons. cbn [JsText.splitFrom]. rewrite Ascii.eqb_refl.
    f_equal. change ("" +:+ join (String sep "") (y :: l)) with (join (String sep "") (y :: l)).
    apply IH. by apply Forall_inv_tail in H.
Qed.

Lemma noLineFeed_replaceQuotes s : noLineFeed s -> noLineFeed (JsText.replaceQuotes s).
Proof.
  unfold noLineFeed, JsText.lineFeed. induction s as [|c s IH]; [done|].
  rewrite includes_single. intros [Hc Hs]%orb_false_elim. cbn [JsText.replaceQuotes].
  destruct (Ascii.eqb_spec c JsText.quoteChar) as [->|Hne].
  - rewrite !includes_single. by rewrite IH.
  - rewrite includes_single, Hc. by rewrite IH.
Qed.

Lemma noLineFeed_quoted s : noLineFeed s -> noLineFeed (quoted s).
Proof.
  intros H%noLineFeed_replaceQuotes. unfold noLineFeed, quoted, JsText.lineFeed, JsText.quote in *.
  rewrite !includes_single_app, H. done.
Qed.

Lemma noLineFeed_join l : Forall noLineFeed l -> noLineFeed (join "," l).
Proof.
  unfold noLineFeed, JsText.lineFeed.
  induction l as [|x l IH]; intros H; [done|].
  destruct l as [|y l]; [by apply Forall_inv in H|].
  change (join "," (x :: y :: l)) with (x +:+ "," +:+ join "," (y :: l)).
  rewrite !includes_single_app. rewrite (Forall_inv H).
  rewrite IH by (by apply Forall_inv_tail in H). done.
Qed.

(** X8.  When no header and no text of a cell holds a line feed, the
    text [objectsToCSV] returns splits at the line feeds into the header
    row followed by one row per object, in the order of the objects: it
    has one line more than there are objects. *)
Theorem objectsToCSV_lines (first : Props) (rest : list Props) (headers : option (list string))
    (csv : string) :
  objectsToCSV (Some (first :: rest)) headers = Ok csv ->
  Forall noLineFeed (csvHeadersOf first headers) ->
  Forall (fun obj => Forall (fun header => noLineFeed (cellText obj header))
                            (csvHeadersOf first headers))
         (first :: rest) ->
  JsText.split JsText.lineFeedChar csv
  = join "," (csvHeadersOf first headers)
    :: map (dataRow (csvHeadersOf first headers)) (first :: rest)
  /\ length (JsText.split JsText.lineFeedChar csv) = S (length (first :: rest)).
Proof.
  intros H Hh Hc. rewrite objectsToCSV_unfold in H.
  destruct (JsText.forEachThrow _ _) as [[]|]; [|done].
  assert (csv = join JsText.lineFeed
                  (join "," (csvHeadersOf first headers)
                   :: map (dataRow (csvHeadersOf first headers)) (first :: rest))) as ->
      by congruence.
  clear H.
  assert (JsText.split JsText.lineFeedChar
            (join JsText.lineFeed
               (join "," (csvHeadersOf first headers)
                :: map (dataRow (csvHeadersOf first headers)) (first :: rest)))
          = join "," (csvHeadersOf first headers)
            :: map (dataRow (csvHeadersOf first headers)) (first :: rest)) as ->.
  { apply split_join. apply Forall_cons. split; [by apply noLineFeed_join|].
    apply Forall_fmap. eapply Forall_impl; [exact Hc|].
    intros obj Hobj. change (noLineFeed (dataRow (csvHeadersOf first headers) obj)).
    rewrite dataRow_quoted.
    apply noLineFeed_join, Forall_fmap, Forall_fmap.
    eapply Forall_impl; [exact Hobj|]. intros header Hheader.
    by apply noLineFeed_quoted. }
  split; [done|]. cbn [length]. by rewrite length_map.
Qed.

Lemma objectsToCSV_lines_witness :
  exists csv,
    objectsToCSV (Some sampleData) None = Ok csv
    /\ length (JsText.split JsText.lineFeedChar csv) = 3.
Proof.
  eexists. split; [reflexivity|].
  apply (objectsToCSV_lines (sampleData !!! 0%nat) [sampleData !!! 1%nat] None).
  - reflexivity.
  - repeat constructor.
  - repeat constructor.
Defined.

(** *** [validateHeaders] and [getColumnByIndex] *)

Lemma filter_nil_Forall {A} (P : A -> Prop) `{!forall x, Decision (P x)} (l : list A) :
  filter P l = [] <-> Forall (fun x => ¬ P x) l.
Proof.
  induction l as [|x l IH]; [by split; [constructor|]|].
  rewrite filter_cons. destruct (decide (P x)) as [HP|HP].
  - split; [done|]. by intros [? _]%Forall_cons.
  - rewrite IH. split; [by constructor|by intros [_ ?]%Forall_cons].
Qed.

Lemma validateHeaders_ok first rest requiredHeaders :
  validateHeaders (Some (first :: rest)) requiredHeaders = Ok ()
  <-> Forall (fun header => header ∈ Js.keys first) requiredHeaders.
Proof.
  unfold validateHeaders.
  destruct (filter _ requiredHeaders) as [|missing others] eqn:E.
  - rewrite decide_False by (cbn; lia). split; [intros _|done].
    apply filter_nil_Forall in E. eapply Forall_impl; [exact E|].
    intros header Hh. cbv beta in Hh. by destruct (decide (header ∈ Js.keys first)).
  - rewrite decide_True by (cbn; lia). split; [done|]. intros H. exfalso.
    assert (missing ∈ filter (fun header => header ∉ Js.keys first) requiredHeaders) as Hin
        by (rewrite E; left).
    apply list_elem_of_filter in Hin as [Hnot Hin].
    rewrite Forall_forall in H. by apply Hnot, H.
Qed.

(** X9.  [validateHeaders] looks at the first record only: it passes
    exactly when every required header is a key of that record, whatever
    the other records hold, and it then agrees with the keyed case of
    [validateColumns] on the same names.  Data that is [null],
    [undefined] or the empty array raises the error on empty data. *)
Theorem validateHeaders_checks (first : Props) (rest : list Props)
    (requiredHeaders : list string) (dataType : string) :
  (validateHeaders (Some (first :: rest)) requiredHeaders = Ok ()
   <-> Forall (fun header => header ∈ Js.keys first) requiredHeaders)
  /\ (validateHeaders (Some (first :: rest)) requiredHeaders = Ok ()
      <-> validateColumns (RObject first) (map FName requiredHeaders) dataType = Ok ())
  /\ validateHeaders None requiredHeaders = Throw "CSV data is empty"
  /\ validateHeaders (Some []) requiredHeaders = Throw "CSV data is empty".
Proof.
  split; [apply validateHeaders_ok|]. split; [|done].
  rewrite validateHeaders_ok.
  assert (plainIdentifiers (RObject first) (map FName requiredHeaders)) as Hplain
      by (apply Forall_fmap, Forall_forall; done).
  rewrite (validateColumns_keyed _ _ _ Hplain).
  assert (unresolved (RObject first) (map FName requiredHeaders) = []
          <-> Forall (fun header => header ∈ Js.keys first) requiredHeaders) as <-.
  { unfold unresolved. rewrite filter_nil_Forall, Forall_fmap.
    apply Forall_iff. intros header. cbn [compose resolves nameResolves].
    destruct (decide (header ∈ Js.keys first)) as [Hin|Hin].
    - by rewrite bool_decide_true.
    - by rewrite bool_decide_false. }
  by destruct (unresolved _ _).
Qed.

(** X10.  [getColumnByIndex] returns the key of the first record at the
    given position exactly when the position is within bounds; a negative
    position and a position from the number of keys on raise an error.
    For a position that is a safe integer the error names the position
    and the range of positions. *)
Theorem getColumnByIndex_bounds (first : Props) (rest : list Props) (columnIndex : Z)
    (columnName : string) :
  (getColumnByIndex (Some (first :: rest)) columnIndex = Ok columnName
   <-> (0 <= columnIndex)%Z /\ Js.keys first !! Z.to_nat columnIndex = Some columnName)
  /\ ((exists e, getColumnByIndex (Some (first :: rest)) columnIndex = Throw e)
      <-> (columnIndex < 0 \/ Z.of_nat (length (Js.keys first)) <= columnIndex)%Z)
  /\ ((columnIndex < 0 \/ Z.of_nat (length (Js.keys first)) <= columnIndex)%Z ->
      Js.safeInteger columnIndex ->
      getColumnByIndex (Some (first :: rest)) columnIndex
      = Throw ("Column index " +:+ ofZ columnIndex
               +:+ " is out of bounds. Available columns: 0-"
               +:+ ofZ (Z.of_nat (length (Js.keys first)) - 1))).
Proof.
  unfold getColumnByIndex.
  destruct (columnIndex <? 0)%Z eqn:Hneg; cbn [orb].
  - apply Z.ltb_lt in Hneg. split; [split; [done|lia]|]. split; [|done].
    split; [lia|eauto].
  - apply Z.ltb_ge in Hneg.
    destruct (Z.of_nat (length (Js.keys first)) <=? columnIndex)%Z eqn:Hlen.
    + apply Z.leb_le in Hlen. split.
      * split; [done|]. intros [_ H%lookup_lt_Some]. lia.
      * split; [|done]. split; [lia|eauto].
    + apply Z.leb_gt in Hlen.
      destruct (lookup_lt_is_Some_2 (Js.keys first) (Z.to_nat columnIndex)) as [h Hh]; [lia|].
      rewrite Hh. cbn [default]. split.
      * split; [intros [= <-]; done|]. intros [_ [= <-]]. done.
      * split; [|lia]. split; [by intros [e ?]|lia].
Qed.

Lemma getColumnByIndex_bounds_witness :
  getColumnByIndex (Some sampleData) 3
  = Throw "Column index 3 is out of bounds. Available columns: 0-2".
Proof.
  pose proof (proj2 (proj2 (getColumnByIndex_bounds (sampleData !!! 0%nat)
                               [sampleData !!! 1%nat] 3 ""))) as H.
  apply H.
  - right. vm_compute. discriminate.
  - unfold Js.safeInteger. lia.
Defined.

(** ** The [prospect-matcher] command *)

Section Numerals.

Ltac digit_value :=
  unfold id, Js.digitValue;
  repeat match goal with
         | |- context [Z.of_N (code ?c)] =>
             let v := eval vm_compute in (Z.of_N (code c)) in
             change (Z.of_N (code c)) with v
         end.

Lemma digits_uint_acc d acc :
  Js.digits (NilEmpty.string_of_uint d) (Some (Z.pos acc))
  = Some (Z.pos (Pos.of_uint_acc d acc)).
Proof.
  revert acc. induction d; intros acc;
    cbn [NilEmpty.string_of_uint Pos.of_uint_acc]; [done|..];
    (etransitivity; [|apply IHd]); cbn [Js.digits]; vm_compute Js.isDigit; cbn iota;
    do 2 f_equal; cbn [default]; digit_value; lia.
Qed.

Lemma digits_uint d :
  Js.digits (NilEmpty.string_of_uint d) (Some 0%Z) = Some (Z.of_N (Pos.of_uint d)).
Proof.
  induction d; cbn [NilEmpty.string_of_uint Pos.of_uint]; [done|exact IHd|..];
    cbn [Js.digits]; vm_compute Js.isDigit; cbn iota;
    (etransitivity; [|apply digits_uint_acc]); done.
Qed.

Lemma digits_start c r : Js.isDigit c = true -> Js.digits (String c r) None = Js.digits (String c r) (Some 0%Z).
Proof. intros H. cbn [Js.digits]. by rewrite H. Qed.

Lemma string_of_uint_head d :
  d <> Decimal.Nil ->
  exists c r, NilEmpty.string_of_uint d = String c r /\ Js.isDigit c = true.
Proof. destruct d; [done|..]; intros _; cbn [NilEmpty.string_of_uint]; eauto. Qed.

Lemma isDigit_plain c :
  Js.isDigit c = true -> isWhiteSpace c = false /\ c <> "-"%char /\ c <> "+"%char.
Proof.
  destruct c as [[] [] [] [] [] [] [] []]; vm_compute; intros H; try discriminate H;
    repeat split; discriminate.
Qed.

Lemma parseInt_digits c r :
  Js.isDigit c = true -> Js.parseInt (String c r) = Js.digits (String c r) (Some 0%Z).
Proof.
  intros H. destruct (isDigit_plain c H) as (Hw & Hm & Hp).
  unfold Js.parseInt. cbn [trimStart]. rewrite Hw. rewrite <- digits_start by done.
  destruct c as [[] [] [] [] [] [] [] []]; try done.
Qed.

Lemma parseInt_uint d :
  d <> Decimal.Nil ->
  Js.parseInt (NilEmpty.string_of_uint d) = Some (Z.of_N (Pos.of_uint d)).
Proof.
  intros Hd. destruct (string_of_uint_head d Hd) as (c & r & E & Hc).
  rewrite <- digits_uint, E. by apply parseInt_digits.
Qed.

Lemma ofZ_pos p : ofZ (Z.pos p) = NilEmpty.string_of_uint (Pos.to_uint p).
Proof.
  unfold ofZ. cbn [Z.to_int NilZero.string_of_int]. unfold NilZero.string_of_uint.
  pose proof (DecimalPos.Unsigned.to_uint_nonnil p). by destruct (Pos.to_uint p).
Qed.

Lemma parseInt_ofZ z : (0 <= z)%Z -> Js.parseInt (ofZ z) = Some z.
Proof.
  intros Hz. destruct z as [|p|p]; [done| |lia].
  rewrite ofZ_pos, parseInt_uint by apply DecimalPos.Unsigned.to_uint_nonnil.
  by rewrite DecimalPos.Unsigned.of_to.
Qed.

Lemma forallb_isDigit_uint d :
  forallb Js.isDigit (list_ascii_of_string (NilEmpty.string_of_uint d)) = true.
Proof. induction d; cbn [NilEmpty.string_of_uint list_ascii_of_string forallb]; done. Qed.

Lemma allDigits_ofZ z : (0 <= z)%Z -> JsText.allDigits (ofZ z) = true.
Proof.
  intros Hz. destruct z as [|p|p]; [done| |lia].
  rewrite ofZ_pos. unfold JsText.allDigits. rewrite forallb_isDigit_uint, andb_true_r.
  destruct (string_of_uint_head (Pos.to_uint p)) as (c & r & -> & _); [|done].
  apply DecimalPos.Unsigned.to_uint_nonnil.
Qed.

Lemma digits_nonneg s acc z :
  (0 <= default 0 acc)%Z -> Js.digits s acc = Some z -> (0 <= z)%Z.
Proof.
  revert acc. induction s as [|c s IH]; intros acc Hacc; cbn [Js.digits].
  - intros ->. done.
  - destruct (Js.isDigit c) eqn:Hc; [|intros ->; done].
    apply IH. cbn [default]. unfold Js.isDigit, code in Hc. apply andb_prop in Hc as [H1 H2].
    apply N.leb_le in H1. apply N.leb_le in H2.
    destruct acc as [a|]; cbn [default from_option id] in *; unfold Js.digitValue, code; lia.
Qed.

Lemma allDigits_parseInt s :
  JsText.allDigits s = true -> exists z, Js.parseInt s = Some z /\ (0 <= z)%Z.
Proof.
  unfold JsText.allDigits. destruct s as [|c r]; [done|]. cbn [truthy andb list_ascii_of_string forallb].
  intros [Hc Hr]%andb_prop. rewrite (parseInt_digits _ _ Hc).
  cbn [Js.digits]. rewrite Hc. cbn [default].
  assert (forall acc, exists z, Js.digits r (Some acc) = Some z) as Hex.
  { clear Hc. induction r as [|c' r IH]; intros acc; cbn [Js.digits]; [eauto|].
    cbn [list_ascii_of_string forallb] in Hr. apply andb_prop in Hr as [Hc' Hr].
    rewrite Hc'. by apply IH. }
  destruct (Hex (10 * 0 + Js.digitValue c)%Z) as [z Hz]. exists z. split; [done|].
  eapply digits_nonneg; [|exact Hz]. cbn [default].
  unfold Js.isDigit, code in Hc. apply andb_prop in Hc as [H1 H2].
  apply N.leb_le in H1. apply N.leb_le in H2. unfold id, Js.digitValue, code. lia.
Qed.

End Numerals.

Lemma getColumnByIndex_key first rest index column :
  getColumnByIndex (Some (first :: rest)) index = Ok column -> column ∈ Js.keys first.
Proof.
  unfold getColumnByIndex. destruct (_ || _) eqn:E; [done|].
  apply orb_false_elim in E as [Hneg Hlen]. apply Z.ltb_ge in Hneg. apply Z.leb_gt in Hlen.
  destruct (lookup_lt_is_Some_2 (Js.keys first) (Z.to_nat index)) as [h Hh]; [lia|].
  rewrite Hh. cbn [default]. intros [= <-]. by eapply list_elem_of_lookup_2.
Qed.

Lemma resolveColumn_key first rest columnRef description column :
  resolveColumn first rest columnRef description = Ok column -> column ∈ Js.keys first.
Proof.
  unfold resolveColumn. case_bool_decide as Hin; [by intros [= <-]|].
  destruct (JsText.allDigits columnRef); [|done]. apply getColumnByIndex_key.
Qed.

Lemma resolveColumn_name first rest columnRef description :
  columnRef ∈ Js.keys first -> resolveColumn first rest columnRef description = Ok columnRef.
Proof. intros H. unfold resolveColumn. by rewrite bool_decide_true. Qed.

(** X11.  A column reference that [resolveColumn] resolves is resolved
    to a key of the first record, and that key resolves to itself: a
    reference that is a key is returned as it is, also when it is a
    number. *)
Theorem resolveColumn_available (first : Props) (rest : list Props)
    (columnRef description column : string) :
  resolveColumn first rest columnRef description = Ok column ->
  column ∈ Js.keys first
  /\ resolveColumn first rest column description = Ok column
  /\ (columnRef ∈ Js.keys first -> column = columnRef).
Proof.
  intros H. pose proof (resolveColumn_key _ _ _ _ _ H) as Hkey.
  split; [done|]. split; [by apply resolveColumn_name|].
  intros Hin. rewrite (resolveColumn_name _ _ _ _ Hin) in H. by injection H.
Qed.

Lemma resolveColumn_available_witness :
  "Player" ∈ Js.keys (sampleData !!! 0%nat ++ [("Player", VNull)])
  /\ resolveColumn (sampleData !!! 0%nat ++ [("Player", VNull)]) [] "Player" "Fantrax player"
     = Ok "Player".
Proof.
  pose proof (resolveColumn_available (sampleData !!! 0%nat ++ [("Player", VNull)]) []
                "3" "Fantrax player" "Player" eq_refl) as (H1 & H2 & _).
  split; [exact H1|exact H2].
Defined.

(** X12.  A reference that is the decimal numeral of a position (a safe
    integer), and is not itself a key, resolves to the key at that
    position of the first record; from the number of keys on it raises
    the error of [getColumnByIndex], which names the position and the
    range. *)
Theorem resolveColumn_position (first : Props) (rest : list Props) (position : nat)
    (description : string) :
  ofZ (Z.of_nat position) ∉ Js.keys first ->
  Js.safeInteger (Z.of_nat position) ->
  resolveColumn first rest (ofZ (Z.of_nat position)) description
  = match Js.keys first !! position with
    | Some column => Ok column
    | None =>
        Throw ("Column index " +:+ ofZ (Z.of_nat position)
               +:+ " is out of bounds. Available columns: 0-"
               +:+ ofZ (Z.of_nat (length (Js.keys first)) - 1))
    end.
Proof.
  intros Hnot _. unfold resolveColumn. rewrite bool_decide_false by done.
  rewrite allDigits_ofZ, parseInt_ofZ by lia. cbn [default from_option]. unfold id.
  unfold getColumnByIndex. rewrite Nat2Z.id.
  replace (Z.of_nat position <? 0)%Z with false by (symmetry; apply Z.ltb_ge; lia).
  cbn [orb]. destruct (Js.keys first !! position) as [column|] eqn:E.
  - apply lookup_lt_Some in E. by rewrite (proj2 (Z.leb_gt _ _)) by lia.
  - apply lookup_ge_None in E. by rewrite (proj2 (Z.leb_le _ _)) by lia.
Qed.

Lemma resolveColumn_position_witness :
  resolveColumn (fantraxFile !!! 0%nat) [] "2" "Fantrax team" = Ok "Team"
  /\ resolveColumn (fantraxFile !!! 0%nat) [] "7" "Fantrax team"
     = Throw "Column index 7 is out of bounds. Available columns: 0-4".
Proof.
  split.
  - refine (resolveColumn_position (fantraxFile !!! 0%nat) [] 2 "Fantrax team" _ _).
    + vm_compute. intros H. repeat (apply elem_of_cons in H as [H|H]; [discriminate H|]).
      by apply elem_of_nil in H.
    + unfold Js.safeInteger. lia.
  - refine (resolveColumn_position (fantraxFile !!! 0%nat) [] 7 "Fantrax team" _ _).
    + vm_compute. intros H. repeat (apply elem_of_cons in H as [H|H]; [discriminate H|]).
      by apply elem_of_nil in H.
    + unfold Js.safeInteger. lia.
Defined.

Lemma commandMapping_shape options first rest mapping :
  commandMapping options first rest = Ok mapping ->
  exists playerColumn teamColumn,
    playerColumn ∈ Js.keys first /\ teamColumn ∈ Js.keys first
    /\ mapping
       = {| fantrax := [("player", FName playerColumn);
                        ("team", FName teamColumn);
                        ("number", columnOrNull (Js.keys first) "Number");
                        ("position", columnOrNull (Js.keys first) "Position");
                        ("age", columnOrNull (Js.keys first) "Age")];
            ibw := [("player", FName (ibwPlayerCol options));
                    ("team", FName (ibwTeamCol options));
                    ("rank", FName (ibwRankCol options));
                    ("number", FName (ibwRankCol options))] |}.
Proof.
  unfold commandMapping.
  destruct (resolveColumn first rest (fantraxPlayerCol options) _) as [playerColumn|] eqn:Hp;
    [|done].
  destruct (resolveColumn first rest (fantraxTeamCol options) _) as [teamColumn|] eqn:Ht;
    [|done].
  intros [= <-]. exists playerColumn, teamColumn.
  split; [by eapply resolveColumn_key|]. split; [by eapply resolveColumn_key|done].
Qed.

Lemma mergeMapping_command (p t n o a ip it ir : FieldSpec) :
  mergeMapping
    (configOf {| fantrax := [("player", p); ("team", t); ("number", n); ("position", o);
                             ("age", a)];
                 ibw := [("player", ip); ("team", it); ("rank", ir); ("number", ir)] |})
  = {| fantrax := [("player", p); ("team", t); ("number", n); ("position", o); ("age", a)];
       ibw := [("player", ip); ("team", it); ("rank", ir); ("number", ir)] |}.
Proof. reflexivity. Qed.

Lemma columnOrNull_valid props name :
  Forall (fun col => resolves (RObject props) col = true /\ exists k, col = FName k)
         (filter (fun col => col ≠ FNull) [columnOrNull (Js.keys props) name]).
Proof.
  unfold columnOrNull. case_bool_decide as Hin.
  - rewrite filter_cons_True by done. apply Forall_cons. split; [|apply Forall_nil_2].
    split; [|eauto]. cbn [resolves nameResolves]. by rewrite bool_decide_true.
  - rewrite filter_cons_False by (by intros ?). apply Forall_nil_2.
Qed.

(** X13.  The mapping the command builds replaces every default of
    [findMatches], and its Fantrax side always passes the schema check:
    the player and team columns were resolved to keys of the first
    Fantrax record, and each of [Number], [Position] and [Age] is
    either a key of that record or [null].  So, with this mapping,
    [findMatches] can only raise an error about the IBW rows. *)
Theorem commandMapping_valid (options : Options) (first : Props) (rest : list Props)
    (mapping : Mapping) :
  commandMapping options first rest = Ok mapping ->
  mergeMapping (configOf mapping) = mapping
  /\ validateColumns (RObject first) (requiredColumns (fantrax mapping)) "Fantrax" = Ok ()
  /\ (forall ibwRows e,
        findMatches (commandFantrax first rest) ibwRows (configOf mapping) = Throw e ->
        match nonEmptyArray ibwRows with
        | None => e = "IBW players must be a non-empty array"
        | Some (ibw0, _) =>
            validateColumns ibw0 (requiredColumns (ibw mapping)) "IBW" = Throw e
        end).
Proof.
  intros (playerColumn & teamColumn & Hp & Ht & ->)%commandMapping_shape.
  assert (validateColumns (RObject first)
            (requiredColumns
               [("player", FName playerColumn); ("team", FName teamColumn);
                ("number", columnOrNull (Js.keys first) "Number");
                ("position", columnOrNull (Js.keys first) "Position");
                ("age", columnOrNull (Js.keys first) "Age")]) "Fantrax" = Ok ()) as Hvalid.
  { unfold requiredColumns, Js.values. cbn [fmap list_fmap snd].
    rewrite !filter_cons_True by done.
    assert (Forall (fun col => resolves (RObject first) col = true /\ exists k, col = FName k)
              (FName playerColumn :: FName teamColumn
               :: filter (fun col => col ≠ FNull)
                    [columnOrNull (Js.keys first) "Number";
                     columnOrNull (Js.keys first) "Position";
                     columnOrNull (Js.keys first) "Age"])) as Hall.
    { apply Forall_cons. split.
      { split; [|eauto]. cbn [resolves nameResolves]. by rewrite bool_decide_true. }
      apply Forall_cons. split.
      { split; [|eauto]. cbn [resolves nameResolves]. by rewrite bool_decide_true. }
      assert (forall name cols,
                 filter (fun col => col ≠ FNull) (columnOrNull (Js.keys first) name :: cols)
                 = filter (fun col => col ≠ FNull) [columnOrNull (Js.keys first) name]
                   ++ filter (fun col => col ≠ FNull) cols) as Hsplit
          by (intros name cols; apply (filter_app _ [_] cols)).
      rewrite Hsplit, (Hsplit "Position"). rewrite !Forall_app.
      split; [apply columnOrNull_valid|]. split; apply columnOrNull_valid. }
    rewrite validateColumns_keyed.
    - replace (unresolved _ _) with (@nil FieldSpec); [done|].
      symmetry. unfold unresolved. apply filter_nil_Forall.
      eapply Forall_impl; [exact Hall|]. intros col [Hcol _]. by rewrite Hcol.
    - eapply Forall_impl; [exact Hall|]. by intros col [_ [k ->]]. }
  split; [apply mergeMapping_command|]. split; [exact Hvalid|].
  intros ibwRows e. unfold findMatches, commandFantrax.
  rewrite mergeMapping_command. cbn [map nonEmptyArray fantrax ibw].
  destruct (nonEmptyArray ibwRows) as [[ibw0 ibwRest]|]; [|by intros [= <-]].
  rewrite Hvalid. destruct (validateColumns ibw0 _ _) as [[]|e'] eqn:E; [done|].
  by intros [= <-].
Qed.

Lemma commandMapping_valid_witness :
  validateColumns (RObject (fantraxFile !!! 0%nat))
    (requiredColumns [("player", FName "Player"); ("team", FName "Team");
                      ("number", FName "Number"); ("position", FName "Position");
                      ("age", FName "Age")])
    "Fantrax" = Ok ().
Proof.
  exact (proj1 (proj2 (commandMapping_valid defaultOptions (fantraxFile !!! 0%nat)
                         [fantraxFile !!! 1%nat] _ eq_refl))).
Defined.

Lemma formatMatchResults_present found config :
  allHeadersPresent outputHeaders (formatMatchResults found config).
Proof.
  unfold allHeadersPresent, formatMatchResults. apply Forall_fmap, Forall_forall.
  intros m _. change (Forall (fun header => header ∈ outputHeaders) outputHeaders).
  apply Forall_forall. done.
Qed.

Lemma objectsToCSV_formatted m found config :
  objectsToCSV (Some (formatMatchResults (m :: found) config)) None
  = Ok (join JsText.lineFeed
          (join "," outputHeaders
           :: map (dataRow outputHeaders) (formatMatchResults (m :: found) config))).
Proof.
  change (formatMatchResults (m :: found) config)
    with (formatMatch config m :: formatMatchResults found config).
  rewrite objectsToCSV_present; [done|].
  change (csvHeadersOf (formatMatch config m) None) with outputHeaders.
  apply (formatMatchResults_present (m :: found) config).
Qed.

(** X14.  The text [objectsToCSV] makes of the objects of
    [formatMatchResults]: on one match or more the call returns, with
    the nine output headers as the first line and one data row per
    match after it, whatever the records and the mapping are (no object
    lacks a header); on no match it raises the error on empty input. *)
Theorem formatMatchResults_csv (found : list Match) (config : Mapping) :
  objectsToCSV (Some (formatMatchResults found config)) None
  = match found with
    | [] => Throw "Invalid input: objects must be a non-empty array"
    | _ =>
        Ok (join JsText.lineFeed
              ("IBW Rank,IBW Player,IBW Team,Fantrax Number,Fantrax Player,Fantrax Team,Fantrax Position,Fantrax Age,Match Type"
               :: map (dataRow outputHeaders) (formatMatchResults found config)))
    end.
Proof. destruct found as [|m found]; [done|]. apply objectsToCSV_formatted. Qed.

Lemma findMatches_counts fantraxPlayers ibwPlayers config result :
  findMatches fantraxPlayers ibwPlayers config = Ok result ->
  totalMatches (stats result) = length (matches result)
  /\ totalIBWPlayers (stats result) = length (rowsOf ibwPlayers)
  /\ forall x, x ∈ matches result -> ibwPlayer x ∈ rowsOf ibwPlayers.
Proof.
  rewrite findMatches_unfold. destruct (validationError _ _ _); [done|].
  intros [= <-]. split; [done|]. split; [done|].
  intros x Hx. cbn [matches matchResultOf] in Hx.
  apply matchesOf_elem in Hx as [Hin _].
  apply enumerateFrom_lookup in Hin as [_ Hl]. by eapply list_elem_of_lookup_2.
Qed.

(** X15.  Once the command has its mapping and [findMatches] has
    returned, the command ends in one of two ways.  On no match it
    exits without writing.  Otherwise it writes the header line and one
    row per match, in the order of the matches: neither
    [formatMatchResults] nor [objectsToCSV] can fail at that point. *)
Theorem matchCommand_writes (options : Options) (first : Props) (rest : list Props)
    (ibwRows : list (list JsValue)) (mapping : Mapping) (result : MatchResult) :
  commandMapping options first rest = Ok mapping ->
  findMatches (commandFantrax first rest) (commandIBW ibwRows) (configOf mapping) = Ok result ->
  matchCommand options first rest ibwRows
  = match matches result with
    | [] => NoMatches
    | _ =>
        Written (join JsText.lineFeed
                   (join "," outputHeaders
                    :: map (dataRow outputHeaders)
                         (formatMatchResults (matches result) mapping)))
    end.
Proof.
  intros Hmapping Hfind. unfold matchCommand. rewrite Hmapping.
  unfold commandFantrax, commandIBW in Hfind. rewrite Hfind.
  destruct (findMatches_counts _ _ _ _ Hfind) as [-> _].
  destruct (matches result) as [|m found]; [done|].
  cbn [length Nat.eqb]. by rewrite objectsToCSV_formatted.
Qed.

Lemma matchCommand_writes_witness :
  exists csv,
    matchCommand defaultOptions (fantraxFile !!! 0%nat) [fantraxFile !!! 1%nat] ibwFile
    = Written csv
    /\ JsText.split JsText.lineFeedChar csv
       = [join "," outputHeaders;
          join "," (map quoted ["1"; "Mike Trout"; "LAA"; "2"; "Mike Trout"; "LAA"; "OF"; "32";
                                "exact"])].
Proof.
  eexists. split.
  - refine (matchCommand_writes defaultOptions (fantraxFile !!! 0%nat) [fantraxFile !!! 1%nat]
              ibwFile _ _ eq_refl eq_refl).
  - vm_compute. reflexivity.
Defined.

Lemma filterFYPD_elem row ibwRows :
  row ∈ filterFYPD ibwRows <-> row ∈ ibwRows /\ Forall (fun v => mentionsFYPD v = false) row.
Proof.
  unfold filterFYPD. rewrite list_elem_of_In, filter_In, <- list_elem_of_In.
  rewrite negb_true_iff. split; intros [H1 H2]; (split; [done|]).
  - apply Forall_forall. intros v Hv. destruct (mentionsFYPD v) eqn:E; [|done].
    assert (existsb mentionsFYPD row = true) as Hex; [|congruence].
    apply existsb_exists. exists v. split; [by apply list_elem_of_In|done].
  - destruct (existsb mentionsFYPD row) eqn:E; [|done].
    apply existsb_exists in E as (v & Hv & Hm). apply list_elem_of_In in Hv.
    rewrite Forall_forall in H2. by rewrite (H2 v Hv) in Hm.
Qed.

(** X16.  The command never matches a row that mentions FYPD.  The rows
    are removed before the matching: when the command has its mapping
    and [findMatches] returns, a row one of whose cells holds [fypd],
    in any letter case, is not counted in [totalIBWPlayers] and is the
    IBW record of no match; every match holds a row of the file none of
    whose cells mentions FYPD.  When every row mentions it, the command
    writes nothing: it ends with the error of the first column
    reference that does not resolve on the Fantrax file (the references
    are resolved before the matching) or, when both resolve, with the
    error of [findMatches] on an empty dataset. *)
Theorem matchCommand_skips_FYPD (options : Options) (first : Props) (rest : list Props)
    (ibwRows : list (list JsValue)) :
  (forall mapping result,
     commandMapping options first rest = Ok mapping ->
     findMatches (commandFantrax first rest) (commandIBW ibwRows) (configOf mapping)
     = Ok result ->
     totalIBWPlayers (stats result) = length (filterFYPD ibwRows)
     /\ Forall (fun x => exists row,
                           ibwPlayer x = RArray row /\ row ∈ ibwRows
                           /\ Forall (fun v => mentionsFYPD v = false) row)
               (matches result))
  /\ (Forall (fun row => existsb mentionsFYPD row = true) ibwRows ->
      matchCommand options first rest ibwRows
      = match commandMapping options first rest with
        | Throw e => Failed e
        | Ok _ => Failed "IBW players must be a non-empty array"
        end).
Proof.
  split.
  - intros mapping result _ Hfind.
    destruct (findMatches_counts _ _ _ _ Hfind) as (_ & Htotal & Hrows).
    unfold commandIBW in Htotal, Hrows. cbn [rowsOf] in Htotal, Hrows.
    rewrite length_map in Htotal. split; [done|].
    apply Forall_forall. intros x Hx. apply Hrows in Hx.
    apply list_elem_of_fmap in Hx as (row & Hrow & Hin).
    apply filterFYPD_elem in Hin as [Hin Hclean]. eauto.
  - intros Hall. unfold matchCommand.
    destruct (commandMapping options first rest) as [mapping|e]; [|done].
    assert (filterFYPD ibwRows = []) as ->.
    { unfold filterFYPD. induction Hall as [|row l Hrow _ IH]; [done|].
      cbn [List.filter]. by rewrite Hrow. }
    done.
Qed.

Lemma matchCommand_skips_FYPD_witness :
  matchCommand defaultOptions (fantraxFile !!! 0%nat) [fantraxFile !!! 1%nat]
    [ibwRow "2" "" "FYPD-1" "Ronald Acuna Jr." "ATL"]
  = Failed "IBW players must be a non-empty array"
  /\ matchCommand defaultOptions [("Number", VString "1"); ("Player", VString "Juan Soto")] []
       [ibwRow "2" "" "FYPD-1" "Ronald Acuna Jr." "ATL"]
     = Failed "Column index 2 is out of bounds. Available columns: 0-1".
Proof.
  split.
  - refine (proj2 (matchCommand_skips_FYPD defaultOptions (fantraxFile !!! 0%nat)
                     [fantraxFile !!! 1%nat]
                     [ibwRow "2" "" "FYPD-1" "Ronald Acuna Jr." "ATL"]) _).
    repeat constructor.
  - refine (proj2 (matchCommand_skips_FYPD defaultOptions
                     [("Number", VString "1"); ("Player", VString "Juan Soto")] []
                     [ibwRow "2" "" "FYPD-1" "Ronald Acuna Jr." "ATL"]) _).
    repeat constructor.
Defined.

(** ** The IBW converter *)

Module IbwConverterFacts.

Import RegExp IbwConverter.

(** *** What a matcher returns *)

Section Matchers.

Variable p : ascii -> bool.

Lemma many_sound s m r :
  (m, r) ∈ many p s -> forallb p (list_ascii_of_string m) = true /\ s = m +:+ r.
Proof.
  revert m. induction s as [|c s IH]; intros m; cbn [many].
  - intros [= -> ->]%list_elem_of_singleton. done.
  - destruct (p c) eqn:Hc.
    + rewrite elem_of_app, list_elem_of_fmap, list_elem_of_singleton.
      intros [([m' r'] & [= -> ->] & Hin)|[= -> ->]]; [|done].
      apply IH in Hin as [Hm ->]. cbn [fst snd list_ascii_of_string forallb].
      by rewrite Hc, Hm.
    + intros [= -> ->]%list_elem_of_singleton. done.
Qed.

Lemma some_sound s m r :
  (m, r) ∈ some p s ->
  m <> "" /\ forallb p (list_ascii_of_string m) = true /\ s = m +:+ r.
Proof.
  unfold some. destruct s as [|c s]; [by intros ?%elem_of_nil|].
  destruct (p c) eqn:Hc; [|by intros ?%elem_of_nil].
  rewrite list_elem_of_fmap. intros ([m' r'] & [= -> ->] & Hin).
  apply many_sound in Hin as [Hm ->]. cbn [fst snd list_ascii_of_string forallb].
  by rewrite Hc, Hm.
Qed.

Lemma one_sound s m r :
  (m, r) ∈ one p s -> exists c, m = String c "" /\ p c = true /\ s = String c r.
Proof.
  unfold one. destruct s as [|c s]; [by intros ?%elem_of_nil|].
  destruct (p c) eqn:Hc; [|by intros ?%elem_of_nil].
  intros [= -> ->]%list_elem_of_singleton. eauto.
Qed.

Lemma many_greedy a rest :
  forallb p (list_ascii_of_string a) = true -> stopsAt p rest ->
  exists others, many p (a +:+ rest) = (a, rest) :: others.
Proof.
  intros Ha Hrest. induction a as [|c a IH].
  - change ("" +:+ rest) with rest. destruct rest as [|c r]; cbn [many]; [eauto|].
    cbn [stopsAt] in Hrest. rewrite Hrest. eauto.
  - cbn [list_ascii_of_string forallb] in Ha. apply andb_prop in Ha as [Hc Ha].
    destruct (IH Ha) as [others E].
    change (String c a +:+ rest) with (String c (a +:+ rest)). cbn [many].
    rewrite Hc, E. cbn [map app fst snd]. eauto.
Qed.

Lemma some_greedy a rest :
  a <> "" -> forallb p (list_ascii_of_string a) = true -> stopsAt p rest ->
  exists others, some p (a +:+ rest) = (a, rest) :: others.
Proof.
  intros Hne Ha Hrest. destruct a as [|c a]; [done|].
  cbn [list_ascii_of_string forallb] in Ha. apply andb_prop in Ha as [Hc Ha].
  destruct (many_greedy a rest Ha Hrest) as [others E].
  change (String c a +:+ rest) with (String c (a +:+ rest)). unfold some.
  rewrite Hc, E. cbn [map fst snd]. eauto.
Qed.

End Matchers.

Lemma bind_first {A B} (f : A -> list B) x others y :
  (exists rest, f x = y :: rest) -> exists rest, (x :: others) ≫= f = y :: rest.
Proof. intros [rest E]. cbn. rewrite E. cbn. eauto. Qed.

(** *** Trimming and classes of characters *)

Lemma forallb_trimStart q s :
  forallb q (list_ascii_of_string s) = true ->
  forallb q (list_ascii_of_string (trimStart s)) = true.
Proof.
  induction s as [|c s IH]; [done|]. cbn [trimStart].
  destruct (isWhiteSpace c); [|done].
  cbn [list_ascii_of_string forallb]. intros [_ H]%andb_prop. by apply IH.
Qed.

Lemma forallb_trimEnd q s :
  forallb q (list_ascii_of_string s) = true ->
  forallb q (list_ascii_of_string (trimEnd s)) = true.
Proof.
  induction s as [|c s IH]; [done|].
  cbn [list_ascii_of_string forallb]. intros [Hc H]%andb_prop. apply IH in H.
  cbn [trimEnd]. destruct (trimEnd s) as [|c' s'].
  - destruct (isWhiteSpace c); [done|]. cbn [list_ascii_of_string forallb]. by rewrite Hc.
  - cbn [list_ascii_of_string forallb] in *. by rewrite Hc, H.
Qed.

Lemma forallb_trim q s :
  forallb q (list_ascii_of_string s) = true ->
  forallb q (list_ascii_of_string (trim s)) = true.
Proof. intros H. unfold trim. by apply forallb_trimEnd, forallb_trimStart. Qed.

Lemma forallb_app q a b :
  forallb q (list_ascii_of_string (a +:+ b))
  = forallb q (list_ascii_of_string a) && forallb q (list_ascii_of_string b).
Proof.
  induction a as [|c a IH]; [done|].
  change (String c a +:+ b) with (String c (a +:+ b)).
  cbn [list_ascii_of_string forallb]. by rewrite IH, andb_assoc.
Qed.

(** *** The loop *)

Section Loop.

Context {Number : Type} (parseFloat : string -> Number).

Lemma parseLine_playerOf st line index :
  players (parseLine parseFloat st line index)
  = players st ++ option_list (playerOf parseFloat line).
Proof.
  unfold parseLine, playerOf.
  destruct (basicInfoMatch line) as [[[[[number name] team] position] age]|];
    [|by rewrite app_nil_r].
  destruct (truthy (trim name)), (truthy (trim team)), (truthy (trim position));
    cbn [negb orb andb players option_list]; by rewrite ?app_nil_r.
Qed.

Lemma forEachFrom_parseLine lines index st :
  players (forEachFrom (parseLine parseFloat) lines index st)
  = players st ++ omap (playerOf parseFloat) lines.
Proof.
  revert index st. induction lines as [|line lines IH]; intros index st; cbn [forEachFrom omap].
  - by rewrite app_nil_r.
  - rewrite IH, parseLine_playerOf.
    rewrite <- app_assoc. f_equal.
    destruct (playerOf parseFloat line) eqn:E; cbn; by rewrite E.
Qed.

Lemma parseIBWText_unfold text :
  parseIBWText parseFloat (VString text)
  = if decide (text = "") then Throw "Invalid input: textContent must be a non-empty string"
    else if decide (contentLines text = []) then Throw "Invalid IBW file: No content found"
    else match omap (playerOf parseFloat) (contentLines text) with
         | [] => Throw "No valid player data found in IBW text. Please check the input format."
         | found => Ok found
         end.
Proof.
  unfold parseIBWText. destruct text as [|c text]; [done|]. cbn [truthy negb].
  rewrite decide_False by done.
  destruct (contentLines (String c text)) as [|line lines] eqn:E; [done|].
  rewrite decide_False by done. cbn [length Nat.eqb].
  unfold forEach. rewrite forEachFrom_parseLine. cbn [players app].
  by destruct (omap _ _).
Qed.

End Loop.

(** *** Blank texts *)

Lemma trimStart_empty s :
  trimStart s = "" <-> forallb isWhiteSpace (list_ascii_of_string s) = true.
Proof.
  induction s as [|c s IH]; [done|]. cbn [trimStart list_ascii_of_string forallb].
  destruct (isWhiteSpace c); [by rewrite IH|]. done.
Qed.

Lemma trim_empty s : trim s = "" <-> forallb isWhiteSpace (list_ascii_of_string s) = true.
Proof.
  rewrite <- trimStart_empty. unfold trim. split; [|by intros ->].
  intros H. pose proof (proj1 (trimStart_head _) (trimStart_idem s)) as Hhead.
  destruct (trimStart s) as [|c r]; [done|].
  destruct (trimEnd_head c r) as [r' E]. rewrite Hhead in E. by rewrite E in H.
Qed.

Lemma splitFrom_blank sep s piece :
  isWhiteSpace sep = true ->
  Forall (fun line => forallb isWhiteSpace (list_ascii_of_string line) = true)
         (JsText.splitFrom sep s piece)
  <-> forallb isWhiteSpace (list_ascii_of_string piece) = true
      /\ forallb isWhiteSpace (list_ascii_of_string s) = true.
Proof.
  intros Hsep. revert piece. induction s as [|c s IH]; intros piece; cbn [JsText.splitFrom].
  - rewrite Forall_singleton. split; [by intros H|by intros [H _]].
  - destruct (Ascii.eqb_spec c sep) as [->|Hne].
    + rewrite Forall_cons, IH. cbn [list_ascii_of_string forallb]. rewrite Hsep.
      cbn [andb]. split; [by intros (? & _ & ?)|by intros [? ?]].
    + rewrite IH, forallb_app. cbn [list_ascii_of_string forallb].
      rewrite !andb_true_iff. tauto.
Qed.

Lemma contentLines_pieces pieces :
  List.filter (fun line => (0 <? String.length line)%nat) (map trim pieces) = []
  <-> Forall (fun line => forallb isWhiteSpace (list_ascii_of_string line) = true) pieces.
Proof.
  induction pieces as [|piece pieces IH]; [by split; [constructor|]|].
  cbn [map List.filter]. rewrite Forall_cons, <- IH, <- trim_empty.
  destruct (trim piece) as [|c r]; cbn [String.length Nat.ltb Nat.leb].
  - split; [by intros ?|by intros [_ ?]].
  - split; [done|by intros [? _]].
Qed.

Lemma contentLines_blank text :
  contentLines text = [] <-> forallb isWhiteSpace (list_ascii_of_string text) = true.
Proof.
  unfold contentLines, JsText.split.
  rewrite contentLines_pieces, (splitFrom_blank JsText.lineFeedChar text "" eq_refl).
  split; [by intros [_ ?]|by intros ?].
Qed.

(** X17.  What [parseIBWText] returns.  An argument that is not a
    string, or is the empty string, raises the error on the input.  A
    text of white space only (blank lines) raises the error on missing
    content.  Otherwise the players are the entries that the lines of
    the text give, in the order of the lines; lines that give no player
    are passed over, and when no line gives one the function raises the
    error on missing player data: it never returns an empty array. *)
Theorem parseIBWText_returns {Number : Type} (parseFloat : string -> Number)
    (textContent : JsValue) :
  parseIBWText parseFloat textContent
  = match textContent with
    | VString text =>
        if decide (text = "")
        then Throw "Invalid input: textContent must be a non-empty string"
        else if forallb isWhiteSpace (list_ascii_of_string text)
        then Throw "Invalid IBW file: No content found"
        else
          match omap (playerOf parseFloat) (contentLines text) with
          | [] => Throw "No valid player data found in IBW text. Please check the input format."
          | found => Ok found
          end
    | _ => Throw "Invalid input: textContent must be a non-empty string"
    end.
Proof.
  destruct textContent as [| |text|z]; try done.
  rewrite parseIBWText_unfold. destruct (decide (text = "")); [done|].
  destruct (forallb isWhiteSpace (list_ascii_of_string text)) eqn:E.
  - by rewrite decide_True by (by apply contentLines_blank).
  - rewrite decide_False; [done|]. intros H%contentLines_blank. congruence.
Qed.

(** *** The groups of a match *)

Lemma optional_sound p s m r :
  (m, r) ∈ optional p s ->
  (m = "" /\ r = s) \/ exists c, m = String c "" /\ p c = true /\ s = String c r.
Proof.
  unfold optional. rewrite elem_of_app, list_elem_of_singleton.
  intros [H|[= -> ->]]; [right; by apply one_sound|by left].
Qed.

Ltac unbind H m r Hm :=
  apply list_elem_of_bind in H as ([m r] & H & Hm); cbv beta iota in H.

Lemma basicInfoMatch_sound line number name team position age :
  basicInfoMatch line = Some (number, name, team, position, age) ->
  JsText.allDigits number = true
  /\ (name <> "" /\ forallb (except "-") (list_ascii_of_string name) = true)
  /\ (team <> "" /\ forallb (except ",") (list_ascii_of_string team) = true)
  /\ (position <> "" /\ forallb (except ",") (list_ascii_of_string position) = true)
  /\ exists whole fraction point,
       age = ageText whole fraction point
       /\ JsText.allDigits whole = true
       /\ forallb digit (list_ascii_of_string fraction) = true.
Proof.
  intros H%head_Some_elem_of. unfold basicInfoPattern in H.
  unbind H number' r1 Hnumber. unbind H m2 r2 H2. unbind H m3 r3 H3.
  unbind H name' r4 Hname. unbind H m5 r5 H5. unbind H m6 r6 H6.
  unbind H team' r7 Hteam. unbind H m8 r8 H8. unbind H m9 r9 H9.
  unbind H position' r10 Hposition. unbind H m11 r11 H11. unbind H m12 r12 H12.
  unbind H age' r13 Hage.
  apply list_elem_of_singleton in H. injection H as -> -> -> -> ->.
  apply some_sound in Hnumber as (Hn1 & Hn2 & _).
  apply some_sound in Hname as (Hname1 & Hname2 & _).
  apply some_sound in Hteam as (Hteam1 & Hteam2 & _).
  apply some_sound in Hposition as (Hpos1 & Hpos2 & _).
  unfold digit in *. split.
  { unfold JsText.allDigits. rewrite Hn2, andb_true_r. by destruct number'. }
  do 3 (split; [done|]).
  unfold andThen in Hage.
  unbind Hage whole ra Hwhole. unbind Hage rest rb Hrest. unfold andThen in Hrest.
  unbind Hrest point rc Hpoint. unbind Hrest fraction rd Hfraction.
  apply list_elem_of_singleton in Hrest. injection Hrest as -> ->.
  apply list_elem_of_singleton in Hage. injection Hage as -> ->.
  apply some_sound in Hwhole as (Hw1 & Hw2 & _).
  apply many_sound in Hfraction as (Hf & _).
  assert (JsText.allDigits whole = true) as Hwhole
      by (unfold JsText.allDigits; rewrite Hw2, andb_true_r; by destruct whole).
  apply optional_sound in Hpoint as [[-> _]|(c & -> & Hc & _)].
  - exists (whole +:+ fraction), "", false. cbn [ageText]. split; [done|]. split; [|done].
    unfold JsText.allDigits in *. rewrite forallb_app.
    apply andb_prop in Hwhole as [Ht Hd]. rewrite Hd, Hf. cbn [andb].
    rewrite andb_true_r. by destruct whole.
  - exists whole, fraction, true. cbn [ageText]. unfold exactly in Hc.
    apply Ascii.eqb_eq in Hc as <-. done.
Qed.

Lemma without_trim c s :
  forallb (except c) (list_ascii_of_string s) = true -> without c (trim s).
Proof. apply forallb_trim. Qed.

Lemma playerOf_wellFormed {Number : Type} (parseFloat : string -> Number) line p :
  playerOf parseFloat line = Some p -> wellFormed parseFloat p.
Proof.
  unfold playerOf.
  destruct (basicInfoMatch line) as [[[[[number name] team] position] age]|] eqn:E; [|done].
  destruct (truthy (trim name)) eqn:Hname; [|done].
  destruct (truthy (trim team)) eqn:Hteam; [|done].
  destruct (truthy (trim position)) eqn:Hposition; [|done].
  cbn [andb]. intros [= <-].
  apply basicInfoMatch_sound in E
    as (Hnumber & [_ Hn] & [_ Ht] & [_ Hp] & whole & fraction & point & -> & Hw & Hf).
  unfold wellFormed. cbn [IbwConverter.number IbwConverter.name IbwConverter.team
                          IbwConverter.position IbwConverter.age].
  split; [by exists number|].
  apply truthy_true in Hname, Hteam, Hposition.
  split; [split; [done|apply trimmed_trim]|]. split; [by apply without_trim|].
  split; [split; [done|apply trimmed_trim]|]. split; [by apply without_trim|].
  split; [split; [done|apply trimmed_trim]|]. split; [by apply without_trim|].
  by exists whole, fraction, point.
Qed.

(** X18.  Every player [parseIBWText] returns has as its number what
    [parseInt] makes of a string of decimal digits, and a name, a team
    and a position that are not empty and have no white space at either
    end; the name holds no hyphen, and the team and the position hold no
    comma.  The age is what [parseFloat] makes of a decimal numeral
    (digits, possibly followed by a point and more digits).  There is
    at least one player. *)
Theorem parseIBWText_players {Number : Type} (parseFloat : string -> Number)
    (textContent : JsValue) (found : list (Player Number)) :
  parseIBWText parseFloat textContent = Ok found ->
  found <> [] /\ Forall (wellFormed parseFloat) found.
Proof.
  destruct textContent as [| |text|z]; try done.
  rewrite parseIBWText_unfold. destruct (decide (text = "")); [done|].
  destruct (decide (contentLines text = [])); [done|].
  destruct (omap _ _) as [|p l] eqn:E; [done|]. intros [= <-]. split; [done|].
  rewrite <- E. apply Forall_forall. intros q (line & _ & Hq)%list_elem_of_omap.
  by eapply playerOf_wellFormed.
Qed.

Lemma parseIBWText_players_witness :
  exists found,
    parseIBWText (fun s => s) (VString mixedText) = Ok found
    /\ found <> [] /\ Forall (wellFormed (fun s => s)) found.
Proof.
  eexists. split; [vm_compute; reflexivity|].
  apply (parseIBWText_players (fun s => s) (VString mixedText)).
  vm_compute. reflexivity.
Defined.

(** *** Reading an entry *)

Lemma one_literal c rest : one (exactly c) (String c rest) = [(String c "", rest)].
Proof. unfold one, exactly. by rewrite Ascii.eqb_refl. Qed.

Lemma stopsAt_app p s rest :
  s <> "" -> stopsAt p s -> stopsAt p (s +:+ rest).
Proof. by destruct s. Qed.

Lemma fieldText_head s : fieldText s -> stopsAt space s.
Proof.
  intros [Hne [Hstart _]]. apply trimStart_head in Hstart. by destruct s.
Qed.

Lemma allDigits_head s : JsText.allDigits s = true -> s <> "" /\ stopsAt space s.
Proof.
  unfold JsText.allDigits. destruct s as [|c s]; [done|].
  cbn [truthy andb list_ascii_of_string forallb]. intros [Hc _]%andb_prop.
  split; [done|]. by apply isDigit_plain in Hc as [? _].
Qed.

Lemma trimEnd_spaces a w :
  forallb isWhiteSpace (list_ascii_of_string w) = true -> trimEnd (a +:+ w) = trimEnd a.
Proof.
  intros Hw. induction a as [|c a IH].
  - change ("" +:+ w) with w. induction w as [|x w IHw]; [done|].
    cbn [list_ascii_of_string forallb] in Hw. apply andb_prop in Hw as [Hx Hw].
    cbn [trimEnd]. by rewrite (IHw Hw), Hx.
  - change (String c a +:+ w) with (String c (a +:+ w)). cbn [trimEnd]. by rewrite IH.
Qed.

Lemma trim_field_space s : fieldText s -> trim (s +:+ " ") = s.
Proof.
  intros Hs. pose proof (fieldText_head s Hs) as Hhead. destruct Hs as [Hne [_ Hend]].
  unfold trim.
  assert (trimStart (s +:+ " ") = s +:+ " ") as ->.
  { apply trimStart_head. destruct s as [|c s]; [done|]. exact Hhead. }
  by rewrite trimEnd_spaces.
Qed.

Lemma fraction_numeral fraction point description :
  forallb digit (list_ascii_of_string fraction) = true ->
  stopsAt digit description ->
  (point = false -> fraction = "" /\ stopsAt (exactly ".") description) ->
  exists others,
    andThen (optional (exactly ".")) (many digit)
            ((if point then "." +:+ fraction else "") +:+ description)
    = (if point then "." +:+ fraction else "", description) :: others.
Proof.
  intros Hfraction Hstop Hpoint. unfold andThen. destruct point.
  - change (("." +:+ fraction) +:+ description) with (String "." (fraction +:+ description)).
    unfold optional. rewrite one_literal. cbn [app]. apply bind_first. cbv beta iota.
    destruct (many_greedy digit fraction description Hfraction Hstop) as [o2 E2].
    rewrite E2. apply bind_first. cbv beta iota. eexists. reflexivity.
  - destruct (Hpoint eq_refl) as [-> Hdot]. change ("" +:+ description) with description.
    assert (optional (exactly ".") description = [("", description)]) as ->.
    { unfold optional, one. destruct description as [|c d]; [done|].
      cbn [stopsAt] in Hdot. by rewrite Hdot. }
    apply bind_first. cbv beta iota.
    destruct (many_greedy digit "" description eq_refl Hstop) as [o2 E2].
    change ("" +:+ description) with description in E2. rewrite E2.
    apply bind_first. cbv beta iota. eexists. reflexivity.
Qed.

Lemma ageText_split whole fraction point :
  (point = false -> fraction = "") ->
  ageText whole fraction point = whole +:+ (if point then "." +:+ fraction else "").
Proof.
  intros H. destruct point; cbn [ageText]; [done|]. by rewrite string_app_empty.
Qed.

Lemma ageText_numeral whole fraction point description :
  numeralBefore whole fraction point description ->
  exists others,
    andThen (some digit) (andThen (optional (exactly ".")) (many digit))
            (ageText whole fraction point +:+ description)
    = (ageText whole fraction point, description) :: others.
Proof.
  intros (Hwhole & Hfraction & Hstop & Hpoint).
  unfold JsText.allDigits in Hwhole. apply andb_prop in Hwhole as [Hne Hdigits].
  apply truthy_true in Hne.
  rewrite ageText_split by (intros H; by destruct (Hpoint H)).
  rewrite string_app_assoc. unfold andThen at 1.
  destruct (some_greedy digit whole ((if point then "." +:+ fraction else "") +:+ description)
              Hne Hdigits) as [o1 E1].
  { destruct point; [done|]. exact Hstop. }
  rewrite E1. apply bind_first. cbv beta iota.
  destruct (fraction_numeral fraction point description Hfraction Hstop Hpoint) as [o2 E2].
  rewrite E2. apply bind_first. cbv beta iota. eexists. reflexivity.
Qed.

Section Stages.

Context {B : Type} (f : string * string -> list B) (y : B).

Lemma stage_some p a rest :
  a <> "" -> forallb p (list_ascii_of_string a) = true -> stopsAt p rest ->
  (exists others, f (a, rest) = y :: others) ->
  exists others, some p (a +:+ rest) ≫= f = y :: others.
Proof.
  intros Hne Ha Hrest Hf. destruct (some_greedy p a rest Hne Ha Hrest) as [o ->].
  by apply bind_first.
Qed.

Lemma stage_many p a rest :
  forallb p (list_ascii_of_string a) = true -> stopsAt p rest ->
  (exists others, f (a, rest) = y :: others) ->
  exists others, many p (a +:+ rest) ≫= f = y :: others.
Proof.
  intros Ha Hrest Hf. destruct (many_greedy p a rest Ha Hrest) as [o ->].
  by apply bind_first.
Qed.

Lemma stage_one c rest :
  (exists others, f (String c "", rest) = y :: others) ->
  exists others, one (exactly c) (String c rest) ≫= f = y :: others.
Proof. intros Hf. rewrite one_literal. by apply bind_first. Qed.

End Stages.

Lemma field_then_space s rest : s +:+ " - " +:+ rest = (s +:+ " ") +:+ "- " +:+ rest.
Proof. by rewrite string_app_assoc. Qed.

Lemma basicInfoMatch_entry n name team position whole fraction point description :
  (0 <= n)%Z ->
  fieldText name -> without "-" name ->
  fieldText team -> without "," team ->
  fieldText position -> without "," position ->
  numeralBefore whole fraction point description ->
  basicInfoMatch (entry n name team position (ageText whole fraction point) description)
  = Some (ofZ n, name +:+ " ", team, position, ageText whole fraction point).
Proof.
  intros Hn Hname Hname' Hteam Hteam' Hposition Hposition' Hage.
  cut (exists others,
          basicInfoPattern
            (entry n name team position (ageText whole fraction point) description)
          = (ofZ n, name +:+ " ", team, position, ageText whole fraction point) :: others).
  { intros [others E]. unfold basicInfoMatch. by rewrite E. }
  pose proof (allDigits_ofZ n Hn) as Hnumber.
  destruct (allDigits_head _ Hnumber) as [Hnumber1 _].
  unfold JsText.allDigits in Hnumber. apply andb_prop in Hnumber as [_ Hnumber2].
  pose proof Hage as (Hwhole & _).
  destruct (allDigits_head _ Hwhole) as [Hwhole1 Hwhole2].
  assert (stopsAt space (ageText whole fraction point +:+ description)) as Hstop.
  { destruct point; cbn [ageText]; rewrite ?string_app_assoc; by apply stopsAt_app. }
  unfold basicInfoPattern, entry.
  apply stage_some; [done|done|done|]. cbv beta iota.
  apply (stage_one _ _ ")"). cbv beta iota.
  apply (stage_many _ _ space " "); [done|apply stopsAt_app, fieldText_head; by destruct Hname|].
  cbv beta iota. rewrite field_then_space.
  apply stage_some; [by destruct name| |done|].
  { rewrite forallb_app. unfold without in Hname'. by rewrite Hname'. }
  cbv beta iota. apply (stage_one _ _ "-"). cbv beta iota.
  apply (stage_many _ _ space " "); [done|apply stopsAt_app, fieldText_head; by destruct Hteam|].
  cbv beta iota.
  apply stage_some; [by destruct Hteam|done|done|]. cbv beta iota.
  apply (stage_one _ _ ","). cbv beta iota.
  apply (stage_many _ _ space " ");
    [done|apply stopsAt_app, fieldText_head; by destruct Hposition|].
  cbv beta iota.
  apply stage_some; [by destruct Hposition|done|done|]. cbv beta iota.
  apply (stage_one _ _ ","). cbv beta iota.
  apply (stage_many _ _ space " "); [done|done|]. cbv beta iota.
  destruct (ageText_numeral _ _ _ _ Hage) as [others ->].
  apply bind_first. cbv beta iota. eexists. reflexivity.
Qed.

Lemma noLineFeed_app a b : noLineFeed a -> noLineFeed b -> noLineFeed (a +:+ b).
Proof.
  unfold noLineFeed, JsText.lineFeed. intros Ha Hb. by rewrite includes_single_app, Ha, Hb.
Qed.

Lemma noLineFeed_solid s :
  forallb (fun c => negb (isWhiteSpace c)) (list_ascii_of_string s) = true -> noLineFeed s.
Proof.
  unfold noLineFeed, JsText.lineFeed. induction s as [|c s IH]; [done|].
  cbn [list_ascii_of_string forallb]. intros [Hc Hs]%andb_prop.
  rewrite includes_single, (IH Hs), orb_false_r.
  destruct (Ascii.eqb_spec c JsText.lineFeedChar) as [->|]; done.
Qed.

Lemma trimEnd_solid s :
  forallb (fun c => negb (isWhiteSpace c)) (list_ascii_of_string s) = true -> trimEnd s = s.
Proof.
  induction s as [|c s IH]; [done|].
  cbn [list_ascii_of_string forallb]. intros [Hc Hs]%andb_prop.
  cbn [trimEnd]. rewrite (IH Hs). apply negb_true_iff in Hc. rewrite Hc. by destruct s.
Qed.

Lemma digits_solid s :
  forallb Js.isDigit (list_ascii_of_string s) = true ->
  forallb (fun c => negb (isWhiteSpace c)) (list_ascii_of_string s) = true.
Proof.
  induction s as [|c s IH]; [done|].
  cbn [list_ascii_of_string forallb]. intros [Hc Hs]%andb_prop.
  apply isDigit_plain in Hc as [-> _]. by rewrite IH.
Qed.

Lemma ageText_solid whole fraction point :
  JsText.allDigits whole = true ->
  forallb digit (list_ascii_of_string fraction) = true ->
  ageText whole fraction point <> ""
  /\ forallb (fun c => negb (isWhiteSpace c))
             (list_ascii_of_string (ageText whole fraction point)) = true.
Proof.
  intros Hwhole Hfraction. destruct (allDigits_head _ Hwhole) as [Hne _].
  unfold JsText.allDigits in Hwhole. apply andb_prop in Hwhole as [_ Hwhole].
  apply digits_solid in Hwhole, Hfraction.
  destruct point; cbn [ageText].
  - split; [by destruct whole|]. rewrite !forallb_app, Hwhole, Hfraction. done.
  - done.
Qed.

Lemma trimEnd_keep a b : a <> "" -> trimEnd a = a -> trimEnd (a +:+ b) = a +:+ trimEnd b.
Proof.
  induction a as [|c a IH]; [done|]. intros _ Ha.
  change (String c a +:+ b) with (String c (a +:+ b)). cbn [trimEnd]. cbn [trimEnd] in Ha.
  destruct a as [|c' a].
  - change ("" +:+ b) with b. cbn [trimEnd] in Ha.
    destruct (isWhiteSpace c); [done|]. by destruct (trimEnd b).
  - assert (trimEnd (String c' a) = String c' a) as Ha'.
    { destruct (trimEnd (String c' a)) as [|x t]; [by destruct (isWhiteSpace c)|].
      congruence. }
    rewrite (IH ltac:(done) Ha'). done.
Qed.

Lemma stopsAt_trimEnd p s : stopsAt p s -> stopsAt p (trimEnd s).
Proof.
  destruct s as [|c r]; [done|]. intros H.
  destruct (trimEnd_head c r) as [r' E]. rewrite E.
  destruct (isWhiteSpace c); [|done]. by destruct (trimEnd r).
Qed.

Lemma noLineFeed_field c s : fieldOf c s -> noLineFeed s.
Proof. by intros (_ & _ & ?). Qed.

Lemma entry_noLineFeed n name team position whole fraction point description :
  (0 <= n)%Z ->
  fieldOf "-" name -> fieldOf "," team -> fieldOf "," position ->
  numeralBefore whole fraction point description ->
  noLineFeed description ->
  noLineFeed (entry n name team position (ageText whole fraction point) description).
Proof.
  intros Hn Hname Hteam Hposition (Hwhole & Hfraction & _) Hdescription.
  destruct (ageText_solid whole fraction point Hwhole Hfraction) as [Hage1 Hage2].
  pose proof (allDigits_ofZ n Hn) as Hnumber.
  unfold JsText.allDigits in Hnumber. apply andb_prop in Hnumber as [_ Hnumber3].
  unfold entry.
  repeat first [apply noLineFeed_app | done
               | by eapply noLineFeed_field
               | by apply noLineFeed_solid, digits_solid
               | by apply noLineFeed_solid ].
Qed.

Lemma entry_trim n name team position whole fraction point description :
  (0 <= n)%Z ->
  numeralBefore whole fraction point description ->
  trim (entry n name team position (ageText whole fraction point) description)
  = entry n name team position (ageText whole fraction point) (trimEnd description).
Proof.
  intros Hn (Hwhole & Hfraction & _).
  destruct (ageText_solid whole fraction point Hwhole Hfraction) as [Hage1 Hage2].
  pose proof (allDigits_ofZ n Hn) as Hnumber.
  destruct (allDigits_head _ Hnumber) as [Hnumber1 Hnumber2].
  set (age := ageText whole fraction point) in *.
  unfold trim.
  assert (trimStart (entry n name team position age description)
          = entry n name team position age description) as ->.
  { apply trimStart_head. unfold entry. destruct (ofZ n); [done|]. exact Hnumber2. }
  unfold entry. rewrite <- !string_app_assoc.
  apply trimEnd_keep; [by destruct (ofZ n)|].
  by apply trimEnd_app, trimEnd_solid.
Qed.

Lemma entry_not_empty n name team position age description :
  (0 <= n)%Z -> entry n name team position age description <> "".
Proof.
  intros Hn. pose proof (allDigits_ofZ n Hn) as H%allDigits_head.
  destruct H as [H _]. unfold entry. by destruct (ofZ n).
Qed.

Lemma numeralBefore_trimEnd whole fraction point description :
  numeralBefore whole fraction point description ->
  numeralBefore whole fraction point (trimEnd description).
Proof.
  intros (Hwhole & Hfraction & Hstop & Hpoint).
  split; [done|]. split; [done|]. split; [by apply stopsAt_trimEnd|].
  intros H. destruct (Hpoint H) as [-> Hdot]. split; [done|]. by apply stopsAt_trimEnd.
Qed.

Lemma playerOf_entry {Number : Type} (parseFloat : string -> Number)
    n name team position whole fraction point description :
  (0 <= n)%Z ->
  fieldOf "-" name -> fieldOf "," team -> fieldOf "," position ->
  numeralBefore whole fraction point description ->
  playerOf parseFloat (entry n name team position (ageText whole fraction point) description)
  = Some {| number := Some n; name := name; team := team; position := position;
            age := parseFloat (ageText whole fraction point) |}.
Proof.
  intros Hn (Hname & Hname' & _) (Hteam & Hteam' & _) (Hposition & Hposition' & _) Hage.
  unfold playerOf. rewrite basicInfoMatch_entry by done.
  rewrite (trim_field_space _ Hname).
  rewrite (trim_trimmed team) by (by destruct Hteam).
  rewrite (trim_trimmed position) by (by destruct Hposition).
  rewrite parseInt_ofZ by done.
  destruct Hname as [Hname _], Hteam as [Hteam _], Hposition as [Hposition _].
  apply truthy_true in Hname, Hteam, Hposition. by rewrite Hname, Hteam, Hposition.
Qed.

Lemma join_not_empty sep x l : x <> "" -> join sep (x :: l) <> "".
Proof. intros Hx. destruct l; cbn [join]; by destruct x. Qed.

Lemma entryLine_content (e : Entry) :
  validEntry e ->
  noLineFeed (entryLine e)
  /\ trim (entryLine e) <> ""
  /\ forall (Number : Type) (parseFloat : string -> Number),
       playerOf parseFloat (trim (entryLine e)) = Some (entryPlayer parseFloat e).
Proof.
  intros (Hn & Hname & Hteam & Hposition & Hage & Hdescription). unfold entryLine, entryAge.
  split; [by apply entry_noLineFeed|].
  rewrite entry_trim by done. split; [by apply entry_not_empty|].
  intros Number parseFloat. apply playerOf_entry; try done.
  by apply numeralBefore_trimEnd.
Qed.

Lemma contentLines_entries (e : Entry) (es : list Entry) :
  Forall validEntry (e :: es) ->
  contentLines (join JsText.lineFeed (map entryLine (e :: es)))
  = map (fun e' => trim (entryLine e')) (e :: es).
Proof.
  intros Hvalid.
  assert (Forall (fun l => noLineFeed l) (map entryLine (e :: es))) as Hlines.
  { apply Forall_fmap. eapply Forall_impl; [exact Hvalid|].
    intros e' He'. by apply entryLine_content. }
  unfold contentLines.
  pose proof (split_join JsText.lineFeedChar (entryLine e) (map entryLine es) Hlines) as Hs.
  change (JsText.split JsText.lineFeedChar
            (join JsText.lineFeed (map entryLine (e :: es))) = map entryLine (e :: es)) in Hs.
  rewrite Hs. clear Hs Hlines.
  induction Hvalid as [|e' l He' _ IH]; [done|].
  destruct (entryLine_content e' He') as (_ & Hne & _).
  cbn [map List.filter]. rewrite IH. by destruct (trim (entryLine e')).
Qed.

(** X19.  A text in the documented format is read back.  Take entries
    each with a number that is not negative and is a safe integer; a
    name, a team and a position that are not empty, have no white space
    at either end, hold no line feed, and hold no hyphen (the name) or
    no comma (the team and the position); an age written as a decimal
    numeral; and a description on the same line that does not go on
    with a digit (nor with a point, when the numeral has none).  On the
    text whose lines are [number) name - team, position, age] followed
    by the description, one line per entry, [parseIBWText] returns one
    player per entry, in the order of the lines, with the number, name,
    team and position of the entry and with what [parseFloat] makes of
    the numeral as its age. *)
Theorem parseIBWText_entries {Number : Type} (parseFloat : string -> Number)
    (e : Entry) (es : list Entry) :
  Forall validEntry (e :: es) ->
  Forall safeNumber (e :: es) ->
  parseIBWText parseFloat (VString (join JsText.lineFeed (map entryLine (e :: es))))
  = Ok (map (entryPlayer parseFloat) (e :: es)).
Proof.
  intros Hvalid _. rewrite parseIBWText_unfold.
  rewrite decide_False.
  2:{ apply join_not_empty. apply Forall_inv in Hvalid.
      destruct Hvalid as (Hn & _). by apply entry_not_empty. }
  rewrite (contentLines_entries e es Hvalid).
  assert (omap (playerOf parseFloat) (map (fun e' => trim (entryLine e')) (e :: es))
          = map (entryPlayer parseFloat) (e :: es)) as ->.
  { clear -Hvalid. induction Hvalid as [|e' l He' _ IH]; [done|].
    destruct (entryLine_content e' He') as (_ & _ & Hplayer).
    cbn [map omap list_omap]. rewrite Hplayer. f_equal. exact IH. }
  by rewrite decide_False.
Qed.

Lemma parseIBWText_entries_witness :
  parseIBWText (fun s => s)
    (VString ("1) Ronald Acuna Jr. - ATL, OF, 26.2. The 2023 NL MVP." +:+ JsText.lineFeed
              +:+ "2) Mike Trout - LAA, OF, 32 - when healthy, one of the best  "))
  = Ok [{| number := Some 1%Z; name := "Ronald Acuna Jr."; team := "ATL"; position := "OF";
           age := "26.2" |};
        {| number := Some 2%Z; name := "Mike Trout"; team := "LAA"; position := "OF";
           age := "32" |}].
Proof.
  refine (parseIBWText_entries (fun s => s) acunaEntry [troutEntry] _ _).
  - repeat first [apply Forall_cons; split | apply Forall_nil_2 | split
                 | reflexivity | discriminate | lia ].
  - repeat first [apply Forall_cons; split | apply Forall_nil_2
                 | unfold safeNumber, Js.safeInteger; cbn; lia ].
Defined.

(** *** The conversion script *)

Import ConvertScript.

Lemma csvRow_entry (e : Entry) :
  validEntry e -> csvRow (trim (entryLine e)) = Some (entryRow e).
Proof.
  intros (Hn & (Hname & Hname' & _) & (Hteam & Hteam' & _) & (Hposition & Hposition' & _)
          & Hage & _).
  unfold entryLine, entryAge, csvRow, entryRow.
  rewrite entry_trim by done.
  rewrite basicInfoMatch_entry by (done || by apply numeralBefore_trimEnd).
  rewrite (trim_field_space _ Hname).
  rewrite (trim_trimmed (entryTeam e)) by (by destruct Hteam).
  by rewrite (trim_trimmed (entryPosition e)) by (by destruct Hposition).
Qed.

Lemma csvRow_player {Number : Type} (parseFloat : string -> Number) line p :
  playerOf parseFloat line = Some p -> is_Some (csvRow line).
Proof.
  unfold playerOf, csvRow.
  by destruct (basicInfoMatch line) as [[[[[number name] team] position] age]|].
Qed.

(** X27.  The conversion script and the converter.  On a text of
    entries in the documented format, the script writes the header
    [Number,Player,Team,Position,Age] and one row per entry, in the
    order of the lines, with the number, the name, the team and the
    position between quotation marks, and the numeral of the age.  On
    any text, every line that gives [parseIBWText] a player gives the
    script a row; not the other way round: the script writes a row for
    a line that matches the pattern with a blank name, which
    [parseIBWText] skips.  The script writes the header alone when no
    line matches. *)
Theorem convertToCSV_entries (e : Entry) (es : list Entry) :
  Forall validEntry (e :: es) ->
  convertToCSV (join JsText.lineFeed (map entryLine (e :: es)))
  = join JsText.lineFeed ("Number,Player,Team,Position,Age" :: map entryRow (e :: es))
  /\ (forall (Number : Type) (parseFloat : string -> Number) line p,
        playerOf parseFloat line = Some p -> is_Some (csvRow line))
  /\ (exists line, is_Some (csvRow line)
        /\ forall (Number : Type) (parseFloat : string -> Number),
             playerOf parseFloat line = None)
  /\ convertToCSV "This is not a valid IBW format" = "Number,Player,Team,Position,Age".
Proof.
  intros Hvalid. split; [|split; [intros ? ?; apply csvRow_player|split; [|done]]].
  2:{ exists "1) - ATL, OF, 25.0. Missing name.". split; [|done].
      eexists. vm_compute. reflexivity. }
  - unfold convertToCSV. rewrite (contentLines_entries e es Hvalid).
    do 2 f_equal. unfold nonNull.
    clear -Hvalid. induction Hvalid as [|e' l He' _ IH]; [done|].
    cbn [map omap list_omap]. rewrite (csvRow_entry e' He'). cbn [id]. f_equal. exact IH.
Qed.

Lemma convertToCSV_entries_witness :
  convertToCSV (join JsText.lineFeed (map entryLine [acunaEntry; troutEntry]))
  = join JsText.lineFeed
      ["Number,Player,Team,Position,Age"; entryRow acunaEntry; entryRow troutEntry].
Proof.
  refine (proj1 (convertToCSV_entries acunaEntry [troutEntry] _)).
  repeat first [apply Forall_cons; split | apply Forall_nil_2 | split
               | reflexivity | discriminate | lia ].
Defined.

End IbwConverterFacts.

(** ** More on [getFieldValue] and [findMatches] *)

Lemma objectGet_own props key v :
  NoDup (Js.keys props) -> (key, v) ∈ props -> Js.objectGet props key = v.
Proof.
  induction props as [|[k w] props IH]; [by intros _ ?%elem_of_nil|].
  unfold Js.keys. rewrite fmap_cons. cbn [fst Js.objectGet].
  intros [Hk Hnodup]%NoDup_cons [Hin|Hin]%elem_of_cons.
  - injection Hin as <- <-. by rewrite decide_True.
  - rewrite decide_False; [by apply IH|].
    intros ->. apply Hk. apply list_elem_of_fmap. by exists (key, v).
Qed.

(** X20.  Reading a cell that is there.  On a positional record, the
    decimal numeral of a position within bounds gives the cell at that
    position, as a string and trimmed; on a keyed record (an object has
    each of its keys once), an own key gives the value of its property
    in the same way.  A cell that is [null] or [undefined] gives the
    empty string.  A list of candidates (on a keyed record, names
    outside [Object.prototype]) gives what its first candidate with a
    cell that is neither [null] nor [undefined] gives alone, and the
    empty string when there is none. *)
Theorem getFieldValue_cell (cells : list JsValue) (props : list (string * JsValue))
    (position : nat) (key : string) (v : JsValue) :
  (forall obj names,
     ownNames obj (FNames names) ->
     getFieldValue obj (FNames names)
     = match find (fun name => Js.present (lookupField obj name)) names with
       | Some name => getFieldValue obj (FName name)
       | None => ""
       end)
  /\ (cells !! position = Some v ->
   getFieldValue (RArray cells) (FName (ofZ (Z.of_nat position)))
   = if Js.present v then trim (Js.toString v) else "")
  /\ (NoDup (Js.keys props) ->
      (key, v) ∈ props ->
      getFieldValue (RObject props) (FName key)
      = if Js.present v then trim (Js.toString v) else "").
Proof.
  split; [|split].
  - intros obj names _. cbn [getFieldValue].
    induction names as [|name names IH]; [done|].
    cbn [firstPresent find]. destruct (Js.present (lookupField obj name)) eqn:E; [|exact IH].
    unfold getFieldValue. cbn [Js.specToString]. by rewrite E.
  - intros Hv. unfold getFieldValue, lookupField. cbn [Js.specToString].
    rewrite parseInt_ofZ by lia. cbn [Js.arrayGet].
    replace (Z.of_nat position <? 0)%Z with false by (symmetry; apply Z.ltb_ge; lia).
    by rewrite Nat2Z.id, Hv.
  - intros Hnodup Hin. unfold getFieldValue, lookupField. cbn [Js.specToString].
    by rewrite (objectGet_own _ _ _ Hnodup Hin).
Qed.

Lemma getFieldValue_cell_witness :
  getFieldValue sampleRow (FName "1") = "Juan Soto"
  /\ getFieldValue shortPlayer (FName "Team") = "NYY".
Proof.
  split.
  - refine (proj1 (proj2 (getFieldValue_cell [VString "1"; VString "Juan Soto"; VString "NYY"]
                            [] 1 "" (VString "Juan Soto"))) eq_refl).
  - refine (proj2 (proj2 (getFieldValue_cell []
                     [("Number", VString "1"); ("Player", VString "Juan Soto");
                      ("Team", VString "NYY")] 0 "Team" (VString "NYY"))) _ _).
    + apply (bool_decide_unpack _). vm_compute. exact I.
    + do 2 right. left.
Defined.

Lemma enumerateFrom_elem {A} i (l : list A) j x :
  l !! j = Some x -> (i + j, x) ∈ enumerateFrom i l.
Proof.
  revert i j. induction l as [|y l IH]; intros i j; [done|].
  destruct j as [|j]; cbn [enumerateFrom].
  - intros [= ->]. rewrite Nat.add_0_r. left.
  - intros H. right. replace (i + S j) with (S i + j) by lia. by apply IH.
Qed.

Lemma find_is_Some {A} (f : A -> bool) l :
  is_Some (find f l) <-> exists x, x ∈ l /\ f x = true.
Proof.
  split.
  - intros [x Hx]. apply find_some in Hx as [Hin Hf]. exists x.
    split; [by apply list_elem_of_In|done].
  - intros (x & Hin & Hf). destruct (find f l) eqn:E; [done|].
    apply list_elem_of_In in Hin. by rewrite (find_none _ _ E x Hin) in Hf.
Qed.

Lemma elem_of_rev {A} (l : list A) x : x ∈ rev l <-> x ∈ l.
Proof. rewrite !list_elem_of_In. symmetry. apply in_rev. Qed.

Lemma find_elem {A} (f : A -> bool) l x : find f l = Some x -> x ∈ l /\ f x = true.
Proof. intros [Hin Hf]%find_some. split; [by apply list_elem_of_In|done]. Qed.

Section Lookups.

Variables (mapping : Mapping) (fantraxPlayers : list Record).

Let maps := createPlayerMaps fantraxPlayers (fantrax mapping).

Lemma lookupMatch_sound b a t :
  lookupMatch maps (ibw mapping) b = Some (a, t) ->
  a ∈ fantraxPlayers
  /\ named (fantrax mapping) a = true
  /\ named (ibw mapping) b = true
  /\ match t with
     | MExact => sameNameAndTeam mapping a b
     | MNameOnly => sameName mapping a b
     end.
Proof.
  unfold lookupMatch, maps. destruct (named (ibw mapping) b) eqn:Hb; [|done].
  rewrite createPlayerMaps_exact, createPlayerMaps_nameOnly.
  destruct (findLast _ _) as [a'|] eqn:E.
  - intros [= <- <-]. unfold findLast in E. apply find_elem in E as [Hin Hf].
    apply (proj1 (elem_of_rev _ _)) in Hin. unfold bindsExact in Hf.
    apply andb_prop in Hf as [Hnamed Hkey%bool_decide_eq_true]. done.
  - destruct (findFirst _ _) as [a'|] eqn:E'; [|done].
    intros [= <- <-]. unfold findFirst in E'. apply find_elem in E' as [Hin Hf].
    unfold bindsNameOnly in Hf.
    apply andb_prop in Hf as [Hnamed Hkey%bool_decide_eq_true]. done.
Qed.

Lemma lookupMatch_complete b :
  is_Some (lookupMatch maps (ibw mapping) b)
  <-> named (ibw mapping) b = true
      /\ exists a, a ∈ fantraxPlayers /\ named (fantrax mapping) a = true
                   /\ (sameNameAndTeam mapping a b \/ sameName mapping a b).
Proof.
  split.
  - intros [[a t] H]. apply lookupMatch_sound in H as (Hin & Ha & Hb & Hkey).
    split; [done|]. exists a. split; [done|]. split; [done|].
    destruct t; [by left|by right].
  - intros (Hb & a & Hin & Ha & Hkey). unfold lookupMatch, maps. rewrite Hb.
    rewrite createPlayerMaps_exact, createPlayerMaps_nameOnly.
    destruct (findLast _ _) as [a'|] eqn:E; [done|].
    destruct (findFirst _ _) as [a'|] eqn:E'; [done|].
    exfalso. destruct Hkey as [Hkey|Hkey].
    + assert (is_Some (findLast (bindsExact (fantrax mapping) (fullKey (ibw mapping) b))
                                fantraxPlayers)) as [? Hsome]; [|congruence].
      unfold findLast. apply find_is_Some. exists a. split; [by apply (proj2 (elem_of_rev _ _))|].
      unfold bindsExact. rewrite Ha. by apply bool_decide_eq_true.
    + assert (is_Some (findFirst (bindsNameOnly (fantrax mapping)
                                    (nameOnlyKey (ibw mapping) b)) fantraxPlayers))
        as [? Hsome]; [|congruence].
      unfold findFirst. apply find_is_Some. exists a. split; [done|].
      unfold bindsNameOnly. rewrite Ha. by apply bool_decide_eq_true.
Qed.

End Lookups.

Lemma findMatches_result fantraxPlayers ibwPlayers config result :
  findMatches fantraxPlayers ibwPlayers config = Ok result ->
  matches result
  = matchesOf (createPlayerMaps (rowsOf fantraxPlayers) (fantrax (mergeMapping config)))
              (ibw (mergeMapping config)) (enumerate (rowsOf ibwPlayers))
  /\ columnMapping result = mergeMapping config.
Proof.
  rewrite findMatches_unfold. destruct (validationError _ _ _); [done|].
  by intros [= <-].
Qed.

Lemma recordName_case m1 m2 a b :
  nameOnlyKey m1 a = nameOnlyKey m2 b ->
  toLowerCase (recordName m1 a) = toLowerCase (recordName m2 b).
Proof.
  unfold nameOnlyKey, createMatchKey. cbn [default truthy].
  by rewrite !trim_trimmed by apply getFieldValue_is_trimmed.
Qed.

(** X21.  Every match of [findMatches] pairs a record of dataset B
    with a record of dataset A, and both have a player name.  In a
    name-only match the two names are equal up to letter case; in an
    exact match the two full keys (name and team) are equal. *)
Theorem findMatches_sound (fantraxPlayers ibwPlayers : Dataset) (config : ColumnMapping)
    (result : MatchResult) (x : Match) :
  findMatches fantraxPlayers ibwPlayers config = Ok result ->
  x ∈ matches result ->
  fantraxData x ∈ rowsOf fantraxPlayers
  /\ ibwPlayer x ∈ rowsOf ibwPlayers
  /\ recordName (fantrax (columnMapping result)) (fantraxData x) <> ""
  /\ recordName (ibw (columnMapping result)) (ibwPlayer x) <> ""
  /\ match matchType x with
     | MExact => sameNameAndTeam (columnMapping result) (fantraxData x) (ibwPlayer x)
     | MNameOnly =>
         toLowerCase (recordName (fantrax (columnMapping result)) (fantraxData x))
         = toLowerCase (recordName (ibw (columnMapping result)) (ibwPlayer x))
     end.
Proof.
  intros Hfind Hx. destruct (findMatches_result _ _ _ _ Hfind) as [Hmatches ->].
  rewrite Hmatches in Hx. apply matchesOf_elem in Hx as [Hin Hlookup].
  apply lookupMatch_sound in Hlookup as (Ha & Hna & Hnb & Hkey).
  split; [done|]. split.
  { apply enumerateFrom_lookup in Hin as [_ Hl]. by eapply list_elem_of_lookup_2. }
  unfold named in Hna, Hnb. apply truthy_true in Hna, Hnb.
  split; [done|]. split; [done|].
  destruct (matchType x); [done|]. by apply recordName_case.
Qed.

(** X22.  Which records of dataset B are matched.  When [findMatches]
    returns, the record at a position of dataset B is in a match exactly
    when it has a player name and some record of dataset A with a player
    name has the same full key or the same name key; the match then
    holds that record and that position.  So a record whose name is in
    dataset A, up to letter case and surrounding white space, is never
    left out, whatever its team. *)
Theorem findMatches_complete (fantraxPlayers ibwPlayers : Dataset) (config : ColumnMapping)
    (result : MatchResult) (index : nat) (b : Record) :
  findMatches fantraxPlayers ibwPlayers config = Ok result ->
  rowsOf ibwPlayers !! index = Some b ->
  (exists x, x ∈ matches result /\ ibwIndex x = index /\ ibwPlayer x = b)
  <-> recordName (ibw (columnMapping result)) b <> ""
      /\ exists a, a ∈ rowsOf fantraxPlayers
                   /\ recordName (fantrax (columnMapping result)) a <> ""
                   /\ (sameNameAndTeam (columnMapping result) a b
                       \/ sameName (columnMapping result) a b).
Proof.
  intros Hfind Hb. destruct (findMatches_result _ _ _ _ Hfind) as [Hmatches ->].
  rewrite Hmatches.
  rewrite <- (truthy_true (recordName (ibw _) b)).
  setoid_rewrite <- truthy_true.
  change (truthy (recordName ?m ?r)) with (named m r).
  rewrite <- lookupMatch_complete. split.
  - intros (x & Hx & _ & <-). apply matchesOf_elem in Hx as [_ Hlookup]. eauto.
  - intros [[a t] Hlookup].
    exists {| ibwPlayer := b; fantraxData := a; matchType := t; ibwIndex := index |}.
    split; [|done]. unfold matchesOf. apply list_elem_of_omap.
    exists (index, b). split; [apply (enumerateFrom_elem 0), Hb|].
    unfold matchOf. cbn [snd fst]. by rewrite Hlookup.
Qed.

Lemma findMatches_sound_witness :
  exists result,
    findMatches (Rows sampleFantrax) (Rows sampleIBWDifferent) noMapping = Ok result
    /\ Forall (fun x => fantraxData x ∈ sampleFantrax
                        /\ toLowerCase (recordName (fantrax (columnMapping result))
                                                   (fantraxData x))
                           = toLowerCase (recordName (ibw (columnMapping result))
                                                     (ibwPlayer x)))
              (matches result).
Proof.
  eexists. split; [reflexivity|].
  apply Forall_forall. intros x Hx.
  pose proof (findMatches_sound (Rows sampleFantrax) (Rows sampleIBWDifferent) noMapping
                _ x eq_refl Hx) as (Ha & _ & _ & _ & Hkey).
  split; [exact Ha|].
  assert (matchType x = MNameOnly) as Ht.
  { repeat (apply elem_of_cons in Hx as [->|Hx]; [reflexivity|]).
    by apply elem_of_nil in Hx. }
  rewrite Ht in Hkey. exact Hkey.
Defined.

Lemma findMatches_complete_witness :
  exists result,
    findMatches (Rows sampleFantrax) (Rows sampleIBWDifferent) noMapping = Ok result
    /\ exists x, x ∈ matches result /\ ibwIndex x = 1
                 /\ ibwPlayer x = player "2" "Mike Trout" "DIFFERENT" "OF" "32.5".
Proof.
  eexists. split; [reflexivity|].
  apply (findMatches_complete (Rows sampleFantrax) (Rows sampleIBWDifferent) noMapping
           _ 1 (player "2" "Mike Trout" "DIFFERENT" "OF" "32.5") eq_refl eq_refl).
  split; [discriminate|].
  exists (player "2" "Mike Trout" "LAA" "OF" "32").
  split; [right; left|]. split; [discriminate|]. right. reflexivity.
Defined.

Lemma lookupMatch_choice mapping fantraxPlayers b a t :
  lookupMatch (createPlayerMaps fantraxPlayers (fantrax mapping)) (ibw mapping) b
  = Some (a, t) ->
  match findLast (bindsExact (fantrax mapping) (fullKey (ibw mapping) b)) fantraxPlayers with
  | Some last => t = MExact /\ a = last
  | None =>
      t = MNameOnly
      /\ findFirst (bindsNameOnly (fantrax mapping) (nameOnlyKey (ibw mapping) b))
                   fantraxPlayers = Some a
  end.
Proof.
  unfold lookupMatch. destruct (named (ibw mapping) b); [|done].
  rewrite createPlayerMaps_exact, createPlayerMaps_nameOnly.
  destruct (findLast _ _) as [last|]; [by intros [= <- <-]|].
  destruct (findFirst _ _) as [first|]; [by intros [= <- <-]|done].
Qed.

(** X23.  Which record of dataset A a match holds.  When some record of
    dataset A with a player name has the full key of the dataset-B
    record, the match is exact and holds the last such record of
    dataset A.  Otherwise the match is name-only and holds the first
    record of dataset A with a player name that has the name key of the
    dataset-B record. *)
Theorem findMatches_prefers_exact (fantraxPlayers ibwPlayers : Dataset)
    (config : ColumnMapping) (result : MatchResult) (x : Match) :
  findMatches fantraxPlayers ibwPlayers config = Ok result ->
  x ∈ matches result ->
  match findLast (bindsExact (fantrax (columnMapping result))
                             (fullKey (ibw (columnMapping result)) (ibwPlayer x)))
                 (rowsOf fantraxPlayers) with
  | Some last => matchType x = MExact /\ fantraxData x = last
  | None =>
      matchType x = MNameOnly
      /\ findFirst (bindsNameOnly (fantrax (columnMapping result))
                                  (nameOnlyKey (ibw (columnMapping result)) (ibwPlayer x)))
                   (rowsOf fantraxPlayers) = Some (fantraxData x)
  end.
Proof.
  intros Hfind Hx. destruct (findMatches_result _ _ _ _ Hfind) as [Hmatches ->].
  rewrite Hmatches in Hx. apply matchesOf_elem in Hx as [_ Hlookup].
  by apply lookupMatch_choice.
Qed.

Lemma findMatches_prefers_exact_witness :
  exists result,
    findMatches (Rows duplicateFantrax) (Rows [player "1" "juan soto" "nyy" "OF" "25"])
                noMapping = Ok result
    /\ Forall (fun x => matchType x = MExact
                        /\ fantraxData x = player "8" "Juan Soto" "NYY" "OF" "26")
              (matches result).
Proof.
  eexists. split; [reflexivity|].
  apply Forall_forall. intros x Hx.
  pose proof (findMatches_prefers_exact (Rows duplicateFantrax)
                (Rows [player "1" "juan soto" "nyy" "OF" "25"]) noMapping _ x eq_refl Hx) as H.
  apply elem_of_cons in Hx as [->|Hx]; [exact H|].
  by apply elem_of_nil in Hx.
Defined.

Lemma matchesOf_from maps m i l x :
  x ∈ matchesOf maps m (enumerateFrom i l) -> i <= ibwIndex x.
Proof. intros [Hin _]%matchesOf_elem. by apply enumerateFrom_lookup in Hin as [? _]. Qed.

Lemma matchesOf_increasing maps m i l p q x y :
  matchesOf maps m (enumerateFrom i l) !! p = Some x ->
  matchesOf maps m (enumerateFrom i l) !! q = Some y ->
  p < q -> ibwIndex x < ibwIndex y.
Proof.
  revert i p q. induction l as [|r l IH]; intros i p q; [done|].
  cbn [enumerateFrom]. rewrite matchesOf_cons.
  destruct (lookupMatch maps m r) as [[a t]|]; [|apply IH].
  destruct p as [|p], q as [|q]; try lia.
  - intros [= <-] Hy _. cbn [ibwIndex].
    change (matchesOf maps m (enumerateFrom (S i) l) !! q = Some y) in Hy.
    apply list_elem_of_lookup_2, matchesOf_from in Hy. lia.
  - intros Hp Hq Hlt. apply (IH (S i) p q); [done|done|lia].
Qed.

(** X24.  The matches are in the order of dataset B: of two matches,
    the one that comes first in the returned list holds the smaller
    position of dataset B. *)
Theorem findMatches_order (fantraxPlayers ibwPlayers : Dataset) (config : ColumnMapping)
    (result : MatchResult) (p q : nat) (x y : Match) :
  findMatches fantraxPlayers ibwPlayers config = Ok result ->
  matches result !! p = Some x ->
  matches result !! q = Some y ->
  p < q ->
  ibwIndex x < ibwIndex y.
Proof.
  intros Hfind. destruct (findMatches_result _ _ _ _ Hfind) as [-> _].
  apply matchesOf_increasing.
Qed.

Lemma findMatches_order_witness :
  exists result x y,
    findMatches (Rows sampleFantrax) (Rows sampleIBWDifferent) noMapping = Ok result
    /\ matches result !! 0%nat = Some x /\ matches result !! 1%nat = Some y
    /\ ibwIndex x < ibwIndex y.
Proof.
  eexists _, _, _. split; [reflexivity|]. split; [reflexivity|]. split; [reflexivity|].
  refine (findMatches_order (Rows sampleFantrax) (Rows sampleIBWDifferent) noMapping
            _ 0 1 _ _ eq_refl eq_refl eq_refl _).
  lia.
Defined.

(** ** [readIBWCSV] *)

Lemma ibwObject_field row i :
  i < 10 ->
  getFieldValue (RObject (ibwObject row)) (FName (ofZ (Z.of_nat i)))
  = getFieldValue (RArray row) (FName (ofZ (Z.of_nat i))).
Proof.
  intros Hi. do 10 (destruct i as [|i]; [reflexivity|]). lia.
Qed.

Lemma prefix_toLowerCase a s :
  String.prefix a s = true -> String.prefix (toLowerCase a) (toLowerCase s) = true.
Proof.
  revert s. induction a as [|x a IH]; intros s; [by destruct s|].
  destruct s as [|y s]; [done|]. cbn [String.prefix toLowerCase].
  destruct (ascii_dec x y) as [->|]; [|done]. intros H.
  destruct (ascii_dec (lowerChar y) (lowerChar y)); [by apply IH|done].
Qed.

Lemma includes_toLowerCase s sub :
  JsText.includes s sub = true -> JsText.includes (toLowerCase s) (toLowerCase sub) = true.
Proof.
  induction s as [|c s IH]; cbn [JsText.includes].
  - destruct (String.prefix sub "") eqn:E; [|done].
    intros _. apply prefix_toLowerCase in E. cbn [toLowerCase] in E.
    cbn [toLowerCase JsText.includes]. by rewrite E.
  - destruct (String.prefix sub (String c s)) eqn:E.
    + intros _. cbn [toLowerCase JsText.includes].
      apply prefix_toLowerCase in E. cbn [toLowerCase] in E. by rewrite E.
    + intros H%IH. cbn [toLowerCase JsText.includes]. rewrite H.
      by destruct (String.prefix (toLowerCase sub) _).
Qed.

Lemma keepsRow_command row : existsb mentionsFYPD row = false -> keepsRow row = true.
Proof.
  intros H. unfold keepsRow, cellAt.
  destruct (row !! 2) as [v|] eqn:Hv; [|done]. cbn [default from_option]. unfold id.
  destruct (JsText.truthyValue v) eqn:Ht; [|reflexivity]. cbn [negb orb].
  destruct (JsText.includes (Js.toString v) "FYPD") eqn:Hi; [|reflexivity]. exfalso.
  assert (existsb mentionsFYPD row = true) as Hex; [|congruence].
  apply existsb_exists. exists v. split.
  - apply list_elem_of_In. by eapply list_elem_of_lookup_2.
  - unfold mentionsFYPD. rewrite Ht. by apply includes_toLowerCase in Hi.
Qed.

(** X25.  [readIBWCSV] returns one object per row that it keeps, in the
    order of the rows.  Each object has the ten keys [0] to [9], and
    under each of them [getFieldValue] reads what it reads from the row
    at that position: a column from the eleventh on is dropped, and a
    missing column reads as the empty string.  The rows kept are those
    whose third cell is empty or does not contain [FYPD], so every row
    that the filter of the command keeps is kept; no row of the parser
    at all raises the error on an empty file. *)
Theorem readIBWCSV_rows (filePath : string) (records : list (list JsValue)) :
  readIBWCSV filePath records
  = match records with
    | [] => Throw ("CSV file is empty or contains no valid data: " +:+ filePath)
    | _ => Ok (map ibwObject (List.filter keepsRow records))
    end
  /\ forall row i,
       Js.keys (ibwObject row) = ["0"; "1"; "2"; "3"; "4"; "5"; "6"; "7"; "8"; "9"]
       /\ (i < 10 ->
           getFieldValue (RObject (ibwObject row)) (FName (ofZ (Z.of_nat i)))
           = getFieldValue (RArray row) (FName (ofZ (Z.of_nat i))))
       /\ (10 <= i -> getFieldValue (RObject (ibwObject row)) (FName (ofZ (Z.of_nat i))) = "")
       /\ (existsb mentionsFYPD row = false -> keepsRow row = true).
Proof.
  split; [by destruct records|]. intros row i. split; [done|]. split; [apply ibwObject_field|].
  split; [|apply keepsRow_command].
  intros Hi. unfold getFieldValue. cbn [Js.specToString].
  rewrite lookupField_unresolved; [done|].
  cbn [nameResolves]. apply bool_decide_eq_false. intros Hin.
  assert (parseInt_key : forall k, k ∈ Js.keys (ibwObject row) ->
                                   exists z, Js.parseInt k = Some z /\ (z < 10)%Z).
  { intros k Hk. cbn in Hk.
    repeat (apply elem_of_cons in Hk as [->|Hk];
            [eexists; split; [vm_compute; reflexivity|lia]|]).
    by apply elem_of_nil in Hk. }
  destruct (parseInt_key _ Hin) as (z & Hz & Hlt).
  rewrite parseInt_ofZ in Hz by lia. injection Hz as <-. lia.
Qed.

(** ** From the matches to the output rows *)

Lemma findMatches_pair fantraxPlayers ibwPlayers config result x :
  findMatches fantraxPlayers ibwPlayers config = Ok result ->
  x ∈ matches result ->
  recordName (fantrax (columnMapping result)) (fantraxData x) <> ""
  /\ recordName (ibw (columnMapping result)) (ibwPlayer x) <> ""
  /\ (matchType x = MNameOnly ->
      toLowerCase (recordName (fantrax (columnMapping result)) (fantraxData x))
      = toLowerCase (recordName (ibw (columnMapping result)) (ibwPlayer x))).
Proof.
  intros Hfind Hx. destruct (findMatches_result _ _ _ _ Hfind) as [Hmatches ->].
  rewrite Hmatches in Hx. apply matchesOf_elem in Hx as [_ Hlookup].
  apply lookupMatch_sound in Hlookup as (_ & Hna & Hnb & Hkey).
  unfold named in Hna, Hnb. apply truthy_true in Hna, Hnb.
  split; [done|]. split; [done|]. intros Ht. rewrite Ht in Hkey. by apply recordName_case.
Qed.

(** X26.  The rows made of the matches of a call, with the mapping the
    call returned.  In every row the cells [IBW Player] and [Fantrax
    Player] hold the two names that were matched, neither is empty, and
    [Match Type] is [exact] or [name-only]; in a [name-only] row the two
    names are equal up to letter case. *)
Theorem formatMatchResults_names (fantraxPlayers ibwPlayers : Dataset)
    (config : ColumnMapping) (result : MatchResult) :
  findMatches fantraxPlayers ibwPlayers config = Ok result ->
  Forall (fun row =>
            exists ibwName fantraxName kind,
              Js.objectGet row "IBW Player" = VString ibwName
              /\ Js.objectGet row "Fantrax Player" = VString fantraxName
              /\ Js.objectGet row "Match Type" = VString kind
              /\ ibwName <> "" /\ fantraxName <> ""
              /\ (kind = "exact" \/ kind = "name-only")
              /\ (kind = "name-only" -> toLowerCase fantraxName = toLowerCase ibwName))
         (formatMatchResults (matches result) (columnMapping result)).
Proof.
  intros Hfind. unfold formatMatchResults. apply Forall_fmap, Forall_forall. intros x Hx.
  destruct (findMatches_pair _ _ _ _ x Hfind Hx) as (Ha & Hb & Hcase).
  exists (recordName (ibw (columnMapping result)) (ibwPlayer x)),
    (recordName (fantrax (columnMapping result)) (fantraxData x)),
    (matchTypeString (matchType x)).
  split; [reflexivity|]. split; [reflexivity|]. split; [reflexivity|].
  split; [done|]. split; [done|].
  destruct (matchType x); cbn [matchTypeString].
  - split; [by left|]. discriminate.
  - split; [by right|]. intros _. by apply Hcase.
Qed.

Lemma formatMatchResults_names_witness :
  exists result,
    findMatches (Rows sampleFantrax) (Rows sampleIBWDifferent) noMapping = Ok result
    /\ Forall (fun row => exists ibwName fantraxName,
                            Js.objectGet row "IBW Player" = VString ibwName
                            /\ Js.objectGet row "Fantrax Player" = VString fantraxName
                            /\ ibwName <> "" /\ fantraxName <> "")
              (formatMatchResults (matches result) (columnMapping result)).
Proof.
  eexists. split; [reflexivity|].
  eapply Forall_impl;
    [exact (formatMatchResults_names (Rows sampleFantrax) (Rows sampleIBWDifferent)
              noMapping _ eq_refl)|].
  intros row (ibwName & fantraxName & kind & H1 & H2 & _ & H4 & H5 & _).
  exists ibwName, fantraxName. repeat split; assumption.
Defined.
